(** * MotionPath: parent-matrix cache, keyframe cache and stroke fitter

    A shallow embedding of the computational core of the motion-path
    plug-in (MotionPath.cpp, Keyframe.cpp, MotionPathDrawContext.cpp,
    MotionPathEditContext.cpp).

    Conventions of the embedding.
    - A [double] that holds a coordinate, a length, an angle or a matrix
      entry is a real number ([R]): arithmetic is exact.  Where a
      property turns on the rounding of [double], the function is given
      a second time over binary64 floating-point numbers (module
      [Binary64]) and run on the input in question.
    - A [double] that holds a frame time (a key of [pMatrixCache] or of
      [keyframesCache]) is a whole frame, an integer ([Z]); requests and
      keys at fractions of a frame are not modelled.
    - [std::map<double, T>] is a finite map [gmap Z T];
      [MVectorArray], [MDoubleArray] and [std::vector] are lists.
    - What the host (Maya) evaluates for the plug-in (plugs, animation
      curves, the viewport projection) is a field of a class or a
      variable of the enclosing section. *)

From Stdlib Require Import ZArith Reals Lra Lia List Bool.
From Stdlib Require Floats.
From stdpp Require Import base tactics option list sorting gmap.

Set Default Proof Using "Type".

(** ** Vectors and matrices (MVector, MMatrix) *)

Module Linear.

Local Open Scope R_scope.

(** Comparisons of real numbers, as decisions. *)
#[global] Instance R_eq_decision : EqDecision R := Req_dec_T.
#[global] Instance Rlt_decision : RelDecision Rlt := Rlt_dec.
#[global] Instance Rle_decision : RelDecision Rle := Rle_dec.
#[global] Instance Rgt_decision : RelDecision Rgt := Rgt_dec.
#[global] Instance Rge_decision : RelDecision Rge := Rge_dec.

Record MVector : Type := mkVector { vx : R; vy : R; vz : R }.

Definition vzero : MVector := mkVector 0 0 0.

Definition vadd (a b : MVector) : MVector :=
  mkVector (vx a + vx b) (vy a + vy b) (vz a + vz b).

Definition vsub (a b : MVector) : MVector :=
  mkVector (vx a - vx b) (vy a - vy b) (vz a - vz b).

Definition vneg (a : MVector) : MVector :=
  mkVector (- vx a) (- vy a) (- vz a).

(** [v * k] *)
Definition vscale (a : MVector) (k : R) : MVector :=
  mkVector (vx a * k) (vy a * k) (vz a * k).

(** [a * b] on two vectors is the dot product. *)
Definition vdot (a b : MVector) : R :=
  vx a * vx b + vy a * vy b + vz a * vz b.

Definition vlength (a : MVector) : R := sqrt (vdot a a).

(** [MVector::normalize]: scales to unit length in place; a vector of
    length zero is left as it is. *)
Definition vnormalize (a : MVector) : MVector :=
  if bool_decide (vlength a = 0) then a else vscale a (/ vlength a).

(** A 4x4 matrix, [mIJ] being the entry [m[I][J]]. *)
Record MMatrix : Type := mkMatrix {
  m00 : R; m01 : R; m02 : R; m03 : R;
  m10 : R; m11 : R; m12 : R; m13 : R;
  m20 : R; m21 : R; m22 : R; m23 : R;
  m30 : R; m31 : R; m32 : R; m33 : R
}.

(** The default-constructed [MMatrix]. *)
Definition identity : MMatrix :=
  mkMatrix 1 0 0 0
           0 1 0 0
           0 0 1 0
           0 0 0 1.

(** [a * b] *)
Definition mmul (a b : MMatrix) : MMatrix :=
  mkMatrix
    (m00 a * m00 b + m01 a * m10 b + m02 a * m20 b + m03 a * m30 b)
    (m00 a * m01 b + m01 a * m11 b + m02 a * m21 b + m03 a * m31 b)
    (m00 a * m02 b + m01 a * m12 b + m02 a * m22 b + m03 a * m32 b)
    (m00 a * m03 b + m01 a * m13 b + m02 a * m23 b + m03 a * m33 b)
    (m10 a * m00 b + m11 a * m10 b + m12 a * m20 b + m13 a * m30 b)
    (m10 a * m01 b + m11 a * m11 b + m12 a * m21 b + m13 a * m31 b)
    (m10 a * m02 b + m11 a * m12 b + m12 a * m22 b + m13 a * m32 b)
    (m10 a * m03 b + m11 a * m13 b + m12 a * m23 b + m13 a * m33 b)
    (m20 a * m00 b + m21 a * m10 b + m22 a * m20 b + m23 a * m30 b)
    (m20 a * m01 b + m21 a * m11 b + m22 a * m21 b + m23 a * m31 b)
    (m20 a * m02 b + m21 a * m12 b + m22 a * m22 b + m23 a * m32 b)
    (m20 a * m03 b + m21 a * m13 b + m22 a * m23 b + m23 a * m33 b)
    (m30 a * m00 b + m31 a * m10 b + m32 a * m20 b + m33 a * m30 b)
    (m30 a * m01 b + m31 a * m11 b + m32 a * m21 b + m33 a * m31 b)
    (m30 a * m02 b + m31 a * m12 b + m32 a * m22 b + m33 a * m32 b)
    (m30 a * m03 b + m31 a * m13 b + m32 a * m23 b + m33 a * m33 b).

(** [pivotMtx[3][0] = x; pivotMtx[3][1] = y; pivotMtx[3][2] = z;] *)
Definition setTranslationRow (m : MMatrix) (p : MVector) : MMatrix :=
  mkMatrix (m00 m) (m01 m) (m02 m) (m03 m)
           (m10 m) (m11 m) (m12 m) (m13 m)
           (m20 m) (m21 m) (m22 m) (m23 m)
           (vx p) (vy p) (vz p) (m33 m).

(** [MVector * MMatrix]: the row vector times the upper-left 3x3 block
    (a direction: the translation row does not take part). *)
Definition vmulm (v : MVector) (m : MMatrix) : MVector :=
  mkVector (vx v * m00 m + vy v * m10 m + vz v * m20 m)
           (vx v * m01 m + vy v * m11 m + vz v * m21 m)
           (vx v * m02 m + vy v * m12 m + vz v * m22 m).

(** [MotionPath::multPosByParentMatrix] *)
Definition multPosByParentMatrix (vec : MVector) (mat : MMatrix) : MVector :=
  let multipliedVec := vmulm vec mat in
  mkVector (vx multipliedVec + m30 mat)
           (vy multipliedVec + m31 mat)
           (vz multipliedVec + m32 mat).

End Linear.

(** ** The parent-matrix cache of a track (MotionPath.cpp) *)

Module ParentMatrixCache.

Import Linear.
Local Open Scope Z_scope.

(** The cache fields of a [MotionPath] object. *)
Record MotionPath : Type := mkMotionPath {
  pMatrixCache : gmap Z MMatrix;
  cachedRangeStart : Z;
  cachedRangeEnd : Z;
  pMatrixCacheValid : bool
}.

(** The fields as the constructor leaves them. *)
Definition newMotionPath : MotionPath := mkMotionPath ∅ 0 0 false.

(** [MotionPath::clearParentMatrixCache] *)
Definition clearParentMatrixCache (s : MotionPath) : MotionPath :=
  mkMotionPath ∅ (cachedRangeStart s) (cachedRangeEnd s) false.

(** The whole frames [a, a+1, ..., b] visited by
    [for (double i = a; i <= b; ++i)]; none when [b < a]. *)
Definition framesFromTo (a b : Z) : list Z := seqZ a (b - a + 1).

(** What the scene evaluates at a frame: the parent (or world) matrix
    plug and the two pivot plug triples; and the [usePivots] setting. *)
Class Scene : Type := mkScene {
  parentMatrixAt : Z -> MMatrix;
  rotatePivotAt : Z -> MVector;
  rotatePivotTranslateAt : Z -> MVector;
  usePivots : bool
}.

Section Scene.

Context `{scene : Scene}.

(** [MotionPath::getPMatrixAtTime].  The second pivot is written into
    the same [pivotMtx], without a reset in between. *)
Definition getPMatrixAtTime (evalTime : Z) : MMatrix :=
  let m := parentMatrixAt evalTime in
  if usePivots then
    let piv := rotatePivotAt evalTime in
    let pivotMtx := setTranslationRow identity piv in
    let m := mmul pivotMtx m in
    let piv := rotatePivotTranslateAt evalTime in
    let pivotMtx := setTranslationRow pivotMtx piv in
    mmul pivotMtx m
  else m.

(** [MotionPath::ensureParentAndPivotMatrixAtTime] *)
Definition ensureParentAndPivotMatrixAtTime (time : Z) (s : MotionPath)
  : MotionPath :=
  match pMatrixCache s !! time with
  | None =>
      mkMotionPath (<[time := getPMatrixAtTime time]> (pMatrixCache s))
                   (cachedRangeStart s) (cachedRangeEnd s)
                   (pMatrixCacheValid s)
  | Some _ => s
  end.

(** [ensureParentAndPivotMatrixAtTime(i)] for each frame of a list, in
    order. *)
Definition ensureAll (l : list Z) (s : MotionPath) : MotionPath :=
  foldl (fun acc i => ensureParentAndPivotMatrixAtTime i acc) s l.

(** [for (double i = a; i <= b; ++i) ensureParentAndPivotMatrixAtTime(i);] *)
Definition ensureRange (a b : Z) (s : MotionPath) : MotionPath :=
  ensureAll (framesFromTo a b) s.

(** Phase 2 of the rebuild, one loop iteration: pure arithmetic on the
    gathered inputs of one frame. *)
Definition composeFrame (parent : MMatrix) (rpivot rptivot : MVector)
  : MMatrix :=
  let m := parent in
  if usePivots then
    let pivotMtx := setTranslationRow identity rpivot in
    let m := mmul pivotMtx m in
    let pivotMtx := setTranslationRow identity rptivot in
    mmul pivotMtx m
  else m.

(** Phase 2 under a schedule: the indices are handled one at a time in
    the order [schedule]; each pass reads the gathered inputs of its
    index and writes its own slot of [finalMatrices]. *)
Definition composeScheduled (schedule : list nat) (parentMatrices : list MMatrix)
    (rpivots rptivots : list MVector) (finalMatrices : list MMatrix)
  : list MMatrix :=
  foldl (fun acc idx =>
           match parentMatrices !! idx, rpivots !! idx, rptivots !! idx with
           | Some m, Some rp, Some rpt => <[idx := composeFrame m rp rpt]> acc
           | _, _, _ => acc
           end)
        finalMatrices schedule.

(** The three-phase rebuild of [numFrames] frames from [startFrame]. *)
Definition rebuildThreePhase (startFrame : Z) (numFrames : Z)
    (cache : gmap Z MMatrix) : gmap Z MMatrix :=
  (* phase 1: gather on the owning thread *)
  let frames := (fun idx => startFrame + idx) <$> seqZ 0 numFrames in
  let parentMatrices := parentMatrixAt <$> frames in
  let rpivots :=
    if usePivots then rotatePivotAt <$> frames
    else (fun _ => vzero) <$> frames in
  let rptivots :=
    if usePivots then rotatePivotTranslateAt <$> frames
    else (fun _ => vzero) <$> frames in
  (* phase 2: compose, one independent pass per index; the list below
     is what [composeScheduled] leaves under every schedule *)
  let finalMatrices :=
    zip_with (fun parent piv => composeFrame parent piv.1 piv.2)
             parentMatrices (zip rpivots rptivots) in
  (* phase 3: write back *)
  foldl (fun acc fm => <[fm.1 := fm.2]> acc) cache
        (zip frames finalMatrices).

(** [MotionPath::cacheParentMatrixRange(double, double)]; [openmp]
    tells whether the build defines [_OPENMP]. *)
Definition cacheParentMatrixRange (openmp : bool) (startFrame endFrame : Z)
    (s : MotionPath) : MotionPath :=
  if pMatrixCacheValid s
     && bool_decide (cachedRangeStart s <= startFrame)
     && bool_decide (cachedRangeEnd s >= endFrame)
     && bool_decide (0 < size (pMatrixCache s))%nat
  then s
  else if pMatrixCacheValid s && bool_decide (0 < size (pMatrixCache s))%nat
  then
    (* leading frames: i < cachedRangeStart && i <= endFrame *)
    let s1 := ensureRange startFrame
                (Z.min (cachedRangeStart s - 1) endFrame) s in
    (* trailing frames *)
    let s2 := ensureRange (cachedRangeEnd s + 1) endFrame s1 in
    mkMotionPath (pMatrixCache s2)
      (if bool_decide (startFrame < cachedRangeStart s)
       then startFrame else cachedRangeStart s)
      (if bool_decide (endFrame > cachedRangeEnd s)
       then endFrame else cachedRangeEnd s)
      (pMatrixCacheValid s2)
  else
    (* static_cast<int>(endFrame - startFrame + 1), within int range *)
    let numFrames := endFrame - startFrame + 1 in
    let cache :=
      if openmp && bool_decide (numFrames > 50)
      then rebuildThreePhase startFrame numFrames (pMatrixCache s)
      else pMatrixCache (ensureRange startFrame endFrame s) in
    mkMotionPath cache startFrame endFrame true.

End Scene.

(** The operations on the cache that a draw issues between two clears. *)
Inductive Op : Type :=
| CacheRange (startFrame endFrame : Z)
| EnsureAt (time : Z).

Definition step `{Scene} (openmp : bool) (s : MotionPath) (o : Op)
  : MotionPath :=
  match o with
  | CacheRange a b => cacheParentMatrixRange openmp a b s
  | EnsureAt t => ensureParentAndPivotMatrixAtTime t s
  end.

Definition exec `{Scene} (openmp : bool) (ops : list Op) (s : MotionPath)
  : MotionPath :=
  foldl (step openmp) s ops.

(** The tracked range only grows along every run from [s0]. *)
Definition rangeMonotone `{Scene} (openmp : bool) (s0 : MotionPath) : Prop :=
  forall ops1 ops2 : list Op,
    cachedRangeStart (exec openmp (ops1 ++ ops2) s0)
      <= cachedRangeStart (exec openmp ops1 s0)
    /\ cachedRangeEnd (exec openmp ops1 s0)
      <= cachedRangeEnd (exec openmp (ops1 ++ ops2) s0).

(** The cache is marked valid and holds at least one entry. *)
Definition live (s : MotionPath) : Prop :=
  pMatrixCacheValid s = true /\ (0 < size (pMatrixCache s))%nat.

(** Every frame of the tracked range has an entry. *)
Definition contiguous (s : MotionPath) : Prop :=
  forall t : Z, cachedRangeStart s <= t <= cachedRangeEnd s ->
    is_Some (pMatrixCache s !! t).

(** Every entry is what the scene gives at its frame. *)
Definition coherent `{Scene} (s : MotionPath) : Prop :=
  forall (t : Z) (m : MMatrix),
    pMatrixCache s !! t = Some m -> m = getPMatrixAtTime t.

(** The state in which [cacheParentMatrixRange] rebuilds in full. *)
Definition needsRebuild (s : MotionPath) : Prop :=
  pMatrixCacheValid s = false \/ size (pMatrixCache s) = 0%nat.

(** A scene at rest: identity parent matrix, pivots at the origin. *)
Definition restScene : Scene :=
  mkScene (fun _ => identity) (fun _ => vzero) (fun _ => vzero) false.

End ParentMatrixCache.

(** ** Animation curves, as the plug-in reads and writes them *)

Module AnimCurves.

Local Open Scope R_scope.

(** [Keyframe::Axis] and [Keyframe::Tangent] *)
Inductive Axis : Type := kAxisX | kAxisY | kAxisZ.
Inductive Tangent : Type := kInTangent | kOutTangent.

(** One key of a curve.  A tangent is the pair that [getTangent]
    returns: (angle in radians, weight) on a non-weighted curve, (x, y)
    on a weighted one. *)
Record CurveKey : Type := mkCurveKey {
  keyTime : Z;
  keyValue : R;
  keyInTangent : R * R;
  keyOutTangent : R * R;
  keyTangentsLocked : bool
}.

(** A curve as seen through [MFnAnimCurve]: whether its kind is one of
    the four that [isCurveTypeAnimatable] accepts, whether it is
    weighted, and its keys in index order. *)
Record AnimCurve : Type := mkAnimCurve {
  curveAnimatable : bool;
  curveWeighted : bool;
  curveKeys : list CurveKey
}.

(** The function set of a plug that has no curve. *)
Definition noCurve : AnimCurve := mkAnimCurve false false [].

Definition numKeys (curve : AnimCurve) : nat := length (curveKeys curve).

(** [curve.getTangent(index, a, b, isIn)]; [None] is a failed status. *)
Definition getTangent (curve : AnimCurve) (index : nat) (isIn : bool)
  : option (R * R) :=
  match curveKeys curve !! index with
  | Some k => Some (if isIn then keyInTangent k else keyOutTangent k)
  | None => None
  end.

(** [curve.setTangent(index, a, b, isIn, change)], as far as the
    tangent it names is concerned. *)
Definition setTangent (curve : AnimCurve) (index : nat) (ab : R * R)
    (isIn : bool) : AnimCurve :=
  mkAnimCurve (curveAnimatable curve) (curveWeighted curve)
    (alter (fun k =>
              if isIn
              then mkCurveKey (keyTime k) (keyValue k) ab (keyOutTangent k)
                              (keyTangentsLocked k)
              else mkCurveKey (keyTime k) (keyValue k) (keyInTangent k) ab
                              (keyTangentsLocked k))
           index (curveKeys curve)).

(** [curve.find(time, index)] *)
Definition find (curve : AnimCurve) (time : Z) : option nat :=
  fst <$> list_find (fun k => keyTime k = time) (curveKeys curve).

(** [curve.time(i)]; the default [MTime] when there is no such key. *)
Definition timeAt (curve : AnimCurve) (i : nat) : Z :=
  match curveKeys curve !! i with
  | Some k => keyTime k
  | None => 0%Z
  end.

(** The value that [Keyframe::setTangent] derives from the stored
    tangent of key [keyIndex]. *)
Definition tangentValue (keyIndex : nat) (curve : AnimCurve) (isIn : bool)
  : R :=
  if negb (curveWeighted curve) then
    match getTangent curve keyIndex isIn with
    | None => 0
    | Some (angle, w1) => tan angle * w1
    end
  else
    match getTangent curve keyIndex isIn with
    | None => 0
    | Some (x, y) => y / 3
    end.

(** [MotionPath::setTangentValue]: writes a local tangent value back to
    the key of [curve] at [time].  [uiPerSecond] is one second in the
    time unit of the user interface.  (The source narrows [value] to
    [float]; here it is the real number it was given.) *)
Definition setTangentValue (uiPerSecond : R) (value : R) (curve : AnimCurve)
    (tangentId : Tangent) (time : Z) : AnimCurve :=
  if bool_decide (numKeys curve <= 1)%nat then curve else
  match find curve time with
  | None => curve
  | Some index =>
    let isIn := match tangentId with kInTangent => true | _ => false end in
    let value := if isIn then - value else value in
    if negb (curveWeighted curve) then
      match getTangent curve index isIn with
      | None => curve
      | Some (angle, w) =>
          let newAngle := atan (value * w) in
          setTangent curve index (newAngle, w) isIn
      end
    else
      match getTangent curve index isIn with
      | None => curve
      | Some (x, y) =>
          let x_ui := x * uiPerSecond in
          let newY := value * 3 in
          setTangent curve index (x_ui, newY) isIn
      end
  end.

(** The offset of a tangent handle from its key, as [cacheKeyFrames]
    places it: [-inTangent] for the handle of the in tangent,
    [outTangent] for the other. *)
Definition handleValue (tangentId : Tangent) (value : R) : R :=
  match tangentId with
  | kInTangent => - value
  | kOutTangent => value
  end.

(** Reading the local value of a tangent and writing that value back
    through the tangent-write path. *)
Definition tangentRoundTrip (uiPerSecond : R) (curve : AnimCurve)
    (index : nat) (tangentId : Tangent) : AnimCurve :=
  let isIn := match tangentId with kInTangent => true | _ => false end in
  setTangentValue uiPerSecond
    (handleValue tangentId (tangentValue index curve isIn))
    curve tangentId (timeAt curve index).

(** Key times strictly ascending in index order, as the host keeps
    them. *)
Fixpoint ascending (l : list Z) : bool :=
  match l with
  | a :: (b :: _) as rest => bool_decide (a < b)%Z && ascending rest
  | _ => true
  end.

Definition ascendingKeys (curve : AnimCurve) : bool :=
  ascending (keyTime <$> curveKeys curve).

(** A non-weighted curve with keys at frames 0 and 10; the out tangent
    of the first key has angle pi/4 and weight 2. *)
Definition sampleTangentCurve : AnimCurve :=
  mkAnimCurve true false
    [mkCurveKey 0 0 (0, 1) (PI / 4, 2) true;
     mkCurveKey 10 0 (0, 1) (0, 1) true].

End AnimCurves.

(** ** Composite keyframes (Keyframe.cpp) and their cache *)

Module KeyframeCache.

Import Linear AnimCurves.
Local Open Scope Z_scope.

Record Keyframe : Type := mkKeyframe {
  id : Z;
  time : Z;
  tangentsLocked : bool;
  xKeyId : Z; yKeyId : Z; zKeyId : Z;
  xRotKeyId : Z; yRotKeyId : Z; zRotKeyId : Z;
  showInTangent : bool;
  showOutTangent : bool;
  selectedFromTool : bool;
  inTangent : MVector;
  outTangent : MVector
}.

(** [Keyframe::Keyframe()] *)
Definition newKeyframe : Keyframe :=
  mkKeyframe (-1) 0 true (-1) (-1) (-1) (-1) (-1) (-1) true true false
             vzero vzero.

Definition setAxis (v : MVector) (axisName : Axis) (value : R) : MVector :=
  match axisName with
  | kAxisX => mkVector value (vy v) (vz v)
  | kAxisY => mkVector (vx v) value (vz v)
  | kAxisZ => mkVector (vx v) (vy v) value
  end.

(** [Keyframe::setTangentValue] *)
Definition setTangentValue (value : R) (axisName : Axis)
    (tangentName : Tangent) (k : Keyframe) : Keyframe :=
  let 'mkKeyframe i t l x y z rx ry rz si so sel tin tout := k in
  match tangentName with
  | kInTangent =>
      mkKeyframe i t l x y z rx ry rz si so sel (setAxis tin axisName value) tout
  | kOutTangent =>
      mkKeyframe i t l x y z rx ry rz si so sel tin (setAxis tout axisName value)
  end.

(** [Keyframe::setTangent] *)
Definition setTangent (keyIndex : nat) (curve : AnimCurve) (axisName : Axis)
    (tangentName : Tangent) (k : Keyframe) : Keyframe :=
  let isIn := match tangentName with kInTangent => true | _ => false end in
  setTangentValue (tangentValue keyIndex curve isIn) axisName tangentName k.

(** [Keyframe::setKeyId] *)
Definition setKeyId (keyId : Z) (axisName : Axis) (k : Keyframe) : Keyframe :=
  let 'mkKeyframe i t l x y z rx ry rz si so sel tin tout := k in
  match axisName with
  | kAxisX => mkKeyframe i t l keyId y z rx ry rz si so sel tin tout
  | kAxisY => mkKeyframe i t l x keyId z rx ry rz si so sel tin tout
  | kAxisZ => mkKeyframe i t l x y keyId rx ry rz si so sel tin tout
  end.

(** [Keyframe::setRotKeyId] *)
Definition setRotKeyId (keyId : Z) (axisName : Axis) (k : Keyframe)
  : Keyframe :=
  let 'mkKeyframe i t l x y z rx ry rz si so sel tin tout := k in
  match axisName with
  | kAxisX => mkKeyframe i t l x y z keyId ry rz si so sel tin tout
  | kAxisY => mkKeyframe i t l x y z rx keyId rz si so sel tin tout
  | kAxisZ => mkKeyframe i t l x y z rx ry keyId si so sel tin tout
  end.

Definition rotKeyId (axisName : Axis) (k : Keyframe) : Z :=
  match axisName with
  | kAxisX => xRotKeyId k
  | kAxisY => yRotKeyId k
  | kAxisZ => zRotKeyId k
  end.

Definition setTime (t : Z) (k : Keyframe) : Keyframe :=
  let 'mkKeyframe i _ l x y z rx ry rz si so sel tin tout := k in
  mkKeyframe i t l x y z rx ry rz si so sel tin tout.

Definition setTangentsLocked (b : bool) (k : Keyframe) : Keyframe :=
  let 'mkKeyframe i t _ x y z rx ry rz si so sel tin tout := k in
  mkKeyframe i t b x y z rx ry rz si so sel tin tout.

Definition setShowInTangent (b : bool) (k : Keyframe) : Keyframe :=
  let 'mkKeyframe i t l x y z rx ry rz _ so sel tin tout := k in
  mkKeyframe i t l x y z rx ry rz b so sel tin tout.

Definition setShowOutTangent (b : bool) (k : Keyframe) : Keyframe :=
  let 'mkKeyframe i t l x y z rx ry rz si _ sel tin tout := k in
  mkKeyframe i t l x y z rx ry rz si b sel tin tout.

Definition setId (n : Z) (k : Keyframe) : Keyframe :=
  let 'mkKeyframe _ t l x y z rx ry rz si so sel tin tout := k in
  mkKeyframe n t l x y z rx ry rz si so sel tin tout.

Definition setSelectedFromTool (b : bool) (k : Keyframe) : Keyframe :=
  let 'mkKeyframe i t l x y z rx ry rz si so _ tin tout := k in
  mkKeyframe i t l x y z rx ry rz si so b tin tout.

(** The fields of a track that the build reads, with the settings
    [GlobalSettings::showRotationKeyFrames], whether the draw mode is
    camera space, and whether a camera cache was handed in. *)
Record Track : Type := mkTrack {
  displayStartTime : Z;
  displayEndTime : Z;
  isDrawing : bool;
  endDrawingTime : Z;
  selectedKeyTimes : gset Z;
  showRotationKeyFrames : bool;
  cameraSpace : bool;
  hasCameraCache : bool
}.

(** [keyframesCache[t]]: the record at [t], default-constructed when
    there is none. *)
Definition recordAt (cache : gmap Z Keyframe) (t : Z) : Keyframe :=
  default newKeyframe (cache !! t).

(** The body of the loop of [expandKeyFramesCache] for key [i], inside
    the time window. *)
Definition expandKey (curve : AnimCurve) (axisName : Axis)
    (isTranslate : bool) (i : nat) (keyTimeVal : Z) (keyframe : Keyframe)
  : Keyframe :=
  if isTranslate then
    let k := setTime keyTimeVal keyframe in
    let k := setTangent i curve axisName kInTangent k in
    let k := setTangent i curve axisName kOutTangent k in
    let k := setKeyId (Z.of_nat i) axisName k in
    match curveKeys curve !! i with
    | Some key =>
        if tangentsLocked k then setTangentsLocked (keyTangentsLocked key) k
        else k
    | None => k
    end
  else
    setRotKeyId (Z.of_nat i) axisName (setTime keyTimeVal keyframe).

(** The loop of [expandKeyFramesCache] from key [i] on; [keys] are the
    keys not yet visited. *)
Fixpoint expandLoop (track : Track) (curve : AnimCurve) (axisName : Axis)
    (isTranslate : bool) (endTime : Z) (i : nat) (keys : list CurveKey)
    (cache : gmap Z Keyframe) : gmap Z Keyframe :=
  match keys with
  | [] => cache
  | key :: rest =>
      let keyTimeVal := keyTime key in
      if bool_decide (keyTimeVal >= displayStartTime track) then
        if bool_decide (keyTimeVal <= endTime) then
          expandLoop track curve axisName isTranslate endTime (S i) rest
            (<[keyTimeVal := expandKey curve axisName isTranslate i keyTimeVal
                               (recordAt cache keyTimeVal)]> cache)
        else cache (* break *)
      else
        expandLoop track curve axisName isTranslate endTime (S i) rest cache
  end.

(** The end of the window in which keys are collected: the live-draw
    end marker while drawing, the display end otherwise. *)
Definition boundaryEnd (track : Track) : Z :=
  if isDrawing track then endDrawingTime track else displayEndTime track.

(** [MotionPath::expandKeyFramesCache] *)
Definition expandKeyFramesCache (track : Track) (curve : AnimCurve)
    (axisName : Axis) (isTranslate : bool) (cache : gmap Z Keyframe)
  : gmap Z Keyframe :=
  if bool_decide (numKeys curve = 0%nat) then cache else
  let endTime := boundaryEnd track in
  expandLoop track curve axisName isTranslate endTime 0 (curveKeys curve) cache.

(** [MotionPath::showTangent] *)
Definition showTangent (time : Z) (firstId : Z) (firstTime : Z)
    (secondId : Z) (secondTime : Z) : bool :=
  negb ((bool_decide (firstId = -1) && bool_decide (secondId = -1))
        || (bool_decide (time = firstTime) && bool_decide (time = secondTime))).

Definition inDisplay (track : Track) (t : Z) : bool :=
  bool_decide (t >= displayStartTime track)
  && bool_decide (t <= displayEndTime track).

(** [MotionPath::setShowInOutTangents] *)
Definition setShowInOutTangents (track : Track)
    (curveTX curveTY curveTZ : AnimCurve) (cache : gmap Z Keyframe)
  : gmap Z Keyframe :=
  if bool_decide (numKeys curveTX = 0%nat)
     && bool_decide (numKeys curveTY = 0%nat)
     && bool_decide (numKeys curveTZ = 0%nat)
  then cache else
  let minTimeX := timeAt curveTX 0 in
  let maxTimeX := timeAt curveTX (numKeys curveTX - 1) in
  let minTimeY := timeAt curveTY 0 in
  let maxTimeY := timeAt curveTY (numKeys curveTY - 1) in
  let minTimeZ := timeAt curveTZ 0 in
  let maxTimeZ := timeAt curveTZ (numKeys curveTZ - 1) in
  let upd (isIn : bool) (t : Z) (pick1 pick2 : Keyframe -> Z) (t1 t2 : Z)
          (c : gmap Z Keyframe) :=
    if inDisplay track t then
      let k := recordAt c t in
      let b := showTangent t (pick1 k) t1 (pick2 k) t2 in
      <[t := if isIn then setShowInTangent b k else setShowOutTangent b k]> c
    else c in
  let c := upd true minTimeX yKeyId zKeyId minTimeY minTimeZ cache in
  let c := upd true minTimeY xKeyId zKeyId minTimeX minTimeZ c in
  let c := upd true minTimeZ xKeyId yKeyId minTimeX minTimeY c in
  let c := upd false maxTimeX yKeyId zKeyId maxTimeY maxTimeZ c in
  let c := upd false maxTimeY xKeyId zKeyId maxTimeX maxTimeZ c in
  let c := upd false maxTimeZ xKeyId yKeyId maxTimeX maxTimeY c in
  c.

(** The times of the records in ascending order, as the map iterates. *)
Definition sortedTimes (cache : gmap Z Keyframe) : list Z :=
  merge_sort Z.le (map_to_list cache).*1.

(** The part of the last loop of [cacheKeyFrames] that writes [id],
    [selectedFromTool] and the two visibility flags of one record.
    (The rest of the loop body derives positions in world space.) *)
Definition finishKey (track : Track) (i : Z) (key : Keyframe) : Keyframe :=
  let key := setId i key in
  let key :=
    if bool_decide (time key ∈ selectedKeyTimes track)
    then setSelectedFromTool true key else key in
  if isDrawing track
  then setShowOutTangent false (setShowInTangent false key)
  else key.

(** The last loop of [cacheKeyFrames].  The counter is incremented at
    the end of the body, which a [continue] skips: in camera space
    without a camera cache every record is left early. *)
Definition finishKeys (track : Track) (cache : gmap Z Keyframe)
  : gmap Z Keyframe :=
  (foldl (fun (acc : gmap Z Keyframe * Z) (t : Z) =>
            (alter (finishKey track acc.2) t acc.1,
             if cameraSpace track && negb (hasCameraCache track)
             then acc.2 else acc.2 + 1))
         (cache, 0) (sortedTimes cache)).1.

(** [MotionPath::cacheKeyFrames], for the fields of [Keyframe] above. *)
Definition cacheKeyFrames (track : Track)
    (curveTX curveTY curveTZ curveRX curveRY curveRZ : AnimCurve)
    (cache : gmap Z Keyframe) : gmap Z Keyframe :=
  let expandIf (curve : AnimCurve) (axisName : Axis) (isTranslate : bool)
               (c : gmap Z Keyframe) :=
    if curveAnimatable curve
    then expandKeyFramesCache track curve axisName isTranslate c else c in
  let c := expandIf curveTX kAxisX true cache in
  let c := expandIf curveTY kAxisY true c in
  let c := expandIf curveTZ kAxisZ true c in
  let c :=
    if showRotationKeyFrames track then
      let c := expandIf curveRX kAxisX false c in
      let c := expandIf curveRY kAxisY false c in
      expandIf curveRZ kAxisZ false c
    else c in
  let c := setShowInOutTangents track curveTX curveTY curveTZ c in
  finishKeys track c.

(** The build as [draw] runs it: on the cleared cache. *)
Definition buildKeyframesCache (track : Track)
    (curveTX curveTY curveTZ curveRX curveRY curveRZ : AnimCurve)
  : gmap Z Keyframe :=
  cacheKeyFrames track curveTX curveTY curveTZ curveRX curveRY curveRZ ∅.

(** The rotation curve of an axis. *)
Definition rotationCurve (axisName : Axis) (curveRX curveRY curveRZ : AnimCurve)
  : AnimCurve :=
  match axisName with
  | kAxisX => curveRX
  | kAxisY => curveRY
  | kAxisZ => curveRZ
  end.

(** No translation axis has a key at the time of the record. *)
Definition translationFree (k : Keyframe) : Prop :=
  xKeyId k = -1 /\ yKeyId k = -1 /\ zKeyId k = -1.

(** The record of the rotation key with index [v] on axis [a] at time
    [T], with no translation key. *)
Definition rotationRecord (a : Axis) (v : Z) (T : Z) (k : Keyframe) : Prop :=
  time k = T /\ rotKeyId a k = v /\ translationFree k.

(** Every record is stamped with its time and has no translation key. *)
Definition wellKeyed (cache : gmap Z Keyframe) : Prop :=
  forall t k, cache !! t = Some k -> translationFree k /\ time k = t.

(** A track that shows the frames 0 to 20, with the given setting for
    rotation keys; and a rotation curve with one key at frame 10. *)
Definition sampleTrack (showRotation : bool) : Track :=
  mkTrack 0 20 false 0 ∅ showRotation false false.

Definition sampleRotationCurve : AnimCurve :=
  mkAnimCurve true false [mkCurveKey 10 0%R (0%R, 1%R) (0%R, 1%R) true].

End KeyframeCache.

(** ** Writing keys from world positions (MotionPath.cpp) *)

Module KeyEditing.

Import Linear ParentMatrixCache AnimCurves KeyframeCache.
Local Open Scope Z_scope.




Section Host.

Context `{scene : Scene}.

(** [MMatrix::inverse] and [MotionPath::getPos], both answered by the
    host. *)
Variable inverse : MMatrix -> MMatrix.
Variable getPos : Z -> MVector.


End Host.

End KeyEditing.

(** ** The stroke fitter (MotionPathDrawContext.cpp) *)

Module Stroke.

Import Linear.
Local Open Scope R_scope.

(** *** The values of a [double] that are not real numbers

    Arithmetic on coordinates is exact, except that a division by zero
    gives what IEEE 754 gives: an infinity, or not-a-number for 0/0 and
    0 * infinity.  Every comparison with not-a-number is false. *)
Inductive fval : Type :=
| Finite (r : R)
| PosInf
| NegInf
| NaN.

(** [1. / s], for [s] a sum of squares (so a zero is +0). *)
Definition finv (s : R) : fval :=
  if bool_decide (s = 0) then PosInf else Finite (/ s).

(** [n * v] *)
Definition fmul (n : R) (v : fval) : fval :=
  match v with
  | Finite r => Finite (n * r)
  | PosInf =>
      if bool_decide (n = 0) then NaN
      else if bool_decide (0 < n) then PosInf else NegInf
  | NegInf =>
      if bool_decide (n = 0) then NaN
      else if bool_decide (0 < n) then NegInf else PosInf
  | NaN => NaN
  end.

(** [x / y], for [y] a length (so a zero is +0). *)
Definition fdiv (x y : R) : fval :=
  if bool_decide (y = 0) then
    if bool_decide (x = 0) then NaN
    else if bool_decide (0 < x) then PosInf else NegInf
  else Finite (x / y).

(** [u < v] *)
Definition flt (u v : fval) : bool :=
  match u, v with
  | Finite a, Finite b => bool_decide (a < b)
  | Finite _, PosInf => true
  | NegInf, Finite _ => true
  | NegInf, PosInf => true
  | _, _ => false
  end.

(** [u <= v] *)
Definition fle (u v : fval) : bool :=
  match u, v with
  | Finite a, Finite b => bool_decide (a <= b)
  | Finite _, PosInf => true
  | NegInf, Finite _ => true
  | NegInf, PosInf => true
  | PosInf, PosInf => true
  | NegInf, NegInf => true
  | _, _ => false
  end.

(** [u == 0] *)
Definition fzero (u : fval) : bool :=
  match u with
  | Finite a => bool_decide (a = 0)
  | _ => false
  end.

(** [p1 * t + p0 * (1 - t)]; [None] stands for a vector whose components
    are not numbers. *)
Definition interpolate (p1 p0 : MVector) (t : fval) : option MVector :=
  match t with
  | Finite r => Some (vadd (vscale p1 r) (vscale p0 (1 - r)))
  | _ => None
  end.

(** [strokePoints[i]].  The source does not check the index; a read
    outside the array gives the zero vector here. *)
Definition pointAt (strokePoints : list MVector) (i : nat) : MVector :=
  nth i strokePoints vzero.

(** *** Closest point *)

(** The variables of the loop of [getClosestPointOnPolyLine], and the
    divisors that [1./(...)] has been evaluated at so far. *)
Record ClosestState : Type := mkClosestState {
  cs_b : MVector;
  cs_dbq : MVector;
  cs_dist : fval;
  cs_finalT : fval;
  cs_index : nat;
  cs_divisors : list R
}.

(** One pass of the loop body, for [b = strokePoints[i]]. *)
Definition closestStep (q : MVector) (i : nat) (p : MVector)
    (st : ClosestState) : ClosestState :=
  let a := cs_b st in
  let daq := cs_dbq st in
  let b := p in
  let dbq := vsub b q in
  let dab := vsub a b in
  let sqrlen := vx dab * vx dab + vy dab * vy dab in
  let inv_sqrlen := finv sqrlen in
  let t := fmul (vx dab * vx daq + vy dab * vy daq) inv_sqrlen in
  let divisors := cs_divisors st ++ [sqrlen] in
  if flt t (Finite 0) then
    (* continue *)
    mkClosestState b dbq (cs_dist st) (cs_finalT st) (cs_index st) divisors
  else
    let current_dist :=
      if fle t (Finite 1)
      then fmul ((vx dab * vy dbq - vy dab * vx dbq)
                 * (vx dab * vy dbq - vy dab * vx dbq)) inv_sqrlen
      else Finite (vx dbq * vx dbq + vy dbq * vy dbq) in
    if flt current_dist (cs_dist st) then
      mkClosestState b dbq current_dist
        (if flt (Finite 1) t then Finite 1 else t) i divisors
    else
      mkClosestState b dbq (cs_dist st) (cs_finalT st) (cs_index st) divisors.

(** The loop from index [i] on; [rest] are the points not yet
    visited. *)
Fixpoint closestLoop (q : MVector) (i : nat) (rest : list MVector)
    (st : ClosestState) : ClosestState :=
  match rest with
  | [] => st
  | p :: rest' => closestLoop q (S i) rest' (closestStep q i p st)
  end.

Definition closestRun (q : MVector) (strokePoints : list MVector)
  : ClosestState :=
  let b := pointAt strokePoints 0 in
  let dbq := vsub b q in
  let dist := vx dbq * vx dbq + vy dbq * vy dbq in
  closestLoop q 1 (tail strokePoints)
    (mkClosestState b dbq (Finite dist) (Finite 0) 0 []).

(** [MotionPathDrawContext::getClosestPointOnPolyLine] *)
Definition getClosestPointOnPolyLine (strokePoints : list MVector)
    (q : MVector) : option MVector :=
  let st := closestRun q strokePoints in
  let finalT := cs_finalT st in
  let index := cs_index st in
  if fzero finalT && bool_decide (index = 0%nat)
  then Some (pointAt strokePoints 0)
  else interpolate (pointAt strokePoints index)
                   (pointAt strokePoints (index - 1)) finalT.

(** The divisors of the run. *)
Definition closestDivisors (strokePoints : list MVector) (q : MVector)
  : list R :=
  cs_divisors (closestRun q strokePoints).

(** A point of the polyline: its first point, or a convex combination
    of two consecutive points. *)
Definition onPolyline (strokePoints : list MVector) (p : MVector) : Prop :=
  p = pointAt strokePoints 0
  \/ exists (i : nat) (t : R),
       (1 <= i < length strokePoints)%nat /\ 0 <= t <= 1
       /\ p = vadd (vscale (pointAt strokePoints i) t)
                   (vscale (pointAt strokePoints (i - 1)) (1 - t)).

(** The squared length of a vector on the screen. *)
Definition sq2 (v : MVector) : R := vx v * vx v + vy v * vy v.

(** The squared lengths of the segments of a polyline, in order. *)
Fixpoint segmentSqrLengths (strokePoints : list MVector) : list R :=
  match strokePoints with
  | a :: (b :: _) as rest => sq2 (vsub a b) :: segmentSqrLengths rest
  | _ => []
  end.

(** What holds of the loop variables before the pass for index [n]
    when no segment read so far has length zero: the running minimum
    is a number, and the parameter kept with it is a number between 0
    and 1 for a segment already visited. *)
Definition closestInv (n : nat) (st : ClosestState) : Prop :=
  (exists d, cs_dist st = Finite d)
  /\ ((cs_index st = 0%nat /\ cs_finalT st = Finite 0)
      \/ ((1 <= cs_index st < n)%nat
          /\ exists r, cs_finalT st = Finite r /\ 0 <= r <= 1)).

(** *** Spread *)

(** The search loop of [getSpreadPointOnPolyLine] from segment [j], with
    [n] segments left: the index and the length walked so far.  When no
    segment is found the index stays 0 and the length is the sum. *)
Fixpoint spreadSearch (tl : R) (segmentLenghts : list R) (j n : nat)
    (currentSegmentLenght : R) : nat * R :=
  match n with
  | O => (0%nat, currentSegmentLenght)
  | S n' =>
      let seg := nth j segmentLenghts 0 in
      if bool_decide (tl > currentSegmentLenght)
         && bool_decide (tl < currentSegmentLenght + seg)
      then (j, currentSegmentLenght)
      else spreadSearch tl segmentLenghts (S j) n' (currentSegmentLenght + seg)
  end.

(** [MotionPathDrawContext::getSpreadPointOnPolyLine].  The caller
    passes [pointSize > 0] and a stroke of at least three points.  (The
    source narrows [tl] and [t] to [float]; here they are exact.) *)
Definition getSpreadPointOnPolyLine (strokePoints : list MVector) (i : Z)
    (pointSize : Z) (strokeLenght : R) (segmentLenghts : list R)
  : option MVector :=
  if bool_decide (i = pointSize - 1)%Z then
    if bool_decide (length strokePoints = 0%nat) then Some vzero
    else Some (pointAt strokePoints (length strokePoints - 1))
  else
    let tl := ((IZR i + 1) / IZR pointSize) * strokeLenght in
    let '(currentSegmentIndex, currentSegmentLenght) :=
      spreadSearch tl segmentLenghts 0 (length strokePoints - 1) 0 in
    let t := fdiv (tl - currentSegmentLenght)
                  (nth currentSegmentIndex segmentLenghts 0) in
    interpolate (pointAt strokePoints (currentSegmentIndex + 1))
                (pointAt strokePoints currentSegmentIndex) t.

(** The stroke length and the segment lengths as [doReleaseCommon]
    computes them: [segmentLenghts.resize(strokeNum)], then
    [for (int i = 1; i < strokeNum; ++i)]. *)
Definition strokeLengths (strokePoints : list MVector) : list R * R :=
  let strokeNum := (length strokePoints - 1)%nat in
  foldl (fun (acc : list R * R) (i : nat) =>
           let d := vlength (vsub (pointAt strokePoints i)
                                  (pointAt strokePoints (i - 1))) in
           (<[(i - 1)%nat := d]> acc.1, acc.2 + d))
        (replicate strokeNum 0, 0) (seq 1 (strokeNum - 1)).

(** The length of the polyline. *)
Fixpoint polylineLength (strokePoints : list MVector) : R :=
  match strokePoints with
  | a :: (b :: _) as rest => vlength (vsub b a) + polylineLength rest
  | _ => 0
  end.

(** *** Direction of the stroke and release of the gesture *)

(** What the active view and the selected track answer: the screen
    position of the key at a time ([getkeyScreenPosition]), its world
    position ([getKeyWorldPosition]), the inversion of a screen move
    ([contextUtils::getWorldPositionFromProjPoint]) and the way back
    from camera space ([contextUtils::worldCameraSpaceToWorldSpace],
    [None] when it fails); with the settings [strokeMode] and whether
    the draw mode is camera space. *)
Class View : Type := mkView {
  getkeyScreenPosition : Z -> MVector;
  getKeyWorldPosition : Z -> MVector;
  getWorldPositionFromProjPoint : MVector -> R -> R -> R -> R -> MVector;
  worldCameraSpaceToWorldSpace : MVector -> Z -> option MVector;
  strokeMode : Z;
  cameraSpace : bool
}.

(** [keys[i]]; a read outside the array gives 0 here. *)
Definition keyAt (keys : list Z) (i : Z) : Z :=
  if bool_decide (i < 0)%Z then 0%Z else nth (Z.to_nat i) keys 0%Z.

(** One candidate key of a redistribution. *)
Record StrokeCache : Type := mkStrokeCache {
  originalScreenPosition : MVector;
  originalWorldPosition : MVector;
  time : Z
}.

(** The calls issued on the selected track. *)
Inductive TrackEdit : Type :=
| DeleteKeyFrameAtTime (time : Z)
| AddKeyFrameAtTime (time : Z) (position : option MVector).

(** The two cases in which [getStrokeDirection] answers 0: one dot
    product is exactly zero and the other is negative. *)
Definition ambiguousDots (d : R * R) : Prop :=
  (d.1 = 0 /\ d.2 < 0) \/ (d.2 = 0 /\ d.1 < 0).

Section View.

Context `{view : View}.

(** The two dot products of [getStrokeDirection]. *)
Definition strokeDots (directionalVector : MVector) (keys : list Z)
    (selectedIndex : Z) : R * R :=
  let pos := getkeyScreenPosition (keyAt keys selectedIndex) in
  let pp :=
    if bool_decide (selectedIndex = 0)%Z then vzero
    else vsub (getkeyScreenPosition (keyAt keys (selectedIndex - 1))) pos in
  let ap :=
    if bool_decide (selectedIndex = Z.of_nat (length keys) - 1)%Z then vzero
    else vsub (getkeyScreenPosition (keyAt keys (selectedIndex + 1))) pos in
  let pp := vnormalize pp in
  let ap := vnormalize ap in
  (vdot pp directionalVector, vdot ap directionalVector).

(** [MotionPathDrawContext::getStrokeDirection] *)
Definition getStrokeDirection (directionalVector : MVector) (keys : list Z)
    (selectedIndex : Z) : Z :=
  let '(dot1, dot2) := strokeDots directionalVector keys selectedIndex in
  if bool_decide (dot1 = 0) && bool_decide (dot2 < 0) then 0%Z
  else if bool_decide (dot2 = 0) && bool_decide (dot1 < 0) then 0%Z
  else if bool_decide (dot1 > dot2) then (-1)%Z else 1%Z.

Definition candidate (keys : list Z) (i : Z) : StrokeCache :=
  mkStrokeCache (getkeyScreenPosition (keyAt keys i))
                (getKeyWorldPosition (keyAt keys i)) (keyAt keys i).

(** The walk over the keys in [direction] from index [i].  Inside the
    array the walk ends at the first or last key at the latest; [fuel]
    bounds the passes of a walk that leaves the array. *)
Fixpoint collectLoop (fuel : nat) (keys : list Z) (lastStrokePos : MVector)
    (direction i : Z) (distance : R) (skipped : Z)
    (cache tempCache : list StrokeCache) : list StrokeCache :=
  match fuel with
  | O => cache
  | S fuel' =>
      let pos := getkeyScreenPosition (keyAt keys i) in
      let thisDistance := vlength (vsub lastStrokePos pos) in
      let atBoundary :=
        bool_decide (i = 0)%Z
        || bool_decide (i = Z.of_nat (length keys) - 1)%Z in
      if bool_decide (thisDistance > distance) then
        let skipped := (skipped + 1)%Z in
        if bool_decide (skipped > 5)%Z then cache
        else if atBoundary then cache
        else collectLoop fuel' keys lastStrokePos direction (i + direction)%Z
               distance skipped cache (tempCache ++ [candidate keys i])
      else
        let cache := cache ++ tempCache ++ [candidate keys i] in
        if atBoundary then cache
        else collectLoop fuel' keys lastStrokePos direction (i + direction)%Z
               thisDistance 0%Z cache []
  end.

(** The loop that places each candidate and adds its key back.  A
    failed conversion from camera space ends the gesture there. *)
Fixpoint placeKeys (strokePoints : list MVector) (pointSize : Z)
    (strokeLenght : R) (segmentLenghts : list R) (i : Z)
    (cache : list StrokeCache) : list TrackEdit :=
  match cache with
  | [] => []
  | c :: rest =>
      let screenPosition :=
        if bool_decide (strokeMode = 0)%Z
        then getClosestPointOnPolyLine strokePoints (originalScreenPosition c)
        else getSpreadPointOnPolyLine strokePoints i pointSize strokeLenght
               segmentLenghts in
      let newPosition :=
        (fun sp =>
           getWorldPositionFromProjPoint (originalWorldPosition c)
             (vx (originalScreenPosition c)) (vy (originalScreenPosition c))
             (vx sp) (vy sp)) <$> screenPosition in
      let next :=
        placeKeys strokePoints pointSize strokeLenght segmentLenghts
                  (i + 1)%Z rest in
      if cameraSpace then
        match newPosition with
        | Some worldPos =>
            match worldCameraSpaceToWorldSpace worldPos (time c) with
            | Some worldPos => AddKeyFrameAtTime (time c) (Some worldPos) :: next
            | None => []
            end
        | None => AddKeyFrameAtTime (time c) None :: next
        end
      else AddKeyFrameAtTime (time c) newPosition :: next
  end.

(** The index of [selectedTime] in [keys], or the length of [keys]. *)
Fixpoint indexOfKey (keys : list Z) (selectedTime : Z) : Z :=
  match keys with
  | [] => 0%Z
  | k :: rest =>
      if bool_decide (k = selectedTime) then 0%Z
      else (1 + indexOfKey rest selectedTime)%Z
  end.

(** The net direction of the stroke. *)
Definition strokeDirectionalVector (strokePoints : list MVector) : MVector :=
  let strokeNum := (length strokePoints - 1)%nat in
  let sum :=
    foldl (fun acc i =>
             vadd acc (vsub (pointAt strokePoints i) (pointAt strokePoints 0)))
          vzero (seq 1 strokeNum) in
  vnormalize (vscale sum (/ INR strokeNum)).

(** [MotionPathDrawContext::doReleaseCommon] in stroke mode, with a
    selected track: the calls it issues on the track, in order. *)
Definition doReleaseCommon (strokePoints : list MVector) (keys : list Z)
    (selectedTime : Z) : list TrackEdit :=
  let strokeNum := (length strokePoints - 1)%nat in
  if bool_decide (1 < Z.of_nat (length strokePoints) - 1)%Z then
    let directionalVector := strokeDirectionalVector strokePoints in
    let selectedIndex := indexOfKey keys selectedTime in
    let direction := getStrokeDirection directionalVector keys selectedIndex in
    if bool_decide (direction <> 0)%Z then
      let lastStrokePos := pointAt strokePoints strokeNum in
      let distance :=
        vlength (vsub lastStrokePos
                      (getkeyScreenPosition (keyAt keys selectedIndex))) in
      let cache :=
        collectLoop (length keys) keys lastStrokePos direction
                    (selectedIndex + direction)%Z distance 0%Z [] [] in
      let pointSize := Z.of_nat (length cache) in
      if bool_decide (pointSize > 0)%Z then
        let deletes := (fun c => DeleteKeyFrameAtTime (time c)) <$> rev cache in
        let '(segmentLenghts, strokeLenght) := strokeLengths strokePoints in
        deletes ++ placeKeys strokePoints pointSize strokeLenght
                     segmentLenghts 0%Z cache
      else []
    else []
  else [].

End View.

(** A stroke of four points, 10 apart, on a horizontal line. *)
Definition straightStroke : list MVector :=
  [mkVector 0 0 0; mkVector 10 0 0; mkVector 20 0 0; mkVector 30 0 0].

(** A view in which the keys at frames 0, 10 and 20 sit at (3, 0),
    (0, 0) and (2, 0) on the screen, and a stroke that runs to the left
    and ends at (1, 0). *)
Definition sampleView : View :=
  mkView (fun t => if bool_decide (t = 0)%Z then mkVector 3 0 0
                   else if bool_decide (t = 10)%Z then mkVector 0 0 0
                   else mkVector 2 0 0)
         (fun _ => vzero)
         (fun w _ _ x y => mkVector x y 0)
         (fun w _ => Some w)
         1 false.

Definition sampleKeys : list Z := [0; 10; 20]%Z.

Definition leftStroke : list MVector :=
  [mkVector 0 0 0; mkVector (-30) 0 0; mkVector 1 0 0].

End Stroke.

(** ** The request around the current frame (MotionPath.cpp) *)

Module CurrentRange.

Import Linear ParentMatrixCache.
Local Open Scope R_scope.

(** [GlobalSettings]: the frames shown behind and ahead of the current
    frame, and the time range of the scene.  The four are [double]s
    and, like the current frame of the host, need not be whole frames:
    they are real numbers here. *)
Record GlobalSettings : Type := mkGlobalSettings {
  framesBack : R;
  framesFront : R;
  startTime : R;
  endTime : R
}.

(** [MotionPath::cacheParentMatrixRange()], the overload without
    arguments: the request [(startFrame, endFrame)] that it derives
    from the current frame and hands to
    [cacheParentMatrixRange(startFrame, endFrame)]. *)
Definition currentRequest (g : GlobalSettings) (currentFrame : R) : R * R :=
  let startFrame := currentFrame - framesBack g in
  let endFrame := currentFrame + framesFront g in
  let startFrame :=
    if bool_decide (startFrame < startTime g) then startTime g
    else startFrame in
  let endFrame :=
    if bool_decide (endFrame > endTime g) then endTime g else endFrame in
  (startFrame, endFrame).

(** Settings that show 5 frames behind and 5 ahead in a scene of the
    frames 1 to 100. *)
Definition sampleSettings : GlobalSettings := mkGlobalSettings 5 5 1 100.

End CurrentRange.

(** ** Removing keys, time ranges and clipboard helpers (MotionPath.cpp) *)

Module CurveEditing.

Import Linear AnimCurves.
Local Open Scope Z_scope.

(** [curve.remove(index, change)]; with no key at [index] the call fails
    and the curve stays as it is. *)
Definition remove (curve : AnimCurve) (index : nat) : AnimCurve :=
  mkAnimCurve (curveAnimatable curve) (curveWeighted curve)
              (delete index (curveKeys curve)).

(** The loop [for (int i = n - 1; i >= 0; --i)] that removes key [i]
    when its time is [doomed]. *)
Fixpoint removeDownFrom (doomed : Z -> bool) (n : nat) (curve : AnimCurve)
  : AnimCurve :=
  match n with
  | O => curve
  | S i =>
      removeDownFrom doomed i
        (if doomed (timeAt curve i) then remove curve i else curve)
  end.

(** [MotionPath::deleteKeyFramesAfterTime] *)
Definition deleteKeyFramesAfterTime (time : Z) (curve : AnimCurve)
  : AnimCurve :=
  removeDownFrom (fun t => bool_decide (t > time)) (numKeys curve) curve.

(** [MotionPath::deleteKeyFramesBetweenTimes] *)
Definition deleteKeyFramesBetweenTimes (startTime endTime : Z)
    (curve : AnimCurve) : AnimCurve :=
  removeDownFrom
    (fun t => bool_decide (t > startTime) && bool_decide (t <= endTime))
    (numKeys curve) curve.

(** The six curves of a track: translation and rotation. *)
Record TrackCurves : Type := mkTrackCurves {
  curveX : AnimCurve; curveY : AnimCurve; curveZ : AnimCurve;
  curveRX : AnimCurve; curveRY : AnimCurve; curveRZ : AnimCurve
}.

(** The same call on each of the six curves. *)
Definition onAllCurves (f : AnimCurve -> AnimCurve) (c : TrackCurves)
  : TrackCurves :=
  mkTrackCurves (f (curveX c)) (f (curveY c)) (f (curveZ c))
                (f (curveRX c)) (f (curveRY c)) (f (curveRZ c)).

(** [MotionPath::deleteAllKeyFramesAfterTime] *)
Definition deleteAllKeyFramesAfterTime (time : Z) (c : TrackCurves)
  : TrackCurves :=
  onAllCurves (deleteKeyFramesAfterTime time) c.

(** [MotionPath::deleteAllKeyFramesInRange] *)
Definition deleteAllKeyFramesInRange (startTime endTime : Z) (c : TrackCurves)
  : TrackCurves :=
  onAllCurves (deleteKeyFramesBetweenTimes startTime endTime) c.

(** The six curves in the order x, y, z, then the rotations. *)
Definition allCurves (c : TrackCurves) : list AnimCurve :=
  [curveX c; curveY c; curveZ c; curveRX c; curveRY c; curveRZ c].

(** The range of [int]. *)
Definition inIntRange (t : Z) : Prop := - 2 ^ 31 <= t < 2 ^ 31.

(** [static_cast<int>(t)] for a time [t] that is a whole frame: the
    frame itself inside the range of [int].  Outside that range the
    conversion is undefined; the value taken here, the least [int], is
    what the conversion instruction of the usual hardware gives. *)
Definition toInt (t : Z) : Z :=
  if bool_decide (- 2 ^ 31 <= t < 2 ^ 31) then t else - 2 ^ 31.

(** [MotionPath::getMinTime] *)
Definition getMinTime (curveX curveY curveZ : AnimCurve) : Z :=
  let minTimeX := timeAt curveX 0 in
  let minTimeY := timeAt curveY 0 in
  let minTimeZ := timeAt curveZ 0 in
  if bool_decide (minTimeX < minTimeY) && bool_decide (minTimeX < minTimeZ)
  then toInt minTimeX
  else if bool_decide (minTimeY < minTimeZ) then toInt minTimeY
  else toInt minTimeZ.

(** [MotionPath::getMaxTime] *)
Definition getMaxTime (curveX curveY curveZ : AnimCurve) : Z :=
  let maxTimeX := timeAt curveX (numKeys curveX - 1) in
  let maxTimeY := timeAt curveY (numKeys curveY - 1) in
  let maxTimeZ := timeAt curveZ (numKeys curveZ - 1) in
  if bool_decide (maxTimeX > maxTimeY) && bool_decide (maxTimeX > maxTimeZ)
  then toInt maxTimeX
  else if bool_decide (maxTimeY > maxTimeZ) then toInt maxTimeY
  else toInt maxTimeZ.

(** A curve whose key times ascend and lie inside the range of [int]. *)
Definition plainTimes (curve : AnimCurve) : Prop :=
  ascendingKeys curve = true
  /\ Forall (fun key => inIntRange (keyTime key)) (curveKeys curve).

(** The range of the keys as [setDisplayTimeRange] takes it: that of
    the translation curves when each of them has a key, the time range
    of the track otherwise.  (A plug without a curve is [noCurve], which
    has no key.) *)
Definition actualRange (startTime endTime : Z)
    (curveX curveY curveZ : AnimCurve) : Z * Z :=
  if bool_decide (0 < numKeys curveX)%nat
     && bool_decide (0 < numKeys curveY)%nat
     && bool_decide (0 < numKeys curveZ)%nat
  then (getMinTime curveX curveY curveZ, getMaxTime curveX curveY curveZ)
  else (startTime, endTime).

(** [MotionPath::setDisplayTimeRange]: the new [displayStartTime] and
    [displayEndTime]. *)
Definition setDisplayTimeRange (startTime endTime : Z)
    (curveX curveY curveZ : AnimCurve) (start end_ : Z) : Z * Z :=
  let '(actualMinFrame, actualMaxFrame) :=
    actualRange startTime endTime curveX curveY curveZ in
  let start :=
    if bool_decide (start > actualMaxFrame) then actualMaxFrame else start in
  let end_ :=
    if bool_decide (end_ < actualMinFrame) then actualMinFrame else end_ in
  let '(start, end_) :=
    if bool_decide (start > end_) then (end_, start) else (start, end_) in
  (Z.max start actualMinFrame, Z.min end_ actualMaxFrame).

(** [static_cast<unsigned int>(keyID)] *)
Definition asUnsigned (keyID : Z) : nat := Z.to_nat (keyID mod 2 ^ 32).

(** [isCurveBoundaryKey].  ([find] succeeds only on a curve that has a
    key, so the unsigned [numKeys() - 1] does not wrap.) *)
Definition isCurveBoundaryKey (curve : AnimCurve) (time : Z) : bool :=
  match find curve time with
  | None => false
  | Some keyID =>
      bool_decide (keyID = 0%nat)
      || bool_decide (keyID = (numKeys curve - 1)%nat)
  end.

(** [cleanExtraKeysForClipboard]; [keys] is the [MIntArray] of the
    indices to remove. *)
Definition cleanExtraKeysForClipboard (curve : AnimCurve) (keys : list Z)
  : AnimCurve :=
  let size := length keys in
  let key (i : nat) := nth i keys 0 in
  if bool_decide (0 < size)%nat && bool_decide (size < 3)%nat then
    if bool_decide (size = 1%nat) then remove curve (asUnsigned (key 0%nat))
    else if bool_decide (key 1%nat > key 0%nat) then
      remove (remove curve (asUnsigned (key 1%nat))) (asUnsigned (key 0%nat))
    else
      remove (remove curve (asUnsigned (key 0%nat))) (asUnsigned (key 1%nat))
  else curve.

(** The keys of the six curves, curve by curve. *)
Definition keysOfAll (c : TrackCurves) : list (list CurveKey) :=
  curveKeys <$> allCurves c.

(** A weighted curve with keys at frames 0, 10 and 20. *)
Definition sampleWeightedCurve : AnimCurve :=
  mkAnimCurve true true
    [mkCurveKey 0 1%R (1%R, 3%R) (1%R, 6%R) true;
     mkCurveKey 10 2%R (1%R, 0%R) (1%R, 0%R) true;
     mkCurveKey 20 3%R (1%R, 0%R) (1%R, 0%R) true].

(** The time of the key at an index, if there is one. *)
Definition keyTimeAt (curve : AnimCurve) (i : nat) : option Z :=
  keyTime <$> curveKeys curve !! i.

End CurveEditing.

(** ** Queries on the keyframe cache and on its records
       (MotionPath.cpp, Keyframe.cpp) *)

Module KeyQueries.

Import Linear AnimCurves KeyframeCache.
Local Open Scope Z_scope.

(** The translation key id of an axis. *)
Definition keyId (axisName : Axis) (k : Keyframe) : Z :=
  match axisName with
  | kAxisX => xKeyId k
  | kAxisY => yKeyId k
  | kAxisZ => zKeyId k
  end.

(** [Keyframe::hasTranslationXYZ] *)
Definition hasTranslationXYZ (k : Keyframe) : bool :=
  bool_decide (xKeyId k <> -1) && bool_decide (yKeyId k <> -1)
  && bool_decide (zKeyId k <> -1).

(** [Keyframe::hasRotationXYZ] *)
Definition hasRotationXYZ (k : Keyframe) : bool :=
  bool_decide (xRotKeyId k <> -1) && bool_decide (yRotKeyId k <> -1)
  && bool_decide (zRotKeyId k <> -1).

(** [Keyframe::getKeyTranslateAxis]; the axes are pushed onto the back
    of [axis]. *)
Definition getKeyTranslateAxis (k : Keyframe) (axis : list Axis) : list Axis :=
  let axis := if bool_decide (xKeyId k <> -1) then axis ++ [kAxisX] else axis in
  let axis := if bool_decide (yKeyId k <> -1) then axis ++ [kAxisY] else axis in
  if bool_decide (zKeyId k <> -1) then axis ++ [kAxisZ] else axis.

(** [Keyframe::getKeyRotateAxis] *)
Definition getKeyRotateAxis (k : Keyframe) (axis : list Axis) : list Axis :=
  let axis :=
    if bool_decide (xRotKeyId k <> -1) then axis ++ [kAxisX] else axis in
  let axis :=
    if bool_decide (yRotKeyId k <> -1) then axis ++ [kAxisY] else axis in
  if bool_decide (zRotKeyId k <> -1) then axis ++ [kAxisZ] else axis.

(** The records of the cache in the order in which the map iterates:
    by ascending time. *)
Definition records (cache : gmap Z Keyframe) : list Keyframe :=
  recordAt cache <$> sortedTimes cache.

(** [MotionPath::getTimeFromKeyId] *)
Definition getTimeFromKeyId (cache : gmap Z Keyframe) (id_ : Z) : Z :=
  match list_find (fun key => id key = id_) (records cache) with
  | Some (_, key) => time key
  | None => 0
  end.

(** [MotionPath::getNumKeyFrames] *)
Definition getNumKeyFrames (cache : gmap Z Keyframe) : nat := size cache.

(** One pass of the loop of [getBoundariesForTime]; [None] stands for a
    boundary not found yet ([minFound], [maxFound]). *)
Definition boundaryStep (time_ : Z) (acc : option Z * option Z)
    (key : Keyframe) : option Z * option Z :=
  if bool_decide (time key = time_) then acc else
  let min :=
    if bool_decide (time_ - time key > 0)
       && match acc.1 with
          | None => true
          | Some min => bool_decide (time key > min)
          end
    then Some (time key) else acc.1 in
  let max :=
    if bool_decide (time key - time_ > 0)
       && match acc.2 with
          | None => true
          | Some max => bool_decide (time key < max)
          end
    then Some (time key) else acc.2 in
  (min, max).

(** [MotionPath::getBoundariesForTime]; [minBoundary] and [maxBoundary]
    come in with the caller's values and go out with the new ones. *)
Definition getBoundariesForTime (cache : gmap Z Keyframe) (time_ : Z)
    (minBoundary maxBoundary : Z) : Z * Z :=
  let '(min, max) := foldl (boundaryStep time_) (None, None) (records cache) in
  (default minBoundary min, default maxBoundary max).

(** [MotionPath::getKeys]: the times are collected in the order of the
    map and sorted. *)
Definition getKeys (cache : gmap Z Keyframe) : list Z :=
  let times := sortedTimes cache in
  merge_sort Z.le times.

(** [MotionPath::getSelectedKeys] *)
Definition getSelectedKeys (selectedKeyTimes : gset Z) : list Z :=
  if bool_decide (size selectedKeyTimes = 0%nat) then []
  else merge_sort Z.le (elements selectedKeyTimes).

(** The records of a track with the set of the selected times. *)
Definition Selection : Type := gmap Z Keyframe * gset Z.

(** [MotionPath::selectAllKeys] *)
Definition selectAllKeys (st : Selection) : Selection :=
  foldl (fun (acc : Selection) (t : Z) =>
           let key := setSelectedFromTool true (recordAt acc.1 t) in
           (<[t := key]> acc.1, {[time key]} ∪ acc.2))
        st (sortedTimes st.1).

(** [MotionPath::invertKeysSelection] *)
Definition invertKeysSelection (st : Selection) : Selection :=
  foldl (fun (acc : Selection) (t : Z) =>
           let key := recordAt acc.1 t in
           let key := setSelectedFromTool (negb (selectedFromTool key)) key in
           (<[t := key]> acc.1,
            if selectedFromTool key then {[time key]} ∪ acc.2 else acc.2))
        (st.1, ∅) (sortedTimes st.1).

(** Some record of the cache holds the time [u]. *)
Definition recordTime (cache : gmap Z Keyframe) (u : Z) : Prop :=
  exists t k, cache !! t = Some k /\ time k = u.

(** What holds of the two boundaries after the records with the times
    [seen] have been visited: each is the nearest of those times on its
    side of [time_], or not found when there is none on that side. *)
Definition boundsInv (time_ : Z) (seen : list Z) (acc : option Z * option Z)
  : Prop :=
  match acc.1 with
  | None => forall u, u ∈ seen -> ~ u < time_
  | Some min =>
      min ∈ seen /\ min < time_ /\ forall u, u ∈ seen -> u < time_ -> u <= min
  end
  /\ match acc.2 with
     | None => forall u, u ∈ seen -> ~ time_ < u
     | Some max =>
         max ∈ seen /\ time_ < max
         /\ forall u, u ∈ seen -> time_ < u -> max <= u
     end.

(** The record at [T] holds the key id [v] for the translation axis
    [a] and is stamped with [T]. *)
Definition holdsKey (a : Axis) (v : Z) (T : Z) (c : gmap Z Keyframe) : Prop :=
  exists k, c !! T = Some k /\ keyId a k = v /\ time k = T.

(** The translation curve of an axis. *)
Definition translationCurve (axisName : Axis) (curveTX curveTY curveTZ : AnimCurve)
  : AnimCurve :=
  match axisName with
  | kAxisX => curveTX
  | kAxisY => curveTY
  | kAxisZ => curveTZ
  end.

(** Every record is stamped with the time it is stored at. *)
Definition stamped (cache : gmap Z Keyframe) : Prop :=
  forall t k, cache !! t = Some k -> time k = t.

(** A record with the given time, id and selection flag. *)
Definition sampleRecord (t i : Z) (sel : bool) : Keyframe :=
  setSelectedFromTool sel (setId i (setTime t newKeyframe)).

(** A cache with records at the frames 5, 10 and 20. *)
Definition sampleCache : gmap Z Keyframe :=
  <[5 := sampleRecord 5 0 false]>
    (<[10 := sampleRecord 10 1 true]>
       (<[20 := sampleRecord 20 2 false]> ∅)).

End KeyQueries.

(** ** World positions of a track (MotionPath.cpp) *)

Module WorldPositions.

Import Linear ParentMatrixCache AnimCurves KeyframeCache KeyEditing KeyQueries.
Local Open Scope Z_scope.


Section Host.

Context `{scene : Scene}.

Variable inverse : MMatrix -> MMatrix.
Variable getPos : Z -> MVector.



End Host.

End WorldPositions.

(** ** Collecting a stroke and releasing a draw gesture
       (MotionPathDrawContext.cpp) *)

Module Gesture.

Import Linear Stroke.
Local Open Scope R_scope.

(** [MVector(x, y, 0)] for the pixel that an event reports. *)
Definition pixel (xy : Z * Z) : MVector := mkVector (IZR xy.1) (IZR xy.2) 0.

(** The sampling of [doDrag] and [doDragCommon]: the point [v] of a
    drag event is appended when it lies more than 8 pixels from the
    last point of the stroke. *)
Definition appendSample (strokePoints : list MVector) (v : MVector)
  : list MVector :=
  if bool_decide (0 < length strokePoints)%nat then
    let distance :=
      vlength (vsub v (pointAt strokePoints (length strokePoints - 1))) in
    let threshold := 8 in
    if bool_decide (distance > threshold) then strokePoints ++ [v]
    else strokePoints
  else strokePoints ++ [v].

(** The stroke of a gesture: [doPress] clears the stroke and appends the
    pixel of the press, each drag event samples its pixel. *)
Definition strokeOfGesture (press : Z * Z) (drags : list (Z * Z))
  : list MVector :=
  foldl (fun strokePoints xy => appendSample strokePoints (pixel xy))
        [pixel press] drags.

(** The index of the stroke point that the draw mode takes for key [i]
    of [keyframeCount]; the division is that of two whole numbers that
    the source carries out on [double] and cuts to [int]. *)
Definition samplePointIndex (i totalPoints keyframeCount : Z) : Z :=
  let pointIndex := ((i + 1) * (totalPoints - 1) ÷ (keyframeCount + 1))%Z in
  let pointIndex :=
    if bool_decide (pointIndex >= totalPoints)%Z then (totalPoints - 1)%Z
    else pointIndex in
  if bool_decide (pointIndex < 1)%Z then 1%Z else pointIndex.

(** The product of two [int]s.  Outside the range of [int] the product
    is undefined; the value taken here is the one that the hardware
    gives, the product reduced modulo 2^32 into that range. *)
Definition intMul (a b : Z) : Z :=
  ((a * b + 2 ^ 31) mod 2 ^ 32 - 2 ^ 31)%Z.

(** The calls that the release of a draw gesture issues on the selected
    track. *)
Inductive DrawEdit : Type :=
| DeleteAllKeyFramesInRange (startTime endTime : Z)
| AddKeyFrame (time : Z) (position : MVector)
| SetEndrawingTime (time : Z).

(** The time of the key that an edit adds. *)
Definition addedTime (e : DrawEdit) : option Z :=
  match e with
  | AddKeyFrame t _ => Some t
  | _ => None
  end.

Section View.

Context `{view : View}.

(** One pass of the loop that adds the keys of a draw gesture; a
    failed conversion from camera space skips the key. *)
Definition drawKey (strokePoints : list MVector) (selectedTime : Z)
    (keyframeCount frameInterval : Z) (keyWorldPosition : MVector)
    (initialX initialY : R) (i : Z) : list DrawEdit :=
  let totalPoints := Z.of_nat (length strokePoints) in
  let pointIndex := samplePointIndex i totalPoints keyframeCount in
  let screenPos := pointAt strokePoints (Z.to_nat pointIndex) in
  let keyTime := (selectedTime + intMul (i + 1) frameInterval)%Z in
  let worldPos :=
    getWorldPositionFromProjPoint keyWorldPosition initialX initialY
                                  (vx screenPos) (vy screenPos) in
  if cameraSpace then
    match worldCameraSpaceToWorldSpace worldPos keyTime with
    | None => []
    | Some worldPos => [AddKeyFrame keyTime worldPos]
    end
  else [AddKeyFrame keyTime worldPos].

(** [MotionPathDrawContext::doReleaseCommon] in draw mode, with a
    selected track: the calls it issues on the track, in order. *)
Definition releaseDraw (strokePoints : list MVector) (selectedTime : Z)
    (keyframeCount frameInterval : Z) (keyWorldPosition : MVector)
    (initialX initialY : R) : list DrawEdit :=
  if bool_decide (1 < length strokePoints)%nat then
    let frameInterval :=
      if bool_decide (frameInterval <= 0)%Z then 1%Z else frameInterval in
    let totalPoints := Z.of_nat (length strokePoints) in
    if bool_decide (totalPoints < 2)%Z then []
    else
      let rangeEnd := (selectedTime + intMul keyframeCount frameInterval)%Z in
      [DeleteAllKeyFramesInRange selectedTime rangeEnd]
      ++ mjoin ((drawKey strokePoints selectedTime keyframeCount
                         frameInterval keyWorldPosition initialX initialY)
                  <$> seqZ 0 keyframeCount)
      ++ [SetEndrawingTime rangeEnd]
  else [].

End View.

(** [MotionPathDrawContext::calculatePathLength] *)
Definition calculatePathLength (points : list MVector) : R :=
  foldl (fun length i =>
           length + vlength (vsub (pointAt points i) (pointAt points (i - 1))))
        0 (seq 1 (length points - 1)).

(** The loop of [samplePointOnPath] from segment [i], with [n] passes
    left. *)
Fixpoint sampleLoop (points : list MVector) (targetLength : R) (i n : nat)
    (currentLength : R) : option MVector :=
  match n with
  | O => Some (pointAt points (length points - 1))
  | S n' =>
      let segmentLength :=
        vlength (vsub (pointAt points i) (pointAt points (i - 1))) in
      if bool_decide (currentLength + segmentLength >= targetLength) then
        match fdiv (targetLength - currentLength) segmentLength with
        | Finite localT =>
            Some (vadd (vscale (pointAt points (i - 1)) (1 - localT))
                       (vscale (pointAt points i) localT))
        | _ => None
        end
      else sampleLoop points targetLength (S i) n'
             (currentLength + segmentLength)
  end.

(** [MotionPathDrawContext::samplePointOnPath]; [None] stands for a
    vector whose components are not numbers. *)
Definition samplePointOnPath (t : R) (points : list MVector) (totalLength : R)
  : option MVector :=
  if bool_decide (length points = 0%nat) then Some vzero
  else if bool_decide (t <= 0) || bool_decide (length points = 1%nat)
  then Some (pointAt points 0)
  else if bool_decide (t >= 1)
  then Some (pointAt points (length points - 1))
  else sampleLoop points (t * totalLength) 1 (length points - 1) 0.

(** Consecutive points of a stroke are more than 8 pixels apart on the
    screen. *)
Fixpoint spaced (strokePoints : list MVector) : Prop :=
  match strokePoints with
  | a :: (b :: _) as rest => 64 < sq2 (vsub a b) /\ spaced rest
  | _ => True
  end.

(** A stroke of the pixels (0, 0), (20, 0) and (40, 0). *)
Definition sampleDrawStroke : list MVector :=
  strokeOfGesture (0, 0)%Z [(20, 0)%Z; (40, 0)%Z].

End Gesture.

(** ** The stroke fitter of the edit context (MotionPathEditContext.cpp) *)

Module EditStroke.

Import Linear Stroke.
Local Open Scope R_scope.

(** The two thresholds of the edit context: [1e-10] for a squared
    segment length, [1e-6] for a segment length. *)
Definition minSqrLength : R := / 10000000000.
Definition minLength : R := / 1000000.

(** One pass of the loop body of
    [MotionPathEditContext::getClosestPointOnPolyLine], for
    [b = drawStrokePoints[i]]. *)
Definition closestStep (q : MVector) (i : nat) (p : MVector)
    (st : ClosestState) : ClosestState :=
  let a := cs_b st in
  let daq := cs_dbq st in
  let b := p in
  let dbq := vsub b q in
  let dab := vsub a b in
  let sqrlen := vx dab * vx dab + vy dab * vy dab in
  if bool_decide (sqrlen < minSqrLength) then
    (* continue *)
    mkClosestState b dbq (cs_dist st) (cs_finalT st) (cs_index st)
                   (cs_divisors st)
  else
    let inv_sqrlen := finv sqrlen in
    let t := fmul (vx dab * vx daq + vy dab * vy daq) inv_sqrlen in
    let divisors := cs_divisors st ++ [sqrlen] in
    if flt t (Finite 0) then
      (* continue *)
      mkClosestState b dbq (cs_dist st) (cs_finalT st) (cs_index st) divisors
    else
      let current_dist :=
        if fle t (Finite 1)
        then fmul ((vx dab * vy dbq - vy dab * vx dbq)
                   * (vx dab * vy dbq - vy dab * vx dbq)) inv_sqrlen
        else Finite (vx dbq * vx dbq + vy dbq * vy dbq) in
      if flt current_dist (cs_dist st) then
        mkClosestState b dbq current_dist
          (if flt (Finite 1) t then Finite 1 else t) i divisors
      else
        mkClosestState b dbq (cs_dist st) (cs_finalT st) (cs_index st)
                       divisors.

Fixpoint closestLoop (q : MVector) (i : nat) (rest : list MVector)
    (st : ClosestState) : ClosestState :=
  match rest with
  | [] => st
  | p :: rest' => closestLoop q (S i) rest' (closestStep q i p st)
  end.

Definition closestRun (q : MVector) (drawStrokePoints : list MVector)
  : ClosestState :=
  let b := pointAt drawStrokePoints 0 in
  let dbq := vsub b q in
  let dist := vx dbq * vx dbq + vy dbq * vy dbq in
  closestLoop q 1 (tail drawStrokePoints)
    (mkClosestState b dbq (Finite dist) (Finite 0) 0 []).

(** [MotionPathEditContext::getClosestPointOnPolyLine] *)
Definition getClosestPointOnPolyLine (drawStrokePoints : list MVector)
    (q : MVector) : option MVector :=
  let st := closestRun q drawStrokePoints in
  let finalT := cs_finalT st in
  let index := cs_index st in
  if fzero finalT && bool_decide (index = 0%nat)
  then Some (pointAt drawStrokePoints 0)
  else interpolate (pointAt drawStrokePoints index)
                   (pointAt drawStrokePoints (index - 1)) finalT.

(** The divisors of the run. *)
Definition closestDivisors (drawStrokePoints : list MVector) (q : MVector)
  : list R :=
  cs_divisors (closestRun q drawStrokePoints).

(** What holds of the loop variables before the pass for index [n]:
    the running minimum is a number, and the parameter kept with it is
    a number between 0 and 1 for a segment already visited. *)
Definition closestInv (n : nat) (st : ClosestState) : Prop :=
  (exists d, cs_dist st = Finite d)
  /\ ((cs_index st = 0%nat /\ cs_finalT st = Finite 0)
      \/ ((1 <= cs_index st < n)%nat
          /\ exists r, cs_finalT st = Finite r /\ 0 <= r <= 1)).

(** [u - x] and [u / y], for [y] a length (so a zero is +0). *)
Definition fsub (u : fval) (x : R) : fval :=
  match u with
  | Finite r => Finite (r - x)
  | _ => u
  end.

Definition fquot (u : fval) (y : R) : fval :=
  match u with
  | Finite r => fdiv r y
  | PosInf => if bool_decide (0 <= y) then PosInf else NegInf
  | NegInf => if bool_decide (0 <= y) then NegInf else PosInf
  | NaN => NaN
  end.

(** The search loop of [MotionPathEditContext::getSpreadPointOnPolyLine]
    from segment [j], with [n] segments left: the index found, if any,
    and the length walked so far. *)
Fixpoint spreadSearch (tl : fval) (segmentLenghts : list R) (j n : nat)
    (currentSegmentLenght : R) : option nat * R :=
  match n with
  | O => (None, currentSegmentLenght)
  | S n' =>
      let seg := nth j segmentLenghts 0 in
      if flt (Finite currentSegmentLenght) tl
         && flt tl (Finite (currentSegmentLenght + seg))
      then (Some j, currentSegmentLenght)
      else spreadSearch tl segmentLenghts (S j) n' (currentSegmentLenght + seg)
  end.

(** [MotionPathEditContext::getSpreadPointOnPolyLine].  With
    [pointSize] zero, [tl] is an infinity or not a number.  (The source
    narrows [tl] and [t] to [float]; here they are not rounded.) *)
Definition getSpreadPointOnPolyLine (drawStrokePoints : list MVector) (i : Z)
    (pointSize : Z) (strokeLenght : R) (segmentLenghts : list R)
  : option MVector :=
  if bool_decide (i = pointSize - 1)%Z then
    if bool_decide (length drawStrokePoints = 0%nat) then Some vzero
    else Some (pointAt drawStrokePoints (length drawStrokePoints - 1))
  else
    let tl := fmul strokeLenght (fdiv (IZR i + 1) (IZR pointSize)) in
    let '(found, currentSegmentLenght) :=
      spreadSearch tl segmentLenghts 0 (length drawStrokePoints - 1) 0 in
    let currentSegmentIndex :=
      match found with
      | Some j => j
      | None =>
          if bool_decide (2 <= length drawStrokePoints)%nat
          then (length drawStrokePoints - 2)%nat else 0%nat
      end in
    if bool_decide (nth currentSegmentIndex segmentLenghts 0 < minLength)
    then Some (pointAt drawStrokePoints currentSegmentIndex)
    else
      let t := fquot (fsub tl currentSegmentLenght)
                     (nth currentSegmentIndex segmentLenghts 0) in
      interpolate (pointAt drawStrokePoints (currentSegmentIndex + 1))
                  (pointAt drawStrokePoints currentSegmentIndex) t.

End EditStroke.

(** ** Binary64 arithmetic (MotionPath.cpp, MotionPathDrawContext.cpp)

    The functions whose result depends on the rounding of [double],
    over the binary64 numbers of IEEE 754: every operation is the
    correctly rounded one, a division by zero gives an infinity and
    comparisons with not-a-number are false. *)

Module Binary64.

Import PrimFloat.
Local Open Scope float_scope.

Record MVector : Type := mkVector { vx : float; vy : float; vz : float }.

Definition vzero : MVector := mkVector 0 0 0.

Definition vadd (a b : MVector) : MVector :=
  mkVector (vx a + vx b) (vy a + vy b) (vz a + vz b).

Definition vsub (a b : MVector) : MVector :=
  mkVector (vx a - vx b) (vy a - vy b) (vz a - vz b).

(** [v * k] *)
Definition vscale (a : MVector) (k : float) : MVector :=
  mkVector (vx a * k) (vy a * k) (vz a * k).

(** The entries of an [MMatrix] that [multPosByParentMatrix] reads: the
    upper-left 3x3 block and the translation row. *)
Record MMatrix : Type := mkMatrix {
  m00 : float; m01 : float; m02 : float;
  m10 : float; m11 : float; m12 : float;
  m20 : float; m21 : float; m22 : float;
  m30 : float; m31 : float; m32 : float
}.


(** [MVector * MMatrix], the sums taken from left to right. *)
Definition vmulm (v : MVector) (m : MMatrix) : MVector :=
  mkVector (vx v * m00 m + vy v * m10 m + vz v * m20 m)
           (vx v * m01 m + vy v * m11 m + vz v * m21 m)
           (vx v * m02 m + vy v * m12 m + vz v * m22 m).

(** [MotionPath::multPosByParentMatrix] *)
Definition multPosByParentMatrix (vec : MVector) (mat : MMatrix) : MVector :=
  let multipliedVec := vmulm vec mat in
  mkVector (vx multipliedVec + m30 mat)
           (vy multipliedVec + m31 mat)
           (vz multipliedVec + m32 mat).

(** [strokePoints[i]]; a read outside the array gives the zero vector
    here. *)
Definition pointAt (strokePoints : list MVector) (i : nat) : MVector :=
  nth i strokePoints vzero.

(** The variables of the loop of
    [MotionPathDrawContext::getClosestPointOnPolyLine]. *)
Record ClosestState : Type := mkClosestState {
  cs_b : MVector;
  cs_dbq : MVector;
  cs_dist : float;
  cs_finalT : float;
  cs_index : nat
}.

(** One pass of the loop body, for [b = strokePoints[i]]. *)
Definition closestStep (q : MVector) (i : nat) (p : MVector)
    (st : ClosestState) : ClosestState :=
  let a := cs_b st in
  let daq := cs_dbq st in
  let b := p in
  let dbq := vsub b q in
  let dab := vsub a b in
  let inv_sqrlen := 1 / (vx dab * vx dab + vy dab * vy dab) in
  let t := (vx dab * vx daq + vy dab * vy daq) * inv_sqrlen in
  if t <? 0 then
    (* continue *)
    mkClosestState b dbq (cs_dist st) (cs_finalT st) (cs_index st)
  else
    let current_dist :=
      if t <=? 1
      then (vx dab * vy dbq - vy dab * vx dbq)
           * (vx dab * vy dbq - vy dab * vx dbq) * inv_sqrlen
      else vx dbq * vx dbq + vy dbq * vy dbq in
    if current_dist <? cs_dist st then
      mkClosestState b dbq current_dist (if 1 <? t then 1 else t) i
    else
      mkClosestState b dbq (cs_dist st) (cs_finalT st) (cs_index st).

Fixpoint closestLoop (q : MVector) (i : nat) (rest : list MVector)
    (st : ClosestState) : ClosestState :=
  match rest with
  | [] => st
  | p :: rest' => closestLoop q (S i) rest' (closestStep q i p st)
  end.

Definition closestRun (q : MVector) (strokePoints : list MVector)
  : ClosestState :=
  let b := pointAt strokePoints 0 in
  let dbq := vsub b q in
  let dist := vx dbq * vx dbq + vy dbq * vy dbq in
  closestLoop q 1 (tail strokePoints) (mkClosestState b dbq dist 0 0).

(** [MotionPathDrawContext::getClosestPointOnPolyLine] *)
Definition getClosestPointOnPolyLine (strokePoints : list MVector)
    (q : MVector) : MVector :=
  let st := closestRun q strokePoints in
  let finalT := cs_finalT st in
  let index := cs_index st in
  if (finalT =? 0) && bool_decide (index = 0%nat)
  then pointAt strokePoints 0
  else vadd (vscale (pointAt strokePoints index) finalT)
            (vscale (pointAt strokePoints (index - 1)) (1 - finalT)).






End Binary64.

(** * Properties *)

(** ** The parent-matrix cache *)

Module ParentMatrixCacheFacts.

Import Linear ParentMatrixCache.
Local Open Scope Z_scope.

Section Facts.

Context `{scene : Scene}.

Lemma ensure_fields t s :
  cachedRangeStart (ensureParentAndPivotMatrixAtTime t s) = cachedRangeStart s
  /\ cachedRangeEnd (ensureParentAndPivotMatrixAtTime t s) = cachedRangeEnd s
  /\ pMatrixCacheValid (ensureParentAndPivotMatrixAtTime t s)
     = pMatrixCacheValid s.
Proof.
  unfold ensureParentAndPivotMatrixAtTime.
  destruct (pMatrixCache s !! t); auto.
Qed.

Lemma ensure_lookup_self t s :
  is_Some (pMatrixCache (ensureParentAndPivotMatrixAtTime t s) !! t).
Proof.
  unfold ensureParentAndPivotMatrixAtTime.
  destruct (pMatrixCache s !! t) eqn:E; simpl.
  - rewrite E. eauto.
  - rewrite lookup_insert_eq. eauto.
Qed.

(** Once written, an entry is stable. *)
Lemma ensure_lookup_stable t s u m :
  pMatrixCache s !! u = Some m ->
  pMatrixCache (ensureParentAndPivotMatrixAtTime t s) !! u = Some m.
Proof.
  unfold ensureParentAndPivotMatrixAtTime. intros Hu.
  destruct (pMatrixCache s !! t) eqn:E; simpl; auto.
  rewrite lookup_insert_ne; auto. congruence.
Qed.

Lemma ensure_lookup_fresh t s :
  pMatrixCache s !! t = None ->
  pMatrixCache (ensureParentAndPivotMatrixAtTime t s) !! t
  = Some (getPMatrixAtTime t).
Proof.
  unfold ensureParentAndPivotMatrixAtTime. intros ->. simpl.
  apply lookup_insert_eq.
Qed.

Lemma ensure_lookup_other t s u :
  u <> t ->
  pMatrixCache (ensureParentAndPivotMatrixAtTime t s) !! u
  = pMatrixCache s !! u.
Proof.
  unfold ensureParentAndPivotMatrixAtTime. intros Hne.
  destruct (pMatrixCache s !! t); simpl; auto.
  apply lookup_insert_ne. congruence.
Qed.

Lemma ensure_size t s :
  (size (pMatrixCache s)
   <= size (pMatrixCache (ensureParentAndPivotMatrixAtTime t s)))%nat.
Proof.
  unfold ensureParentAndPivotMatrixAtTime.
  destruct (pMatrixCache s !! t) eqn:E; simpl; [lia|].
  rewrite map_size_insert_None by done. lia.
Qed.

Lemma ensureAll_fields l s :
  cachedRangeStart (ensureAll l s) = cachedRangeStart s
  /\ cachedRangeEnd (ensureAll l s) = cachedRangeEnd s
  /\ pMatrixCacheValid (ensureAll l s) = pMatrixCacheValid s.
Proof.
  revert s. induction l as [|i l IH]; intros s; simpl; [auto|].
  destruct (IH (ensureParentAndPivotMatrixAtTime i s)) as (-> & -> & ->).
  apply ensure_fields.
Qed.

Lemma ensureAll_lookup_stable l s u m :
  pMatrixCache s !! u = Some m -> pMatrixCache (ensureAll l s) !! u = Some m.
Proof.
  revert s. induction l as [|i l IH]; intros s Hu; simpl; [auto|].
  apply IH, ensure_lookup_stable, Hu.
Qed.

Lemma ensureAll_lookup_in l s u :
  u ∈ l -> is_Some (pMatrixCache (ensureAll l s) !! u).
Proof.
  revert s. induction l as [|i l IH]; intros s Hin; simpl.
  - inversion Hin.
  - apply elem_of_cons in Hin as [->|Hin]; [|by apply IH].
    destruct (ensure_lookup_self i s) as [m Hm].
    exists m. by apply ensureAll_lookup_stable.
Qed.

Lemma ensureAll_lookup_notin l s u :
  u ∉ l -> pMatrixCache (ensureAll l s) !! u = pMatrixCache s !! u.
Proof.
  revert s. induction l as [|i l IH]; intros s Hin; simpl; [done|].
  apply not_elem_of_cons in Hin as [Hne Hin].
  rewrite IH by done. by apply ensure_lookup_other.
Qed.

(** What the loop stores at a frame it visits, when none was there. *)
Lemma ensureAll_lookup_fresh l s u :
  u ∈ l -> pMatrixCache s !! u = None ->
  pMatrixCache (ensureAll l s) !! u = Some (getPMatrixAtTime u).
Proof.
  revert s. induction l as [|i l IH]; intros s Hin Hnone; simpl.
  - inversion Hin.
  - destruct (decide (u = i)) as [->|Hne].
    + apply ensureAll_lookup_stable, ensure_lookup_fresh, Hnone.
    + apply elem_of_cons in Hin as [?|Hin]; [done|].
      apply IH; [done|]. by rewrite ensure_lookup_other.
Qed.

Lemma ensureAll_size l s :
  (size (pMatrixCache s) <= size (pMatrixCache (ensureAll l s)))%nat.
Proof.
  revert s. induction l as [|i l IH]; intros s; simpl; [lia|].
  etrans; [apply ensure_size|apply IH].
Qed.

Lemma elem_of_framesFromTo a b t : t ∈ framesFromTo a b <-> a <= t <= b.
Proof. unfold framesFromTo. rewrite elem_of_seqZ. lia. Qed.

Lemma zip_with_fmap_same {A B C D} (h : B -> C -> D) (f : A -> B)
    (g : A -> C) (l : list A) :
  zip_with h (f <$> l) (g <$> l) = (fun x => h (f x) (g x)) <$> l.
Proof. induction l as [|x l IH]; simpl; [done|]. by f_equal. Qed.

Lemma zip_fmap_same {A B} (g : A -> B) (l : list A) :
  zip l (g <$> l) = (fun x => (x, g x)) <$> l.
Proof. induction l as [|x l IH]; simpl; [done|]. by f_equal. Qed.

(** Phase 2 computes, from the gathered inputs of a frame, the matrix
    of [getPMatrixAtTime] at that frame. *)
Lemma composeFrame_gathered t :
  composeFrame (parentMatrixAt t)
    (if usePivots then rotatePivotAt t else vzero)
    (if usePivots then rotatePivotTranslateAt t else vzero)
  = getPMatrixAtTime t.
Proof.
  unfold composeFrame, getPMatrixAtTime. destruct usePivots; reflexivity.
Qed.

(** The write-back of a list of frames. *)
Lemma writeback_lookup (g : Z -> MMatrix) (l : list Z) (c : gmap Z MMatrix) u :
  foldl (fun acc fm => <[fm.1 := fm.2]> acc) c ((fun f => (f, g f)) <$> l) !! u
  = if decide (u ∈ l) then Some (g u) else c !! u.
Proof.
  revert c. induction l as [|f l IH]; intros c.
  - by rewrite decide_False by apply not_elem_of_nil.
  - rewrite fmap_cons. cbn [foldl]. rewrite IH.
    destruct (decide (u ∈ l)) as [Hin|Hin].
    + rewrite decide_True; [done|by right].
    + destruct (decide (u = f)) as [->|Hne].
      * rewrite decide_True by left. apply lookup_insert_eq.
      * rewrite decide_False by (rewrite elem_of_cons; tauto).
        by apply lookup_insert_ne.
Qed.

Lemma rebuildThreePhase_unfold a n c :
  rebuildThreePhase a n c
  = foldl (fun acc fm => <[fm.1 := fm.2]> acc) c
      ((fun f => (f, getPMatrixAtTime f))
         <$> ((fun idx => a + idx) <$> seqZ 0 n)).
Proof.
  unfold rebuildThreePhase.
  set (frames := (fun idx => a + idx) <$> seqZ 0 n).
  f_equal.
  rewrite <- (zip_fmap_same getPMatrixAtTime frames). f_equal.
  destruct usePivots eqn:E.
  - rewrite (zip_with_fmap_same pair), (zip_with_fmap_same _ parentMatrixAt).
    apply list_fmap_ext. intros i t _. simpl.
    rewrite <- composeFrame_gathered, E. done.
  - rewrite (zip_with_fmap_same pair), (zip_with_fmap_same _ parentMatrixAt).
    apply list_fmap_ext. intros i t _. simpl.
    rewrite <- composeFrame_gathered, E. done.
Qed.

Lemma elem_of_gathered_frames a n t :
  t ∈ (fun idx => a + idx) <$> seqZ 0 n <-> a <= t < a + n.
Proof.
  rewrite list_elem_of_fmap. split.
  - intros (i & -> & Hi). apply elem_of_seqZ in Hi. lia.
  - intros Ht. exists (t - a). split; [lia|]. apply elem_of_seqZ. lia.
Qed.

Lemma rebuildThreePhase_lookup a n c t :
  (a <= t < a + n -> rebuildThreePhase a n c !! t = Some (getPMatrixAtTime t))
  /\ (~ a <= t < a + n -> rebuildThreePhase a n c !! t = c !! t).
Proof.
  rewrite rebuildThreePhase_unfold, writeback_lookup.
  split; intros Ht.
  - rewrite decide_True; [done|]. by apply elem_of_gathered_frames.
  - rewrite decide_False; [done|]. by rewrite elem_of_gathered_frames.
Qed.

Lemma composeScheduled_length schedule pm rp rpt fin :
  length (composeScheduled schedule pm rp rpt fin) = length fin.
Proof.
  unfold composeScheduled. revert fin.
  induction schedule as [|idx l IH]; intros fin; [done|].
  cbn [foldl]. rewrite IH.
  destruct (pm !! idx), (rp !! idx), (rpt !! idx); try done.
  apply length_insert.
Qed.

Lemma composeScheduled_lookup schedule pm rp rpt fin i m p1 p2 :
  pm !! i = Some m -> rp !! i = Some p1 -> rpt !! i = Some p2 ->
  (i < length fin)%nat -> i ∈ schedule ->
  composeScheduled schedule pm rp rpt fin !! i = Some (composeFrame m p1 p2).
Proof.
  intros Hm H1 H2. unfold composeScheduled. revert fin.
  induction schedule as [|idx l IH]; intros fin Hlen Hin; [inversion Hin|].
  cbn [foldl].
  destruct (decide (i ∈ l)) as [Hl|Hl].
  - apply IH; [|done].
    destruct (pm !! idx), (rp !! idx), (rpt !! idx); try done.
    by rewrite length_insert.
  - apply elem_of_cons in Hin as [<-|?]; [|done].
    rewrite Hm, H1, H2.
    assert (forall acc : list MMatrix,
      foldl (fun acc idx =>
           match pm !! idx, rp !! idx, rpt !! idx with
           | Some m, Some rp, Some rpt => <[idx := composeFrame m rp rpt]> acc
           | _, _, _ => acc
           end) acc l !! i = acc !! i) as Hkeep.
    { clear -Hl. induction l as [|j l IH]; intros acc; [done|].
      apply not_elem_of_cons in Hl as [Hne Hl]. cbn [foldl]. rewrite IH by done.
      destruct (pm !! j), (rp !! j), (rpt !! j); try done.
      by apply list_lookup_insert_ne. }
    rewrite Hkeep. by apply list_lookup_insert_eq.
Qed.

(** The result of phase 2 does not depend on the order in which the
    workers handle the indices. *)
Lemma composeScheduled_any_order schedule pm rp rpt :
  length rp = length pm -> length rpt = length pm ->
  schedule ≡ₚ seq 0 (length pm) ->
  composeScheduled schedule pm rp rpt (replicate (length pm) identity)
  = zip_with (fun parent piv => composeFrame parent piv.1 piv.2) pm (zip rp rpt).
Proof.
  intros H1 H2 Hperm. apply list_eq. intros i.
  destruct (decide (i < length pm)%nat) as [Hi|Hi].
  - destruct (lookup_lt_is_Some_2 pm i Hi) as [m Hm].
    destruct (lookup_lt_is_Some_2 rp i ltac:(lia)) as [p1 Hp1].
    destruct (lookup_lt_is_Some_2 rpt i ltac:(lia)) as [p2 Hp2].
    rewrite (composeScheduled_lookup _ _ _ _ _ _ m p1 p2); try done.
    + symmetry. apply lookup_zip_with_Some. exists m, (p1, p2).
      split; [done|]. split; [done|]. apply lookup_zip_with_Some. eauto.
    + by rewrite length_replicate.
    + rewrite Hperm. apply elem_of_seq. lia.
  - rewrite !lookup_ge_None_2; [done| |].
    + rewrite length_zip_with. lia.
    + rewrite composeScheduled_length, length_replicate. lia.
Qed.
(** A request inside the tracked range of a valid, non-empty cache is
    a cache hit: nothing changes. *)
Lemma cacheRange_hit omp a b s :
  live s -> cachedRangeStart s <= a -> b <= cachedRangeEnd s ->
  cacheParentMatrixRange omp a b s = s.
Proof.
  intros [Hv Hsz] Ha Hb. unfold cacheParentMatrixRange.
  rewrite Hv, !bool_decide_eq_true_2 by (done || lia). reflexivity.
Qed.

(** From a valid, non-empty cache a request leaves the cache valid and
    non-empty and can only widen the tracked range. *)
Lemma cacheRange_live omp a b s :
  live s ->
  live (cacheParentMatrixRange omp a b s)
  /\ cachedRangeStart (cacheParentMatrixRange omp a b s) <= cachedRangeStart s
  /\ cachedRangeEnd s <= cachedRangeEnd (cacheParentMatrixRange omp a b s).
Proof.
  intros [Hv Hsz]. unfold cacheParentMatrixRange. rewrite Hv. simpl.
  rewrite (bool_decide_eq_true_2 _ Hsz), !andb_true_r.
  destruct (bool_decide (cachedRangeStart s <= a)
            && bool_decide (cachedRangeEnd s >= b)).
  { repeat split; auto; lia. }
  simpl. unfold ensureRange.
  set (l1 := framesFromTo a (Z.min (cachedRangeStart s - 1) b)).
  set (l2 := framesFromTo (cachedRangeEnd s + 1) b).
  destruct (ensureAll_fields l2 (ensureAll l1 s)) as (_ & _ & Hv2).
  destruct (ensureAll_fields l1 s) as (_ & _ & Hv1).
  pose proof (ensureAll_size l1 s).
  pose proof (ensureAll_size l2 (ensureAll l1 s)).
  repeat split; simpl.
  - unfold l1, l2 in *. congruence.
  - lia.
  - case_bool_decide; lia.
  - case_bool_decide; lia.
Qed.

Lemma step_live omp s o :
  live s ->
  live (step omp s o)
  /\ cachedRangeStart (step omp s o) <= cachedRangeStart s
  /\ cachedRangeEnd s <= cachedRangeEnd (step omp s o).
Proof.
  destruct o as [a b|t]; simpl.
  - apply cacheRange_live.
  - intros [Hv Hsz].
    destruct (ensure_fields t s) as (Hs & He & Hv').
    pose proof (ensure_size t s). unfold live.
    rewrite Hs, He, Hv'. repeat split; auto; lia.
Qed.

Lemma exec_live omp ops s :
  live s ->
  live (exec omp ops s)
  /\ cachedRangeStart (exec omp ops s) <= cachedRangeStart s
  /\ cachedRangeEnd s <= cachedRangeEnd (exec omp ops s).
Proof.
  revert s. induction ops as [|o ops IH]; intros s Hl.
  - simpl. repeat split; try apply Hl; lia.
  - destruct (step_live omp s o Hl) as (Hl1 & Hs1 & He1).
    destruct (IH _ Hl1) as (Hl2 & Hs2 & He2).
    unfold exec in *. simpl. repeat split; try apply Hl2; lia.
Qed.

(** A request that names at least one frame leaves the cache valid and
    non-empty, whatever the state before. *)
Lemma cacheRange_establishes_live omp a b s :
  a <= b -> live (cacheParentMatrixRange omp a b s).
Proof.
  intros Hab.
  destruct (pMatrixCacheValid s
            && bool_decide (0 < size (pMatrixCache s))%nat) eqn:E.
  { apply cacheRange_live. apply andb_true_iff in E as [? E].
    apply bool_decide_eq_true in E. by split. }
  unfold cacheParentMatrixRange.
  replace (pMatrixCacheValid s && bool_decide (cachedRangeStart s <= a)
           && bool_decide (cachedRangeEnd s >= b)
           && bool_decide (0 < size (pMatrixCache s))%nat) with false.
  2:{ destruct (pMatrixCacheValid s), (bool_decide (0 < size (pMatrixCache s))%nat);
      simpl in *; try discriminate; by rewrite ?andb_false_r. }
  rewrite E. split; [done|]. simpl.
  assert (Ha : a <= a <= b) by lia.
  destruct (omp && bool_decide (b - a + 1 > 50)).
  - destruct (rebuildThreePhase_lookup a (b - a + 1) (pMatrixCache s) a)
      as [H1 _]. 
    pose proof (map_size_ne_0_lookup_2 _ a (mk_is_Some _ _ (H1 ltac:(lia)))).
    lia.
  - apply elem_of_framesFromTo in Ha.
    pose proof (map_size_ne_0_lookup_2 _ a
                  (ensureAll_lookup_in _ s a Ha)).
    unfold ensureRange. lia.
Qed.

Lemma cacheRange_rebuild_unfold omp a b s :
  needsRebuild s ->
  cacheParentMatrixRange omp a b s
  = mkMotionPath
      (if omp && bool_decide (b - a + 1 > 50)
       then rebuildThreePhase a (b - a + 1) (pMatrixCache s)
       else pMatrixCache (ensureRange a b s))
      a b true.
Proof.
  intros Hr. unfold cacheParentMatrixRange.
  assert (pMatrixCacheValid s
          && bool_decide (0 < size (pMatrixCache s))%nat = false) as E.
  { destruct Hr as [->| ->]; [done|].
    rewrite bool_decide_eq_false_2 by lia. apply andb_false_r. }
  rewrite E.
  replace (pMatrixCacheValid s && bool_decide (cachedRangeStart s <= a)
           && bool_decide (cachedRangeEnd s >= b)
           && bool_decide (0 < size (pMatrixCache s))%nat) with false; [done|].
  destruct (pMatrixCacheValid s),
    (bool_decide (0 < size (pMatrixCache s))%nat);
    simpl in *; try discriminate; by rewrite ?andb_false_r.
Qed.

(** The request is covered after the call when the tracked range was
    covered before it; the tracked range stays covered unless the
    request ends more than one frame below it. *)
Lemma cacheRange_contiguous omp a b s :
  (live s -> contiguous s) ->
  (forall t, a <= t <= b ->
     is_Some (pMatrixCache (cacheParentMatrixRange omp a b s) !! t))
  /\ ((live s -> a < cachedRangeStart s -> cachedRangeStart s - 1 <= b) ->
      contiguous (cacheParentMatrixRange omp a b s)).
Proof.
  intros Hinv.
  destruct (pMatrixCacheValid s
            && bool_decide (0 < size (pMatrixCache s))%nat) eqn:E.
  - apply andb_true_iff in E as [Hv Hsz]. apply bool_decide_eq_true in Hsz.
    assert (Hl : live s) by done. specialize (Hinv Hl).
    unfold cacheParentMatrixRange. rewrite Hv. simpl.
    rewrite (bool_decide_eq_true_2 _ Hsz), !andb_true_r.
    destruct (bool_decide (cachedRangeStart s <= a)
              && bool_decide (cachedRangeEnd s >= b)) eqn:Ehit.
    { apply andb_true_iff in Ehit as [H1 H2].
      apply bool_decide_eq_true in H1, H2.
      split; [|done]. intros t Ht. apply Hinv. lia. }
    simpl. unfold ensureRange.
    set (l1 := framesFromTo a (Z.min (cachedRangeStart s - 1) b)).
    set (l2 := framesFromTo (cachedRangeEnd s + 1) b).
    assert (Hcov : forall t,
      a <= t <= Z.min (cachedRangeStart s - 1) b
      \/ cachedRangeStart s <= t <= cachedRangeEnd s
      \/ cachedRangeEnd s + 1 <= t <= b ->
      is_Some (pMatrixCache (ensureAll l2 (ensureAll l1 s)) !! t)).
    { intros t [Ht|[Ht|Ht]].
      - destruct (ensureAll_lookup_in l1 s t) as [m Hm];
          [by apply elem_of_framesFromTo|].
        exists m. by apply ensureAll_lookup_stable.
      - destruct (Hinv t Ht) as [m Hm]. exists m.
        by do 2 apply ensureAll_lookup_stable.
      - apply ensureAll_lookup_in. by apply elem_of_framesFromTo. }
    split.
    + intros t Ht. apply Hcov. lia.
    + intros Hgap t. simpl. intros Ht. apply Hcov.
      specialize (Hgap Hl). repeat case_bool_decide; lia.
  - assert (Hr : needsRebuild s).
    { apply andb_false_iff in E as [E|E]; [by left|right].
      apply bool_decide_eq_false in E. lia. }
    rewrite (cacheRange_rebuild_unfold _ _ _ _ Hr).
    assert (Hcov : forall t, a <= t <= b ->
      is_Some ((if omp && bool_decide (b - a + 1 > 50)
                then rebuildThreePhase a (b - a + 1) (pMatrixCache s)
                else pMatrixCache (ensureRange a b s)) !! t)).
    { intros t Ht. destruct (omp && bool_decide (b - a + 1 > 50)).
      - destruct (rebuildThreePhase_lookup a (b - a + 1) (pMatrixCache s) t)
          as [-> _]; [eauto|lia].
      - apply ensureAll_lookup_in. by apply elem_of_framesFromTo. }
    split; [done|]. intros _ t. simpl. apply Hcov.
Qed.

(** C1 (as amended).  Across any sequence of [cacheParentMatrixRange]
    calls (and of single-frame [ensureParentAndPivotMatrixAtTime] calls)
    with no [clearParentMatrixCache] in between, [cachedRangeStart]
    never increases and [cachedRangeEnd] never decreases, provided the
    cache is valid and holds at least one entry when the sequence
    starts. *)
Theorem cached_range_monotone_when_live omp s :
  live s -> rangeMonotone omp s.
Proof.
  intros Hl ops1 ops2. unfold exec. rewrite foldl_app.
  destruct (exec_live omp ops1 s Hl) as (Hl1 & _ & _).
  destruct (exec_live omp ops2 _ Hl1) as (_ & Hs & He).
  unfold exec in *. lia.
Qed.

(** C2 (the code at the failing input).  On a new track, after
    [cacheParentMatrixRange(100, 110)] the request
    [cacheParentMatrixRange(10, 20)] moves the tracked range to
    [10, 110] without an entry for frame 50; the request
    [cacheParentMatrixRange(50, 60)] is then taken for a cache hit and
    leaves frame 55 without an entry. *)
Theorem leading_request_leaves_gap omp :
  let s1 := cacheParentMatrixRange omp 100 110 newMotionPath in
  let s2 := cacheParentMatrixRange omp 10 20 s1 in
  let s3 := cacheParentMatrixRange omp 50 60 s2 in
  cachedRangeStart s2 = 10 /\ cachedRangeEnd s2 = 110
  /\ is_Some (pMatrixCache s2 !! 10) /\ is_Some (pMatrixCache s2 !! 110)
  /\ pMatrixCache s2 !! 50 = None
  /\ s3 = s2 /\ pMatrixCache s3 !! 55 = None.
Proof.
  destruct omp; vm_compute; repeat split; eauto.
Qed.

(** C9.  In a build with [_OPENMP], a full rebuild over more than 50
    frames stores at every frame of the range the matrix that
    [getPMatrixAtTime] gives there; that is the matrix which the
    sequential pass ([ensureParentAndPivotMatrixAtTime]) stores at every
    frame of the range that it computes. *)
Theorem three_phase_rebuild_matches_sequential a b s :
  needsRebuild s -> 50 < b - a + 1 ->
  (forall t, a <= t <= b ->
     pMatrixCache (cacheParentMatrixRange true a b s) !! t
     = Some (getPMatrixAtTime t))
  /\ (forall t, a <= t <= b -> pMatrixCache s !! t = None ->
       pMatrixCache (cacheParentMatrixRange false a b s) !! t
       = Some (getPMatrixAtTime t)).
Proof.
  intros Hr Hn. rewrite !(cacheRange_rebuild_unfold _ _ _ _ Hr). simpl.
  rewrite bool_decide_eq_true_2 by lia.
  split.
  - intros t Ht.
    destruct (rebuildThreePhase_lookup a (b - a + 1) (pMatrixCache s) t)
      as [-> _]; [done|lia].
  - intros t Ht Hnone. apply ensureAll_lookup_fresh; [|done].
    by apply elem_of_framesFromTo.
Qed.

End Facts.

(** C1 (as stated) fails: on a new track the request (10, 5) names no
    frame and leaves the cache valid but empty, so the next request
    (20, 30) rebuilds and moves [cachedRangeStart] from 10 up to 20. *)
Lemma cached_range_not_monotone_after_empty_request :
  ~ rangeMonotone (H := restScene) false
      (cacheParentMatrixRange (scene := restScene) false 10 5 newMotionPath).
Proof.
  intros Hm. destruct (Hm [] [CacheRange 20 30]) as [Hs _].
  vm_compute in Hs. by apply Hs.
Qed.

Lemma cached_range_monotone_when_live_witness :
  rangeMonotone (H := restScene) false
    (cacheParentMatrixRange (scene := restScene) false 1 3 newMotionPath).
Proof.
  apply (cached_range_monotone_when_live (scene := restScene)).
  split; [reflexivity|]. vm_compute. lia.
Defined.

Lemma three_phase_rebuild_matches_sequential_witness :
  pMatrixCache
    (cacheParentMatrixRange (scene := restScene) true 1 60 newMotionPath) !! 7
  = Some (getPMatrixAtTime (scene := restScene) 7).
Proof.
  destruct (three_phase_rebuild_matches_sequential (scene := restScene)
              1 60 newMotionPath) as [Hstored _].
  - left. reflexivity.
  - lia.
  - apply Hstored. lia.
Defined.

End ParentMatrixCacheFacts.

(** ** Tangent conversion *)

Module AnimCurvesFacts.

Import Linear AnimCurves.
Local Open Scope R_scope.

Lemma ascending_lookup l i j a b :
  ascending l = true -> l !! i = Some a -> l !! j = Some b ->
  (i < j)%nat -> (a < b)%Z.
Proof.
  revert i j. induction l as [|x l IH]; intros i j Hasc Hi Hj Hlt; [done|].
  destruct j as [|j]; [lia|].
  assert (ascending l = true /\ forall b, b ∈ l -> (x < b)%Z) as [Hl Hx].
  { clear -Hasc. revert x Hasc. induction l as [|y l IH]; intros x H.
    - split; [done|]. intros b Hb. inversion Hb.
    - cbn [ascending] in H. apply andb_true_iff in H as [Hab Hl].
      apply bool_decide_eq_true in Hab. split; [done|].
      intros c Hc. apply elem_of_cons in Hc as [->|Hc]; [done|].
      destruct (IH y Hl) as [_ Hb]. specialize (Hb c Hc). lia. }
  simpl in Hj. destruct i as [|i]; simpl in Hi.
  - injection Hi as ->. apply Hx. by eapply list_elem_of_lookup_2.
  - apply (IH i j); auto. lia.
Qed.

(** On a curve with ascending key times, [find] at the time of a key
    gives the index of that key. *)
Lemma find_ascending curve index key :
  ascendingKeys curve = true -> curveKeys curve !! index = Some key ->
  find curve (keyTime key) = Some index.
Proof.
  intros Hasc Hi. unfold find.
  destruct (list_find (fun k => keyTime k = keyTime key) (curveKeys curve))
    as [[j k]|] eqn:E.
  - apply list_find_Some in E as (Hj & Hk & Hmin). simpl. f_equal.
    destruct (lt_eq_lt_dec j index) as [[Hlt|Heq]|Hgt]; [|done|].
    + pose proof (ascending_lookup (keyTime <$> curveKeys curve) j index
                    (keyTime k) (keyTime key) Hasc) as H.
      rewrite !list_lookup_fmap, Hj, Hi in H.
      specialize (H eq_refl eq_refl Hlt). lia.
    + exfalso. by apply (Hmin index key).
  - apply list_find_None in E. rewrite Forall_forall in E.
    exfalso. apply (E key); [|done]. by eapply list_elem_of_lookup_2.
Qed.

(** The canonical local value of a stored tangent: [tan angle * weight]
    on a non-weighted curve, [y / 3] on a weighted one, and 0 when the
    tangent cannot be read. *)
Lemma tangentValue_nonweighted curve index isIn angle weight :
  curveWeighted curve = false ->
  getTangent curve index isIn = Some (angle, weight) ->
  tangentValue index curve isIn = tan angle * weight.
Proof. intros Hw Hg. unfold tangentValue. by rewrite Hw, Hg. Qed.

Lemma tangentValue_weighted curve index isIn x y :
  curveWeighted curve = true ->
  getTangent curve index isIn = Some (x, y) ->
  tangentValue index curve isIn = y / 3.
Proof. intros Hw Hg. unfold tangentValue. by rewrite Hw, Hg. Qed.

Lemma tangentValue_unreadable curve index isIn :
  getTangent curve index isIn = None -> tangentValue index curve isIn = 0.
Proof.
  intros Hg. unfold tangentValue. rewrite Hg. by destruct (curveWeighted curve).
Qed.

(** With weight 1 and an angle strictly between -pi/2 and pi/2, the
    round trip through the write path gives back the stored pair. *)
Lemma nonweighted_round_trip_unit_weight uiPerSecond curve index tangentId
    angle key :
  curveWeighted curve = false -> (1 < numKeys curve)%nat ->
  ascendingKeys curve = true ->
  curveKeys curve !! index = Some key ->
  let isIn := match tangentId with kInTangent => true | _ => false end in
  getTangent curve index isIn = Some (angle, 1) ->
  - (PI / 2) < angle < PI / 2 ->
  getTangent (tangentRoundTrip uiPerSecond curve index tangentId) index isIn
  = Some (angle, 1).
Proof.
  intros Hw Hn Hasc Hi isIn Hget Hrange.
  unfold tangentRoundTrip, setTangentValue, tangentValue, timeAt.
  rewrite Hi, Hw. cbn [negb]. fold isIn. rewrite Hget.
  rewrite bool_decide_eq_false_2 by lia.
  rewrite (find_ascending _ _ _ Hasc Hi), Hget.
  unfold getTangent in *. simpl.
  rewrite list_lookup_alter_eq, Hi in *. simpl.
  subst isIn. destruct tangentId; simpl; do 2 f_equal;
    rewrite <- (atan_tan angle Hrange) at 2; f_equal; lra.
Qed.

Lemma atan_4_off_quarter_pi : atan 4 - PI / 4 > 1 / 10.
Proof.
  assert (H3 : atan (sqrt 3) = PI / 3).
  { rewrite <- tan_PI3. apply atan_tan. pose proof PI2_1. lra. }
  assert (Hs : sqrt 3 < 4).
  { replace 4 with (sqrt 16) by (apply sqrt_lem_1; lra).
    apply sqrt_lt_1; lra. }
  pose proof (atan_increasing _ _ Hs). pose proof PI2_1. lra.
Qed.

(** C3 (the code at the failing input).  On a non-weighted curve the
    out tangent (angle pi/4, weight 2) is read as the local value
    tan(pi/4) * 2 = 2; writing 2 back stores the angle atan(2 * 2), more
    than 0.1 rad away from pi/4, with the weight unchanged. *)
Theorem nonweighted_round_trip_changes_angle uiPerSecond :
  getTangent sampleTangentCurve 0 false = Some (PI / 4, 2)
  /\ tangentValue 0 sampleTangentCurve false = 2
  /\ getTangent
       (tangentRoundTrip uiPerSecond sampleTangentCurve 0 kOutTangent) 0 false
     = Some (atan 4, 2)
  /\ atan 4 - PI / 4 > 1 / 10.
Proof.
  split; [reflexivity|]. split; [|split].
  - unfold tangentValue. cbn. rewrite tan_PI4. lra.
  - unfold tangentRoundTrip, setTangentValue, tangentValue. cbn.
    rewrite bool_decide_eq_false_2 by lia.
    rewrite decide_True by done. cbn.
    rewrite tan_PI4. do 3 f_equal. lra.
  - apply atan_4_off_quarter_pi.
Qed.

End AnimCurvesFacts.

(** ** Writing keys from world positions *)

Module KeyEditingFacts.

Import Linear ParentMatrixCache ParentMatrixCacheFacts AnimCurves.
Import KeyframeCache KeyEditing.
Local Open Scope R_scope.

Section Host.

Context `{scene : Scene}.
Variable inverse : MMatrix -> MMatrix.
Variable getPos : Z -> MVector.


End Host.


End KeyEditingFacts.

(** ** The keyframe cache *)

Module KeyframeCacheFacts.

Import Linear AnimCurves KeyframeCache.
Local Open Scope Z_scope.

Lemma ascending_head a l :
  ascending (a :: l) = true -> ascending l = true /\ forall b, b ∈ l -> a < b.
Proof.
  revert a. induction l as [|b l IH]; intros a H.
  - split; [done|]. intros b Hb. inversion Hb.
  - cbn [ascending] in H. apply andb_true_iff in H as [Hab Hl].
    apply bool_decide_eq_true in Hab. split; [done|].
    intros c Hc. apply elem_of_cons in Hc as [->|Hc]; [done|].
    destruct (IH b Hl) as [_ Hb]. specialize (Hb c Hc). lia.
Qed.

Lemma ascending_drop n l : ascending l = true -> ascending (drop n l) = true.
Proof.
  revert l. induction n as [|n IH]; intros l H; [by rewrite drop_0|].
  destruct l as [|a l]; [done|]. simpl. apply IH.
  by apply ascending_head in H as [? _].
Qed.

Lemma rot_step_translationFree v ax t k :
  translationFree k -> translationFree (setRotKeyId v ax (setTime t k)).
Proof. by destruct k, ax. Qed.

Lemma rot_step_time v ax t k : time (setRotKeyId v ax (setTime t k)) = t.
Proof. by destruct k, ax. Qed.

Lemma rot_step_same v ax t k : rotKeyId ax (setRotKeyId v ax (setTime t k)) = v.
Proof. by destruct k, ax. Qed.

Lemma rot_step_other v ax a t k :
  a <> ax -> rotKeyId a (setRotKeyId v ax (setTime t k)) = rotKeyId a k.
Proof. by destruct k, ax, a. Qed.

Section RotationExpansion.

Context (track : Track) (curve : AnimCurve) (ax : Axis) (endTime : Z).

Lemma expandLoop_wellKeyed i keys cache :
  wellKeyed cache -> wellKeyed (expandLoop track curve ax false endTime i keys cache).
Proof.
  revert i cache. induction keys as [|key rest IH]; intros i cache Hw; [done|].
  cbn [expandLoop]. repeat case_bool_decide; auto.
  apply IH. intros t k. unfold expandKey, recordAt.
  destruct (decide (t = keyTime key)) as [->|Hne].
  - rewrite lookup_insert_eq. intros [= <-]. split.
    + apply rot_step_translationFree.
      destruct (cache !! keyTime key) eqn:E; simpl; [by apply (Hw _ _ E)|done].
    + apply rot_step_time.
  - rewrite lookup_insert_ne by done. apply Hw.
Qed.

Lemma expandLoop_untouched T i keys cache :
  (forall key, key ∈ keys -> keyTime key <> T) ->
  expandLoop track curve ax false endTime i keys cache !! T = cache !! T.
Proof.
  revert i cache. induction keys as [|key rest IH]; intros i cache Hk; [done|].
  cbn [expandLoop]. repeat case_bool_decide; auto.
  - rewrite IH by (intros; apply Hk; by right).
    apply lookup_insert_ne. apply Hk. by left.
  - apply IH. intros; apply Hk; by right.
Qed.

(** A rotation curve of another axis leaves the key id of [a]. *)
Lemma expandLoop_other_axis a v T i keys cache :
  a <> ax ->
  (exists k, cache !! T = Some k /\ rotKeyId a k = v) ->
  exists k, expandLoop track curve ax false endTime i keys cache !! T = Some k
            /\ rotKeyId a k = v.
Proof.
  intros Hne. revert i cache.
  induction keys as [|key rest IH]; intros i cache Hk; [done|].
  cbn [expandLoop]. repeat case_bool_decide; auto.
  apply IH. destruct Hk as (k & Hk & Hv).
  destruct (decide (T = keyTime key)) as [->|HT].
  - rewrite lookup_insert_eq. eexists; split; [done|].
    unfold expandKey, recordAt. rewrite Hk. simpl.
    by rewrite rot_step_other.
  - rewrite lookup_insert_ne by done. eauto.
Qed.

(** The loop reaches key [j] of the keys left when they ascend and the
    key lies in the window, and stores its index. *)
Lemma expandLoop_stores T i j keys key cache :
  ascending (keyTime <$> keys) = true ->
  keys !! j = Some key -> keyTime key = T ->
  displayStartTime track <= T <= endTime ->
  exists k, expandLoop track curve ax false endTime i keys cache !! T = Some k
            /\ rotKeyId ax k = Z.of_nat (i + j).
Proof.
  revert i j cache. induction keys as [|key0 rest IH];
    intros i j cache Hasc Hj HT Hwin; [done|].
  rewrite fmap_cons in Hasc. apply ascending_head in Hasc as [Hasc Hlt].
  cbn [expandLoop]. destruct j as [|j]; simpl in Hj.
  - injection Hj as ->. rewrite HT.
    rewrite !bool_decide_eq_true_2 by lia.
    rewrite expandLoop_untouched.
    + rewrite lookup_insert_eq. eexists; split; [done|].
      unfold expandKey. rewrite rot_step_same. f_equal. lia.
    + intros k Hk. apply (list_elem_of_fmap_2 keyTime) in Hk.
      apply Hlt in Hk. lia.
  - assert (keyTime key0 < T).
    { rewrite <- HT. apply Hlt. apply list_elem_of_fmap_2.
      by eapply list_elem_of_lookup_2. }
    replace (i + S j)%nat with (S i + j)%nat by lia.
    case_bool_decide.
    + rewrite bool_decide_eq_true_2 by lia. by apply IH.
    + by apply IH.
Qed.

End RotationExpansion.

Lemma finishKey_fields track i k :
  time (finishKey track i k) = time k
  /\ (forall a, rotKeyId a (finishKey track i k) = rotKeyId a k)
  /\ (translationFree k -> translationFree (finishKey track i k)).
Proof.
  unfold finishKey.
  destruct k. simpl.
  destruct (bool_decide _), (isDrawing track); simpl;
    (split; [done|split; [by intros []|done]]).
Qed.

Lemma finishKeys_record track a v T cache :
  (exists k, cache !! T = Some k /\ rotationRecord a v T k) ->
  exists k, finishKeys track cache !! T = Some k /\ rotationRecord a v T k.
Proof.
  unfold finishKeys. generalize (sortedTimes cache) as l.
  generalize 0 as n. intros n l. revert n cache.
  induction l as [|t l IH]; intros n cache Hk; [done|].
  cbn [foldl]. apply IH. simpl.
  destruct Hk as (k & Hk & Ht & Hr & Hf).
  destruct (decide (t = T)) as [->|Hne].
  - rewrite lookup_alter_eq, Hk. simpl. eexists; split; [done|].
    destruct (finishKey_fields track n k) as (H1 & H2 & H3).
    unfold rotationRecord. rewrite H1, H2. auto.
  - rewrite lookup_alter_ne by done. exists k. by split.
Qed.

Section Build.

Context (track : Track) (curveTX curveTY curveTZ : AnimCurve).
Context (curveRX curveRY curveRZ : AnimCurve).

Lemma expandRotation_wellKeyed curve ax cache :
  wellKeyed cache ->
  wellKeyed (if curveAnimatable curve
             then expandKeyFramesCache track curve ax false cache else cache).
Proof.
  intros Hw. destruct (curveAnimatable curve); [|done].
  unfold expandKeyFramesCache. case_bool_decide; [done|].
  by apply expandLoop_wellKeyed.
Qed.

Lemma expandRotation_other_axis curve ax a v T cache :
  a <> ax ->
  (exists k, cache !! T = Some k /\ rotKeyId a k = v) ->
  exists k,
    (if curveAnimatable curve
     then expandKeyFramesCache track curve ax false cache else cache) !! T
    = Some k /\ rotKeyId a k = v.
Proof.
  intros Hne Hk. destruct (curveAnimatable curve); [|done].
  unfold expandKeyFramesCache. case_bool_decide; [done|].
  by apply expandLoop_other_axis.
Qed.

Lemma expandRotation_stores curve ax i key cache :
  curveAnimatable curve = true -> ascendingKeys curve = true ->
  curveKeys curve !! i = Some key ->
  displayStartTime track <= keyTime key <= boundaryEnd track ->
  exists k,
    (if curveAnimatable curve
     then expandKeyFramesCache track curve ax false cache else cache)
      !! keyTime key = Some k
    /\ rotKeyId ax k = Z.of_nat i.
Proof.
  intros -> Hasc Hi Hwin. unfold expandKeyFramesCache.
  rewrite bool_decide_eq_false_2.
  - by apply (expandLoop_stores track curve ax _ _ 0 i _ key).
  - unfold numKeys. apply lookup_lt_Some in Hi. lia.
Qed.

(** C8 (as amended).  With the display of rotation keys switched on,
    when no translation curve has a key and an animatable rotation
    curve has a key inside the window from the display start to the
    boundary end, the build of the cache keeps a record at the time of
    that key, stamped with that time, with the index of the key as its
    rotation key id for the axis and -1 for its three translation key
    ids. *)
Theorem rotation_only_key_is_retained axisName i key :
  showRotationKeyFrames track = true ->
  numKeys curveTX = 0%nat -> numKeys curveTY = 0%nat ->
  numKeys curveTZ = 0%nat ->
  curveAnimatable (rotationCurve axisName curveRX curveRY curveRZ) = true ->
  ascendingKeys (rotationCurve axisName curveRX curveRY curveRZ) = true ->
  curveKeys (rotationCurve axisName curveRX curveRY curveRZ) !! i = Some key ->
  displayStartTime track <= keyTime key <= boundaryEnd track ->
  exists k,
    buildKeyframesCache track curveTX curveTY curveTZ curveRX curveRY curveRZ
      !! keyTime key = Some k
    /\ time k = keyTime key
    /\ rotKeyId axisName k = Z.of_nat i
    /\ xKeyId k = -1 /\ yKeyId k = -1 /\ zKeyId k = -1.
Proof.
  intros Hshow HX HY HZ Hanim Hasc Hi Hwin.
  unfold buildKeyframesCache, cacheKeyFrames.
  rewrite Hshow.
  assert (Htr : forall curve ax c, numKeys curve = 0%nat ->
            (if curveAnimatable curve
             then expandKeyFramesCache track curve ax true c else c) = c).
  { intros curve ax c Hn. destruct (curveAnimatable curve); [|done].
    unfold expandKeyFramesCache. by rewrite bool_decide_eq_true_2. }
  rewrite !Htr by done.
  unfold setShowInOutTangents.
  rewrite !bool_decide_eq_true_2 by done. simpl.
  set (cX := if curveAnimatable curveRX
             then expandKeyFramesCache track curveRX kAxisX false ∅ else ∅).
  set (cY := if curveAnimatable curveRY
             then expandKeyFramesCache track curveRY kAxisY false cX else cX).
  set (cZ := if curveAnimatable curveRZ
             then expandKeyFramesCache track curveRZ kAxisZ false cY else cY).
  assert (HwX : wellKeyed cX) by (apply expandRotation_wellKeyed; by intros ??).
  assert (HwY : wellKeyed cY) by by apply expandRotation_wellKeyed.
  assert (HwZ : wellKeyed cZ) by by apply expandRotation_wellKeyed.
  assert (Hrec : exists k, cZ !! keyTime key = Some k
                           /\ rotKeyId axisName k = Z.of_nat i).
  { unfold cZ, cY, cX. destruct axisName; simpl in Hanim, Hasc, Hi.
    - apply expandRotation_other_axis; [done|].
      apply expandRotation_other_axis; [done|].
      by apply expandRotation_stores.
    - apply expandRotation_other_axis; [done|].
      by apply expandRotation_stores.
    - by apply expandRotation_stores. }
  destruct Hrec as (k & Hk & Hv).
  destruct (HwZ _ _ Hk) as [Hfree Htime].
  destruct (finishKeys_record track axisName (Z.of_nat i) (keyTime key) cZ)
    as (k' & Hk' & Ht' & Hv' & Hx & Hy & Hz).
  { exists k. by split. }
  exists k'. tauto.
Qed.

End Build.

(** C8 (as stated) fails: with the display of rotation keys switched
    off, the rotation key at frame 10 of an object without translation
    keys gets no record. *)
Lemma rotation_only_key_dropped_when_hidden :
  buildKeyframesCache (sampleTrack false) noCurve noCurve noCurve
    sampleRotationCurve noCurve noCurve !! 10 = None.
Proof. vm_compute. reflexivity. Qed.

Lemma rotation_only_key_is_retained_witness :
  exists k,
    buildKeyframesCache (sampleTrack true) noCurve noCurve noCurve
      sampleRotationCurve noCurve noCurve !! 10 = Some k
    /\ time k = 10
    /\ rotKeyId kAxisX k = 0
    /\ xKeyId k = -1 /\ yKeyId k = -1 /\ zKeyId k = -1.
Proof.
  apply (rotation_only_key_is_retained (sampleTrack true) noCurve noCurve
           noCurve sampleRotationCurve noCurve noCurve kAxisX 0
           (mkCurveKey 10 0%R (0%R, 1%R) (0%R, 1%R) true));
    try reflexivity.
  vm_compute. split; discriminate.
Defined.

End KeyframeCacheFacts.

(** ** The stroke fitter *)

Module StrokeFacts.

Import Linear Stroke.
Local Open Scope R_scope.

(** Settles the comparisons of real constants in the goal. *)
Ltac decide_reals :=
  repeat match goal with
  | |- context [bool_decide ?P] =>
      first [ rewrite (bool_decide_eq_true_2 P) by (simpl; lra)
            | rewrite (bool_decide_eq_false_2 P) by (simpl; lra) ]
  end.

(** Runs one pass of the closest-point loop on constants. *)
Ltac run_closestStep :=
  unfold closestStep, finv; simpl; decide_reals; simpl; decide_reals;
  simpl; decide_reals.

Lemma closestStep_b q i p st : cs_b (closestStep q i p st) = p.
Proof.
  unfold closestStep. repeat (destruct (flt _ _)); reflexivity.
Qed.






Lemma closestStep_divisors q i p st :
  cs_divisors (closestStep q i p st)
  = cs_divisors st ++ [sq2 (vsub (cs_b st) p)].
Proof.
  unfold closestStep. repeat (destruct (flt _ _)); reflexivity.
Qed.

Lemma closestLoop_divisors q i rest st :
  cs_divisors (closestLoop q i rest st)
  = cs_divisors st ++ segmentSqrLengths (cs_b st :: rest).
Proof.
  revert i st. induction rest as [|p rest IH]; intros i st.
  - simpl. by rewrite app_nil_r.
  - cbn [closestLoop]. rewrite IH, closestStep_divisors, closestStep_b.
    by rewrite <- app_assoc.
Qed.

Lemma closestDivisors_segments strokePoints q :
  closestDivisors strokePoints q = segmentSqrLengths strokePoints.
Proof.
  unfold closestDivisors, closestRun. rewrite closestLoop_divisors.
  destruct strokePoints as [|a rest]; reflexivity.
Qed.

(** The point of the straight stroke closest to (5, 5) is (5, 0), half
    way along the first segment. *)
Example closest_point_midway :
  getClosestPointOnPolyLine straightStroke (mkVector 5 5 0)
  = Some (mkVector 5 0 0).
Proof.
  assert (H1 : closestStep (mkVector 5 5 0) 1 (mkVector 10 0 0)
                 (mkClosestState (mkVector 0 0 0) (mkVector (-5) (-5) 0)
                    (Finite 50) (Finite 0) 0 [])
               = mkClosestState (mkVector 10 0 0) (mkVector 5 (-5) 0)
                    (Finite 25) (Finite (1 / 2)) 1 [100]).
  { run_closestStep. unfold vsub. simpl.
    f_equal; [f_equal; lra|f_equal; field|f_equal; field|f_equal; lra]. }
  assert (H2 : closestStep (mkVector 5 5 0) 2 (mkVector 20 0 0)
                 (mkClosestState (mkVector 10 0 0) (mkVector 5 (-5) 0)
                    (Finite 25) (Finite (1 / 2)) 1 [100])
               = mkClosestState (mkVector 20 0 0) (mkVector 15 (-5) 0)
                    (Finite 25) (Finite (1 / 2)) 1 [100; 100]).
  { run_closestStep. unfold vsub. simpl.
    f_equal; [f_equal; lra|do 2 f_equal; lra]. }
  assert (H3 : closestStep (mkVector 5 5 0) 3 (mkVector 30 0 0)
                 (mkClosestState (mkVector 20 0 0) (mkVector 15 (-5) 0)
                    (Finite 25) (Finite (1 / 2)) 1 [100; 100])
               = mkClosestState (mkVector 30 0 0) (mkVector 25 (-5) 0)
                    (Finite 25) (Finite (1 / 2)) 1 [100; 100; 100]).
  { run_closestStep. unfold vsub. simpl.
    f_equal; [f_equal; lra|do 3 f_equal; lra]. }
  unfold getClosestPointOnPolyLine, closestRun, straightStroke.
  cbn [tail closestLoop pointAt nth].
  replace (vsub (mkVector 0 0 0) (mkVector 5 5 0)) with (mkVector (-5) (-5) 0)
    by (unfold vsub; simpl; f_equal; lra).
  cbn [vx vy].
  replace (-5 * -5 + -5 * -5) with 50 by lra.
  rewrite H1, H2, H3. simpl.
  rewrite bool_decide_eq_false_2 by lra. simpl.
  unfold vadd, vscale. simpl. do 2 f_equal; field.
Qed.


Lemma vlength_eq (v : MVector) (l : R) :
  0 <= l -> vdot v v = l * l -> vlength v = l.
Proof. intros Hl Hv. unfold vlength. by apply sqrt_lem_1; [rewrite Hv; nra| |]. Qed.

Lemma vlength_horizontal (x : R) : vlength (mkVector x 0 0) = Rabs x.
Proof.
  apply vlength_eq; [apply Rabs_pos|].
  unfold vdot. simpl. 
  assert (Rabs x * Rabs x = x * x).
  { unfold Rabs. destruct (Rcase_abs x); ring. }
  lra.
Qed.

Lemma vsub_horizontal (a b : R) :
  vsub (mkVector a 0 0) (mkVector b 0 0) = mkVector (a - b) 0 0.
Proof. unfold vsub. simpl. f_equal; ring. Qed.

Lemma vnormalize_horizontal (x : R) :
  x <> 0 -> vnormalize (mkVector x 0 0) = mkVector (x / Rabs x) 0 0.
Proof.
  intros Hx. unfold vnormalize. rewrite vlength_horizontal.
  rewrite bool_decide_eq_false_2 by (by apply Rabs_no_R0).
  unfold vscale. simpl. f_equal; unfold Rdiv; ring.
Qed.

Lemma vnormalize_zero : vnormalize vzero = vzero.
Proof.
  unfold vnormalize, vzero. rewrite vlength_horizontal, Rabs_R0.
  by rewrite bool_decide_eq_true_2.
Qed.

Lemma strokeLengths_straight : strokeLengths straightStroke = ([10; 10; 0], 20).
Proof.
  unfold strokeLengths, straightStroke. cbn [length seq foldl Nat.sub replicate pointAt nth fst snd].
  rewrite !vsub_horizontal, !vlength_horizontal.
  replace (10 - 0) with 10 by ring. replace (20 - 10) with 10 by ring.
  rewrite Rabs_right by lra. cbn. f_equal. ring.
Qed.

Lemma polylineLength_straight : polylineLength straightStroke = 30.
Proof.
  unfold straightStroke. cbn [polylineLength].
  rewrite !vsub_horizontal, !vlength_horizontal.
  replace (10 - 0) with 10 by ring. replace (20 - 10) with 10 by ring.
  replace (30 - 20) with 10 by ring.
  rewrite Rabs_right by lra. ring.
Qed.

Lemma spread_first_of_two :
  getSpreadPointOnPolyLine straightStroke 0 2 20 [10; 10; 0]
  = Some (mkVector (-10) 0 0).
Proof.
  unfold getSpreadPointOnPolyLine, straightStroke.
  rewrite bool_decide_eq_false_2 by lia.
  cbn [length Nat.sub spreadSearch nth].
  replace ((IZR 0 + 1) / IZR 2 * 20) with 10 by (simpl; lra).
  rewrite (bool_decide_eq_true_2 (10 > 0)) by lra.
  rewrite (bool_decide_eq_false_2 (10 < 0 + 10)) by lra.
  rewrite (bool_decide_eq_false_2 (10 > 0 + 10)) by lra.
  rewrite (bool_decide_eq_false_2 (10 > 0 + 10 + 10)) by lra.
  cbn. unfold fdiv. rewrite bool_decide_eq_false_2 by lra.
  cbn. unfold vadd, vscale. simpl. do 2 f_equal; lra.
Qed.

(** With [pointSize = 3] the first item is found on the first segment,
    at length 20/3 of a stroke of length 30. *)
Lemma spread_first_of_three :
  getSpreadPointOnPolyLine straightStroke 0 3 20 [10; 10; 0]
  = Some (mkVector (20 / 3) 0 0).
Proof.
  unfold getSpreadPointOnPolyLine, straightStroke.
  rewrite bool_decide_eq_false_2 by lia.
  cbn [length Nat.sub spreadSearch nth].
  replace ((IZR 0 + 1) / IZR 3 * 20) with (20 / 3) by (simpl; lra).
  decide_reals. cbn. unfold fdiv. decide_reals.
  cbn. unfold vadd, vscale. simpl. do 2 f_equal; field.
Qed.

(** C6 (the code at the failing input).  For the straight stroke
    (0,0), (10,0), (20,0), (30,0), of length 30, [doReleaseCommon]
    computes the segment lengths 10, 10, 0 and the stroke length 20: its
    loop leaves the last segment out.  With these and [pointSize = 2],
    item 0 is asked for at length 10, which ends the first segment
    exactly; no segment is found, and the item is placed at (-10, 0),
    before the start of the stroke, not at length 15.  Item 1, the last,
    is the final point (30, 0).  With [pointSize = 3], item 0 is placed
    at length 20/3, not at length 10. *)
Theorem spread_on_straight_stroke :
  strokeLengths straightStroke = ([10; 10; 0], 20)
  /\ polylineLength straightStroke = 30
  /\ getSpreadPointOnPolyLine straightStroke 0 2 20 [10; 10; 0]
     = Some (mkVector (-10) 0 0)
  /\ getSpreadPointOnPolyLine straightStroke 1 2 20 [10; 10; 0]
     = Some (mkVector 30 0 0)
  /\ getSpreadPointOnPolyLine straightStroke 0 3 20 [10; 10; 0]
     = Some (mkVector (20 / 3) 0 0).
Proof.
  split; [apply strokeLengths_straight|].
  split; [apply polylineLength_straight|].
  split; [apply spread_first_of_two|].
  split; [reflexivity|apply spread_first_of_three].
Qed.

Section View.

Context `{view : View}.

(** [getStrokeDirection] answers 0 in the two cases of [ambiguousDots]
    and in no other. *)
Lemma getStrokeDirection_zero_iff dir keys sel :
  getStrokeDirection dir keys sel = 0%Z <-> ambiguousDots (strokeDots dir keys sel).
Proof.
  unfold getStrokeDirection, ambiguousDots.
  destruct (strokeDots dir keys sel) as [dot1 dot2]. simpl.
  repeat case_bool_decide; simpl; split; try done; try tauto; intros; try lra.
Qed.

(** In every other case the answer is -1 when the first dot product is
    the larger, and 1 otherwise. *)
Lemma getStrokeDirection_otherwise dir keys sel :
  ~ ambiguousDots (strokeDots dir keys sel) ->
  getStrokeDirection dir keys sel
  = if bool_decide ((strokeDots dir keys sel).1 > (strokeDots dir keys sel).2)
    then (-1)%Z else 1%Z.
Proof.
  unfold getStrokeDirection, ambiguousDots.
  destruct (strokeDots dir keys sel) as [dot1 dot2]. simpl. intros Hn.
  repeat case_bool_decide; simpl; try done; exfalso; apply Hn; tauto.
Qed.

(** C7 (as amended).  When one of the two dot products is exactly zero
    and the other is negative, [getStrokeDirection] returns 0, no
    candidate is collected and the release issues no call on the track:
    no key is removed or added. *)
Theorem ambiguous_stroke_is_noop strokePoints keys selectedTime :
  ambiguousDots (strokeDots (strokeDirectionalVector strokePoints) keys
                            (indexOfKey keys selectedTime)) ->
  getStrokeDirection (strokeDirectionalVector strokePoints) keys
                     (indexOfKey keys selectedTime) = 0%Z
  /\ doReleaseCommon strokePoints keys selectedTime = [].
Proof.
  intros Hamb. apply getStrokeDirection_zero_iff in Hamb. split; [done|].
  unfold doReleaseCommon. rewrite Hamb.
  case_bool_decide; [|done]. case_bool_decide as Hnz; [by destruct Hnz|done].
Qed.
End View.

Lemma dir_left : strokeDirectionalVector leftStroke = mkVector (-1) 0 0.
Proof.
  unfold strokeDirectionalVector, leftStroke.
  cbn [length Nat.sub seq foldl pointAt nth].
  rewrite !vsub_horizontal. unfold vadd, vzero, vscale. simpl.
  match goal with
  | |- vnormalize ?v = _ =>
      replace v with (mkVector (-29 / 2) 0 0) by (f_equal; field)
  end.
  rewrite vnormalize_horizontal by lra.
  rewrite Rabs_left by lra. f_equal. field.
Qed.

Lemma dots_left :
  strokeDots (view := sampleView) (mkVector (-1) 0 0) sampleKeys 1 = (-1, -1).
Proof.
  unfold strokeDots, sampleKeys, sampleView, keyAt. simpl.
  rewrite !vsub_horizontal.
  rewrite !vnormalize_horizontal by lra.
  rewrite !Rabs_right by lra. unfold vdot. simpl. f_equal; lra.
Qed.

(** C7 (as stated) fails: both dot products are -1, yet the direction
    is 1, the key at frame 20 is collected, removed and added back. *)
Lemma nonpositive_dots_still_redistribute :
  let dots := strokeDots (view := sampleView)
                (strokeDirectionalVector leftStroke) sampleKeys
                (indexOfKey sampleKeys 10) in
  dots.1 <= 0 /\ dots.2 <= 0
  /\ getStrokeDirection (view := sampleView)
       (strokeDirectionalVector leftStroke) sampleKeys
       (indexOfKey sampleKeys 10) = 1%Z
  /\ doReleaseCommon (view := sampleView) leftStroke sampleKeys 10
     = [DeleteKeyFrameAtTime 20; AddKeyFrameAtTime 20 (Some (mkVector 1 0 0))].
Proof.
  assert (Hi : indexOfKey sampleKeys 10 = 1%Z) by reflexivity.
  assert (Hd : getStrokeDirection (view := sampleView)
       (strokeDirectionalVector leftStroke) sampleKeys 1 = 1%Z).
  { unfold getStrokeDirection. rewrite dir_left, dots_left.
    rewrite (bool_decide_eq_false_2 (-1 = 0)) by lra.
    rewrite (bool_decide_eq_false_2 (-1 > -1)) by lra. reflexivity. }
  cbv zeta. rewrite Hi, dir_left, dots_left. simpl.
  split; [lra|]. split; [lra|]. split.
  { rewrite <- dir_left. exact Hd. }
  unfold doReleaseCommon. rewrite Hi, Hd.
  rewrite bool_decide_eq_true_2 by (simpl; lia).
  rewrite bool_decide_eq_true_2 by done.
  assert (Hdist : vlength (vsub (pointAt leftStroke (length leftStroke - 1))
            (getkeyScreenPosition (View := sampleView) (keyAt sampleKeys 1))) = 1).
  { apply vlength_eq; [lra|]. unfold vdot. simpl. ring. }
  rewrite Hdist.
  assert (Hc : collectLoop (view := sampleView) (length sampleKeys) sampleKeys
            (pointAt leftStroke (length leftStroke - 1)) 1 (1 + 1) 1 0 [] []
          = [mkStrokeCache (mkVector 2 0 0) vzero 20]).
  { unfold leftStroke, sampleKeys, keyAt. simpl.
    match goal with
    | |- context [vlength ?v] =>
        replace (vlength v) with 1
          by (symmetry; apply vlength_eq; [lra|unfold vdot; simpl; ring])
    end.
    rewrite bool_decide_eq_false_2 by lra. reflexivity. }
  rewrite Hc.
  assert (Hl : strokeLengths leftStroke = ([30; 0], 30)).
  { unfold strokeLengths, leftStroke.
    cbn [length seq foldl Nat.sub replicate pointAt nth fst snd].
    rewrite !vsub_horizontal, !vlength_horizontal.
    replace (-30 - 0) with (-30) by ring.
    rewrite Rabs_left by lra. cbn. f_equal; [f_equal|]; ring. }
  rewrite Hl. reflexivity.
Qed.

Lemma dir_straight : strokeDirectionalVector straightStroke = mkVector 1 0 0.
Proof.
  unfold strokeDirectionalVector, straightStroke.
  cbn [length Nat.sub seq foldl pointAt nth].
  rewrite !vsub_horizontal. unfold vadd, vzero, vscale. simpl.
  match goal with
  | |- vnormalize ?v = _ =>
      replace v with (mkVector 20 0 0) by (f_equal; field)
  end.
  rewrite vnormalize_horizontal by lra.
  rewrite Rabs_right by lra. f_equal. field.
Qed.

Lemma dots_straight :
  strokeDots (view := sampleView) (mkVector 1 0 0) sampleKeys 0 = (0, -1).
Proof.
  unfold strokeDots, sampleKeys, sampleView, keyAt. simpl.
  rewrite vnormalize_zero, vsub_horizontal.
  rewrite vnormalize_horizontal by lra.
  replace (0 - 3) with (-3) by ring.
  rewrite Rabs_left by lra. unfold vdot. simpl. f_equal; field.
Qed.

Lemma ambiguous_stroke_is_noop_witness :
  doReleaseCommon (view := sampleView) straightStroke sampleKeys 0 = [].
Proof.
  apply (ambiguous_stroke_is_noop (view := sampleView)
           straightStroke sampleKeys 0%Z).
  replace (indexOfKey sampleKeys 0) with 0%Z by reflexivity.
  rewrite dir_straight, dots_straight. left. simpl. split; lra.
Defined.


End StrokeFacts.

(** ** Requests on the parent-matrix cache *)

Module CacheRequestFacts.

Import Linear ParentMatrixCache ParentMatrixCacheFacts CurrentRange.
Local Open Scope Z_scope.

Section Facts.

Context `{scene : Scene}.

Lemma ensure_coherent t s :
  coherent s -> coherent (ensureParentAndPivotMatrixAtTime t s).
Proof.
  intros Hc u m. unfold ensureParentAndPivotMatrixAtTime.
  destruct (pMatrixCache s !! t) eqn:E; [apply Hc|]. simpl.
  destruct (decide (u = t)) as [->|Hne].
  - rewrite lookup_insert_eq. congruence.
  - rewrite lookup_insert_ne by done. apply Hc.
Qed.

Lemma ensureAll_coherent l s : coherent s -> coherent (ensureAll l s).
Proof.
  revert s. induction l as [|i l IH]; intros s Hc; [done|].
  simpl. apply IH. by apply ensure_coherent.
Qed.

Lemma cacheRange_coherent omp a b s :
  coherent s -> coherent (cacheParentMatrixRange omp a b s).
Proof.
  intros Hc. unfold cacheParentMatrixRange.
  destruct (_ && _ && _ && _); [done|].
  destruct (_ && _).
  - intros u m. simpl. apply ensureAll_coherent. by apply ensureAll_coherent.
  - intros u m. simpl. destruct (_ && _).
    + destruct (rebuildThreePhase_lookup a (b - a + 1) (pMatrixCache s) u)
        as [Hin Hout].
      destruct (decide (a <= u < a + (b - a + 1))) as [Hu|Hu].
      * rewrite (Hin Hu). congruence.
      * rewrite (Hout Hu). apply Hc.
    + by apply ensureAll_coherent.
Qed.

(** X1.  Every entry of the cache is what the scene gives at its frame,
    and stays so under any run of requests, in both builds. *)
Theorem coherence_is_preserved omp ops s :
  coherent s -> coherent (exec omp ops s).
Proof.
  revert s. induction ops as [|o ops IH]; intros s Hc; [done|].
  simpl. apply IH. destruct o; simpl.
  - by apply cacheRange_coherent.
  - by apply ensure_coherent.
Qed.

Lemma cacheRange_sequential_stable a b s u m :
  pMatrixCache s !! u = Some m ->
  pMatrixCache (cacheParentMatrixRange false a b s) !! u = Some m.
Proof.
  intros Hu. unfold cacheParentMatrixRange.
  destruct (_ && _ && _ && _); [done|].
  destruct (_ && _); simpl.
  - by do 2 apply ensureAll_lookup_stable.
  - by apply ensureAll_lookup_stable.
Qed.

(** X2.  In the build without OpenMP no run of requests changes or
    removes an entry that the cache holds. *)
Theorem sequential_build_keeps_entries ops s u m :
  pMatrixCache s !! u = Some m ->
  pMatrixCache (exec false ops s) !! u = Some m.
Proof.
  revert s. induction ops as [|o ops IH]; intros s Hu; [done|].
  simpl. apply IH. destruct o; simpl.
  - by apply cacheRange_sequential_stable.
  - by apply ensure_lookup_stable.
Qed.

(** X3.  After [clearParentMatrixCache], a request whose bounds [a] and
    [b] are whole frames leaves the cache valid with the tracked range
    [a, b] and with exactly the whole frames from [a] to [b] as
    entries, each with the matrix that [getPMatrixAtTime] gives at its
    frame. *)
Theorem request_after_clear_rebuilds_request omp a b s :
  let s' := cacheParentMatrixRange omp a b (clearParentMatrixCache s) in
  cachedRangeStart s' = a /\ cachedRangeEnd s' = b
  /\ pMatrixCacheValid s' = true
  /\ forall t, pMatrixCache s' !! t
               = if decide (a <= t <= b) then Some (getPMatrixAtTime t)
                 else None.
Proof.
  intros s'. unfold s'.
  rewrite cacheRange_rebuild_unfold by (by left). simpl.
  repeat split. intros t.
  destruct (_ && _).
  - destruct (rebuildThreePhase_lookup a (b - a + 1) ∅ t) as [Hin Hout].
    destruct (decide (a <= t <= b)) as [Ht|Ht].
    + apply Hin. lia.
    + rewrite Hout by lia. apply lookup_empty.
  - unfold ensureRange. destruct (decide (a <= t <= b)) as [Ht|Ht].
    + apply ensureAll_lookup_fresh; [by apply elem_of_framesFromTo|].
      apply lookup_empty.
    + rewrite ensureAll_lookup_notin.
      * apply lookup_empty.
      * by rewrite elem_of_framesFromTo.
Qed.

(** X4.  With pivots in use, [getPMatrixAtTime] is the parent matrix
    moved by the sum of the rotate pivot and its translation. *)
Theorem pivot_translations_add_up t :
  getPMatrixAtTime t
  = if usePivots
    then mmul (setTranslationRow identity
                 (vadd (rotatePivotAt t) (rotatePivotTranslateAt t)))
              (parentMatrixAt t)
    else parentMatrixAt t.
Proof.
  unfold getPMatrixAtTime. destruct usePivots; [|done].
  unfold mmul, setTranslationRow, identity, vadd. simpl.
  f_equal; ring.
Qed.

(** X5.  The request of the overload without arguments stays inside
    the time range of the scene and contains the current frame, when
    the current frame lies in that range and [framesBack] and
    [framesFront] are not negative.  When moreover the bounds of the
    request and the current frame are whole frames and the tracked
    range was covered before, the current frame is cached after the
    call to [cacheParentMatrixRange(startFrame, endFrame)] that the
    overload ends with. *)
Theorem current_frame_is_cached omp g (currentFrame : R) (a b c : Z) s :
  (0 <= framesBack g)%R -> (0 <= framesFront g)%R ->
  (startTime g <= currentFrame <= endTime g)%R ->
  (live s -> contiguous s) ->
  let r := currentRequest g currentFrame in
  (startTime g <= r.1 /\ r.1 <= currentFrame /\ currentFrame <= r.2
   /\ r.2 <= endTime g)%R
  /\ (r = (IZR a, IZR b) -> currentFrame = IZR c ->
      is_Some (pMatrixCache (cacheParentMatrixRange omp a b s) !! c)).
Proof.
  intros Hb Hf Hc Hs r.
  assert (Hr : (startTime g <= r.1 /\ r.1 <= currentFrame
                /\ currentFrame <= r.2 /\ r.2 <= endTime g)%R).
  { unfold r, currentRequest. simpl. repeat case_bool_decide; lra. }
  split; [exact Hr|]. intros Hab Hcur.
  destruct Hr as (_ & H2 & H3 & _). rewrite Hab, Hcur in H2, H3.
  simpl in H2, H3. apply le_IZR in H2, H3.
  destruct (cacheRange_contiguous omp a b s Hs) as [Hin _].
  apply Hin. lia.
Qed.

Lemma cacheRange_covers_request omp a b s :
  cachedRangeStart (cacheParentMatrixRange omp a b s) <= a
  /\ b <= cachedRangeEnd (cacheParentMatrixRange omp a b s).
Proof.
  unfold cacheParentMatrixRange.
  destruct (_ && _ && _ && _) eqn:Ehit.
  { apply andb_true_iff in Ehit as [Ehit _].
    apply andb_true_iff in Ehit as [Ehit H2].
    apply andb_true_iff in Ehit as [_ H1].
    apply bool_decide_eq_true in H1, H2. lia. }
  destruct (pMatrixCacheValid s
            && bool_decide (0 < size (pMatrixCache s))%nat);
    simpl; repeat case_bool_decide; lia.
Qed.

Lemma framesFromTo_none a b : b < a -> framesFromTo a b = [].
Proof.
  intros Hlt. unfold framesFromTo, seqZ.
  by replace (Z.to_nat (b - a + 1)) with 0%nat by lia.
Qed.

(** X6.  Repeating a request changes nothing: the second call returns
    the state that the first one left. *)
Theorem repeated_request_is_noop omp a b s :
  cacheParentMatrixRange omp a b (cacheParentMatrixRange omp a b s)
  = cacheParentMatrixRange omp a b s.
Proof.
  set (s' := cacheParentMatrixRange omp a b s).
  destruct (cacheRange_covers_request omp a b s) as [Hlo Hhi]. fold s' in Hlo, Hhi.
  destruct (pMatrixCacheValid s'
            && bool_decide (0 < size (pMatrixCache s'))%nat) eqn:E.
  { apply andb_true_iff in E as [Hv Hsz]. apply bool_decide_eq_true in Hsz.
    by apply cacheRange_hit. }
  assert (Hs : needsRebuild s).
  { destruct (pMatrixCacheValid s) eqn:Hv; [|by left].
    destruct (decide (0 < size (pMatrixCache s))%nat) as [Hsz|Hsz];
      [|right; lia].
    destruct (cacheRange_live omp a b s) as [[Hv' Hsz'] _]; [done|].
    fold s' in Hv', Hsz'. rewrite Hv' in E. simpl in E.
    apply bool_decide_eq_false in E. lia. }
  assert (Hba : b < a).
  { destruct (decide (a <= b)) as [Hab|]; [|lia].
    destruct (cacheRange_establishes_live omp a b s Hab) as [Hv' Hsz'].
    fold s' in Hv', Hsz'. rewrite Hv' in E. simpl in E.
    apply bool_decide_eq_false in E. lia. }
  assert (Hs' : s' = mkMotionPath (pMatrixCache s) a b true).
  { unfold s'. rewrite cacheRange_rebuild_unfold by done.
    rewrite (bool_decide_eq_false_2 (b - a + 1 > 50)) by lia.
    rewrite andb_false_r. unfold ensureRange.
    by rewrite framesFromTo_none. }
  rewrite cacheRange_rebuild_unfold.
  2:{ rewrite Hs'. right. simpl. rewrite Hs' in E. simpl in E.
      apply bool_decide_eq_false in E. lia. }
  rewrite (bool_decide_eq_false_2 (b - a + 1 > 50)) by lia.
  rewrite andb_false_r. unfold ensureRange.
  rewrite framesFromTo_none by done. by rewrite Hs'.
Qed.

(** X7.  When the entries of the cache are what the scene gives and the
    tracked range is covered, every whole frame between the bounds of a
    request on whole frames holds, after the call, the matrix that
    [getPMatrixAtTime] gives at that frame. *)
Theorem request_frames_hold_scene_matrices omp a b s t :
  coherent s -> (live s -> contiguous s) -> a <= t <= b ->
  pMatrixCache (cacheParentMatrixRange omp a b s) !! t
  = Some (getPMatrixAtTime t).
Proof.
  intros Hc Hcov Ht.
  destruct (cacheRange_contiguous omp a b s Hcov) as [Hin _].
  destruct (Hin t Ht) as [m Hm]. rewrite Hm. f_equal.
  by apply (cacheRange_coherent omp a b s Hc t).
Qed.

(** X8.  Phase 2 of the rebuild gives the same matrices whatever the
    order in which the indices are handled. *)
Theorem compose_phase_is_schedule_independent schedule1 schedule2 pm rp rpt :
  length rp = length pm -> length rpt = length pm ->
  schedule1 ≡ₚ seq 0 (length pm) -> schedule2 ≡ₚ schedule1 ->
  composeScheduled schedule1 pm rp rpt (replicate (length pm) identity)
  = composeScheduled schedule2 pm rp rpt (replicate (length pm) identity).
Proof.
  intros H1 H2 Hp1 Hp2.
  rewrite !composeScheduled_any_order; try done. by rewrite Hp2.
Qed.

End Facts.

Lemma coherence_is_preserved_witness :
  coherent (H := restScene)
    (exec (H := restScene) true [CacheRange 1 3; EnsureAt 7] newMotionPath).
Proof.
  apply (coherence_is_preserved (scene := restScene)).
  intros t m Hm. simpl in Hm. rewrite lookup_empty in Hm. discriminate.
Defined.

Lemma sequential_build_keeps_entries_witness :
  pMatrixCache
    (exec (H := restScene) false [CacheRange 5 9; CacheRange 1 20]
       (ensureParentAndPivotMatrixAtTime (scene := restScene) 7
          newMotionPath)) !! 7
  = Some identity.
Proof.
  apply (sequential_build_keeps_entries (scene := restScene)).
  reflexivity.
Defined.

Lemma current_frame_is_cached_witness :
  is_Some (pMatrixCache
             (cacheParentMatrixRange (scene := restScene) false 1 8
                newMotionPath) !! 3).
Proof.
  refine (proj2 (current_frame_is_cached (scene := restScene) false
                   sampleSettings 3%R 1 8 3 newMotionPath _ _ _ _) _ _).
  - simpl. lra.
  - simpl. lra.
  - simpl. lra.
  - intros [Hv _]. discriminate.
  - unfold currentRequest. simpl.
    rewrite bool_decide_eq_true_2 by lra.
    rewrite bool_decide_eq_false_2 by lra. f_equal. lra.
  - reflexivity.
Defined.

Lemma request_frames_hold_scene_matrices_witness :
  pMatrixCache
    (cacheParentMatrixRange (scene := restScene) false 1 5 newMotionPath) !! 2
  = Some (getPMatrixAtTime (scene := restScene) 2).
Proof.
  apply (request_frames_hold_scene_matrices (scene := restScene)).
  - intros t m Hm. simpl in Hm. rewrite lookup_empty in Hm. discriminate.
  - intros [Hv _]. discriminate.
  - lia.
Defined.

Lemma compose_phase_is_schedule_independent_witness :
  composeScheduled (scene := restScene) [0; 1]%nat [identity; identity]
    [vzero; vzero] [vzero; vzero] (replicate 2 identity)
  = composeScheduled (scene := restScene) [1; 0]%nat [identity; identity]
      [vzero; vzero] [vzero; vzero] (replicate 2 identity).
Proof.
  apply (compose_phase_is_schedule_independent (scene := restScene)
           [0; 1]%nat [1; 0]%nat [identity; identity]
           [vzero; vzero] [vzero; vzero]).
  - reflexivity.
  - reflexivity.
  - reflexivity.
  - apply Permutation_swap.
Defined.

End CacheRequestFacts.

(** ** Removing keys and time ranges *)

Module CurveEditingFacts.

Import Linear AnimCurves AnimCurvesFacts CurveEditing.
Local Open Scope Z_scope.

Lemma removeDownFrom_keys doomed front back an wt :
  curveKeys (removeDownFrom doomed (length front)
               (mkAnimCurve an wt (front ++ back)))
  = filter (fun k => doomed (keyTime k) = false) front ++ back.
Proof.
  revert back. induction front as [|k front IH] using rev_ind; intros back.
  { done. }
  rewrite length_app. simpl. rewrite Nat.add_1_r. cbn [removeDownFrom].
  replace ((front ++ [k]) ++ back) with (front ++ k :: back)
    by (by rewrite <- app_assoc).
  assert (Hat : timeAt (mkAnimCurve an wt (front ++ k :: back))
                  (length front) = keyTime k).
  { unfold timeAt. simpl. by rewrite list_lookup_middle. }
  rewrite Hat, filter_app.
  destruct (doomed (keyTime k)) eqn:Hd.
  - unfold remove. simpl. rewrite delete_middle, IH.
    rewrite filter_cons_False by (by rewrite Hd).
    by rewrite filter_nil, app_nil_r.
  - rewrite IH, filter_cons_True by done.
    by rewrite filter_nil, <- app_assoc.
Qed.

Lemma removeDownFrom_all doomed curve :
  curveKeys (removeDownFrom doomed (numKeys curve) curve)
  = filter (fun k => doomed (keyTime k) = false) (curveKeys curve).
Proof.
  destruct curve as [an wt keys]. unfold numKeys. simpl.
  rewrite <- (app_nil_r keys) at 2.
  rewrite removeDownFrom_keys. by rewrite !app_nil_r.
Qed.

Lemma removeDownFrom_flags doomed n curve :
  curveAnimatable (removeDownFrom doomed n curve) = curveAnimatable curve
  /\ curveWeighted (removeDownFrom doomed n curve) = curveWeighted curve.
Proof.
  revert curve. induction n as [|n IH]; intros curve; [done|].
  simpl. destruct (IH (if doomed (timeAt curve n) then remove curve n
                       else curve)) as [-> ->].
  by destruct (doomed _).
Qed.

Lemma afterTime_keys time curve :
  curveKeys (deleteKeyFramesAfterTime time curve)
  = filter (fun k => keyTime k <= time) (curveKeys curve).
Proof.
  unfold deleteKeyFramesAfterTime. rewrite removeDownFrom_all.
  apply list_filter_iff. intros k. rewrite bool_decide_eq_false. lia.
Qed.

Lemma betweenTimes_keys startTime endTime curve :
  curveKeys (deleteKeyFramesBetweenTimes startTime endTime curve)
  = filter (fun k => ~ (startTime < keyTime k <= endTime)) (curveKeys curve).
Proof.
  unfold deleteKeyFramesBetweenTimes. rewrite removeDownFrom_all.
  apply list_filter_iff. intros k.
  rewrite andb_false_iff, !bool_decide_eq_false. lia.
Qed.

(** X9.  On each of the six curves of a track,
    [deleteAllKeyFramesAfterTime] leaves exactly the keys whose time is
    not after [time], and [deleteAllKeyFramesInRange] exactly the keys
    outside (startTime, endTime]; the keys left are unchanged and in
    their order. *)
Theorem range_deletion_keeps_exactly_the_keys_outside startTime endTime c :
  keysOfAll (deleteAllKeyFramesAfterTime endTime c)
  = filter (fun k => keyTime k <= endTime) <$> keysOfAll c
  /\ keysOfAll (deleteAllKeyFramesInRange startTime endTime c)
     = filter (fun k => ~ (startTime < keyTime k <= endTime)) <$> keysOfAll c.
Proof.
  unfold keysOfAll, deleteAllKeyFramesAfterTime, deleteAllKeyFramesInRange,
    onAllCurves, allCurves. simpl.
  by rewrite !afterTime_keys, !betweenTimes_keys.
Qed.

Lemma timeAt_lookup curve i key :
  curveKeys curve !! i = Some key -> timeAt curve i = keyTime key.
Proof. intros H. unfold timeAt. by rewrite H. Qed.

Lemma first_key_not_after_last curve :
  ascendingKeys curve = true -> (0 < numKeys curve)%nat ->
  timeAt curve 0 <= timeAt curve (numKeys curve - 1).
Proof.
  intros Hasc Hn. unfold numKeys in *.
  destruct (lookup_lt_is_Some_2 (curveKeys curve) 0) as [a Ha]; [done|].
  destruct (lookup_lt_is_Some_2 (curveKeys curve)
              (length (curveKeys curve) - 1)) as [b Hb]; [lia|].
  rewrite (timeAt_lookup _ _ _ Ha), (timeAt_lookup _ _ _ Hb).
  destruct (decide (length (curveKeys curve) - 1 = 0)%nat) as [He|He].
  - rewrite He in Hb. assert (a = b) by congruence. subst. lia.
  - pose proof (ascending_lookup (keyTime <$> curveKeys curve) 0
                  (length (curveKeys curve) - 1) (keyTime a) (keyTime b)
                  Hasc) as H.
    rewrite !list_lookup_fmap, Ha, Hb in H.
    specialize (H eq_refl eq_refl). lia.
Qed.

(** X10.  [getMinTime] gives the conversion to [int] of the least
    first-key time of the three curves and [getMaxTime] that of their
    greatest last-key time, also when two of them tie; a whole frame
    inside the range of [int] is converted to itself. *)
Theorem getMinTime_getMaxTime_are_extremes cx cy cz :
  getMinTime cx cy cz
  = toInt (Z.min (timeAt cx 0) (Z.min (timeAt cy 0) (timeAt cz 0)))
  /\ getMaxTime cx cy cz
     = toInt (Z.max (timeAt cx (numKeys cx - 1))
                    (Z.max (timeAt cy (numKeys cy - 1))
                           (timeAt cz (numKeys cz - 1))))
  /\ forall t, inIntRange t -> toInt t = t.
Proof.
  unfold getMinTime, getMaxTime. split; [|split].
  - repeat case_bool_decide; simpl; f_equal; lia.
  - repeat case_bool_decide; simpl; f_equal; lia.
  - intros t Ht. unfold toInt. by rewrite bool_decide_eq_true_2.
Qed.

Lemma toInt_first_not_after_last curve :
  plainTimes curve -> (0 < numKeys curve)%nat ->
  toInt (timeAt curve 0) = timeAt curve 0
  /\ toInt (timeAt curve (numKeys curve - 1)) = timeAt curve (numKeys curve - 1)
  /\ timeAt curve 0 <= timeAt curve (numKeys curve - 1).
Proof.
  intros [Hasc Hr] Hn.
  split; [|split; [|by apply first_key_not_after_last]].
  - destruct (lookup_lt_is_Some_2 (curveKeys curve) 0) as [a Ha];
      [done|].
    rewrite (timeAt_lookup _ _ _ Ha). unfold toInt.
    rewrite bool_decide_eq_true_2; [done|].
    rewrite Forall_forall in Hr. apply Hr. by eapply list_elem_of_lookup_2.
  - destruct (lookup_lt_is_Some_2 (curveKeys curve) (numKeys curve - 1))
      as [a Ha]; [unfold numKeys in *; lia|].
    rewrite (timeAt_lookup _ _ _ Ha). unfold toInt.
    rewrite bool_decide_eq_true_2; [done|].
    rewrite Forall_forall in Hr. apply Hr. by eapply list_elem_of_lookup_2.
Qed.

Lemma actualRange_ordered startTime endTime cx cy cz :
  startTime <= endTime ->
  plainTimes cx -> plainTimes cy -> plainTimes cz ->
  (actualRange startTime endTime cx cy cz).1
  <= (actualRange startTime endTime cx cy cz).2.
Proof.
  intros Hse Hx Hy Hz. unfold actualRange.
  destruct (bool_decide (0 < numKeys cx)%nat) eqn:Ex; [|done].
  destruct (bool_decide (0 < numKeys cy)%nat) eqn:Ey; [|done].
  destruct (bool_decide (0 < numKeys cz)%nat) eqn:Ez; [|done].
  apply bool_decide_eq_true in Ex, Ey, Ez. simpl.
  destruct (toInt_first_not_after_last cx Hx Ex) as (Hx0 & Hx1 & ?).
  destruct (toInt_first_not_after_last cy Hy Ey) as (Hy0 & Hy1 & ?).
  destruct (toInt_first_not_after_last cz Hz Ez) as (Hz0 & Hz1 & ?).
  unfold getMinTime, getMaxTime.
  rewrite Hx0, Hy0, Hz0, Hx1, Hy1, Hz1.
  repeat case_bool_decide; simpl; lia.
Qed.

(** X11.  Let [r] be the range that [setDisplayTimeRange] derives:
    [getMinTime] and [getMaxTime] of the translation curves when each
    of them has a key, the time range of the track otherwise.  When
    [r] is ordered, whatever range is asked for, the display range set
    is ordered and lies inside [r], and a request that is ordered and
    inside [r] is taken as it is.  And [r] is ordered when the time
    range of the track is and the key times of the three curves ascend
    inside the range of [int]. *)
Theorem display_range_is_ordered_and_clamped startTime endTime cx cy cz
    start end_ :
  let r := actualRange startTime endTime cx cy cz in
  let d := setDisplayTimeRange startTime endTime cx cy cz start end_ in
  (r.1 <= r.2 ->
   r.1 <= d.1 /\ d.1 <= d.2 /\ d.2 <= r.2
   /\ (r.1 <= start -> start <= end_ -> end_ <= r.2 -> d = (start, end_)))
  /\ (startTime <= endTime ->
      plainTimes cx -> plainTimes cy -> plainTimes cz -> r.1 <= r.2).
Proof.
  intros r d. split; [|by apply actualRange_ordered].
  intros Hr. unfold d, setDisplayTimeRange. fold r.
  destruct r as [lo hi]. simpl in *.
  repeat case_bool_decide; simpl; repeat split; try lia;
    intros; f_equal; lia.
Qed.

(** X12.  On a curve whose key times ascend, [isCurveBoundaryKey] holds
    exactly at the time of the first key and at the time of the last. *)
Theorem isCurveBoundaryKey_iff curve time :
  ascendingKeys curve = true ->
  isCurveBoundaryKey curve time = true
  <-> (0 < numKeys curve)%nat
      /\ (time = timeAt curve 0 \/ time = timeAt curve (numKeys curve - 1)).
Proof.
  intros Hasc. unfold isCurveBoundaryKey. split.
  - unfold find.
    destruct (list_find _ _) as [[j k]|] eqn:E; simpl; [|done].
    apply list_find_Some in E as (Hj & Hk & _).
    pose proof (lookup_lt_Some _ _ _ Hj) as Hlt. fold (numKeys curve) in Hlt.
    intros Hb. split; [lia|].
    apply orb_true_iff in Hb as [Hb|Hb]; apply bool_decide_eq_true in Hb;
      subst j; rewrite (timeAt_lookup _ _ _ Hj); auto.
  - intros [Hn [Ht|Ht]].
    + destruct (lookup_lt_is_Some_2 (curveKeys curve) 0) as [a Ha]; [done|].
      rewrite (timeAt_lookup _ _ _ Ha) in Ht. subst time.
      rewrite (find_ascending _ _ _ Hasc Ha).
      by rewrite bool_decide_eq_true_2.
    + destruct (lookup_lt_is_Some_2 (curveKeys curve) (numKeys curve - 1))
        as [a Ha]; [unfold numKeys in *; lia|].
      rewrite (timeAt_lookup _ _ _ Ha) in Ht. subst time.
      rewrite (find_ascending _ _ _ Hasc Ha).
      rewrite (bool_decide_eq_true_2 (_ = (numKeys curve - 1)%nat)) by done.
      apply orb_true_r.
Qed.

Lemma delete_two_lookup {A} (l : list A) (a b i : nat) :
  (a < b)%nat ->
  delete a (delete b l) !! i
  = l !! (if decide (i < a)%nat then i
          else if decide (i + 1 < b)%nat then (i + 1)%nat else (i + 2)%nat).
Proof.
  intros Hab. destruct (decide (i < a)%nat) as [Hia|Hia].
  - rewrite list_lookup_delete_lt by done. rewrite list_lookup_delete_lt by lia. done.
  - rewrite list_lookup_delete_ge by lia.
    destruct (decide (i + 1 < b)%nat) as [Hib|Hib].
    + rewrite list_lookup_delete_lt by lia. f_equal. lia.
    + rewrite list_lookup_delete_ge by lia. f_equal. lia.
Qed.

(** X13.  Given two indices in either order, [cleanExtraKeysForClipboard]
    removes the key at the higher index first, so that the keys left
    are those of the curve at all other indices, in their order. *)
Theorem cleanExtraKeys_removes_both_keys curve a b keys i :
  0 <= a < b -> b < 2 ^ 32 ->
  keys = [a; b] \/ keys = [b; a] ->
  curveKeys (cleanExtraKeysForClipboard curve keys) !! i
  = curveKeys curve
      !! (if decide (i < Z.to_nat a)%nat then i
          else if decide (i + 1 < Z.to_nat b)%nat then (i + 1)%nat
               else (i + 2)%nat).
Proof.
  intros Ha Hb Hkeys.
  assert (Hres : curveKeys (cleanExtraKeysForClipboard curve keys)
                 = delete (Z.to_nat a) (delete (Z.to_nat b) (curveKeys curve))).
  { unfold cleanExtraKeysForClipboard, asUnsigned.
    destruct Hkeys as [-> | ->]; simpl.
    - rewrite bool_decide_eq_true_2 by lia. simpl.
      by rewrite !Z.mod_small by lia.
    - rewrite bool_decide_eq_false_2 by lia. simpl.
      by rewrite !Z.mod_small by lia. }
  rewrite Hres. apply delete_two_lookup. lia.
Qed.

Lemma display_range_is_ordered_and_clamped_witness :
  (setDisplayTimeRange 1 100 sampleWeightedCurve sampleWeightedCurve
     sampleWeightedCurve 50 (-5)).1
  <= (setDisplayTimeRange 1 100 sampleWeightedCurve sampleWeightedCurve
        sampleWeightedCurve 50 (-5)).2.
Proof.
  refine (proj1 (proj2 (proj1 (display_range_is_ordered_and_clamped 1 100
            sampleWeightedCurve sampleWeightedCurve sampleWeightedCurve
            50 (-5)) _))).
  vm_compute. discriminate.
Defined.

Lemma isCurveBoundaryKey_iff_witness :
  isCurveBoundaryKey sampleWeightedCurve 20 = true.
Proof.
  apply (isCurveBoundaryKey_iff sampleWeightedCurve 20 eq_refl).
  split; [unfold numKeys; simpl; lia|]. right. reflexivity.
Defined.

Lemma cleanExtraKeys_removes_both_keys_witness :
  keyTimeAt (cleanExtraKeysForClipboard sampleWeightedCurve [2; 0]) 0
  = Some 10.
Proof.
  unfold keyTimeAt.
  rewrite (cleanExtraKeys_removes_both_keys sampleWeightedCurve 0 2 [2; 0] 0);
    [reflexivity|lia|reflexivity|by right].
Defined.

End CurveEditingFacts.

(** ** Queries on the keyframe cache *)

Module KeyQueriesFacts.

Import Linear AnimCurves KeyframeCache KeyQueries.
Local Open Scope Z_scope.

(** X15.  [getKeyTranslateAxis] leaves what the vector holds and pushes
    onto its back, once each and in the order x, y, z, exactly the axes
    whose translation key id is not -1; [hasTranslationXYZ] holds
    exactly when all three ids differ from -1.  Likewise
    [getKeyRotateAxis] and [hasRotationXYZ] for the rotation key
    ids. *)
Theorem key_axes_are_the_keyed_ones k axis :
  getKeyTranslateAxis k axis
  = axis ++ filter (fun a => keyId a k <> -1) [kAxisX; kAxisY; kAxisZ]
  /\ (hasTranslationXYZ k = true <-> forall a, keyId a k <> -1)
  /\ getKeyRotateAxis k axis
     = axis ++ filter (fun a => rotKeyId a k <> -1) [kAxisX; kAxisY; kAxisZ]
  /\ (hasRotationXYZ k = true <-> forall a, rotKeyId a k <> -1).
Proof.
  split; [|split; [|split]].
  - unfold getKeyTranslateAxis. rewrite !filter_cons, filter_nil. simpl.
    repeat case_decide; repeat case_bool_decide; try done;
      rewrite <- ?app_assoc; simpl; by rewrite ?app_nil_r.
  - unfold hasTranslationXYZ. rewrite !andb_true_iff, !bool_decide_eq_true.
    split.
    + intros [[Hx Hy] Hz] a. by destruct a.
    + intros Ha. repeat split.
      * apply (Ha kAxisX).
      * apply (Ha kAxisY).
      * apply (Ha kAxisZ).
  - unfold getKeyRotateAxis. rewrite !filter_cons, filter_nil. simpl.
    repeat case_decide; repeat case_bool_decide; try done;
      rewrite <- ?app_assoc; simpl; by rewrite ?app_nil_r.
  - unfold hasRotationXYZ. rewrite !andb_true_iff, !bool_decide_eq_true.
    split.
    + intros [[Hx Hy] Hz] a. by destruct a.
    + intros Ha. repeat split.
      * apply (Ha kAxisX).
      * apply (Ha kAxisY).
      * apply (Ha kAxisZ).
Qed.

Lemma elem_of_sortedTimes cache t :
  t ∈ sortedTimes cache <-> is_Some (cache !! t).
Proof.
  unfold sortedTimes. rewrite merge_sort_Permutation, list_elem_of_fmap. split.
  - intros [[t' k] [-> Hk]]. apply elem_of_map_to_list in Hk. by exists k.
  - intros [k Hk]. exists (t, k). split; [done|]. by apply elem_of_map_to_list.
Qed.

Lemma NoDup_sortedTimes cache : NoDup (sortedTimes cache).
Proof.
  unfold sortedTimes. rewrite merge_sort_Permutation.
  apply NoDup_fst_map_to_list.
Qed.

Lemma Sorted_sortedTimes cache : Sorted Z.le (sortedTimes cache).
Proof. apply Sorted_merge_sort, _. Qed.

Lemma sortedTimes_ext (c1 c2 : gmap Z Keyframe) :
  (forall t, is_Some (c1 !! t) <-> is_Some (c2 !! t)) ->
  sortedTimes c1 = sortedTimes c2.
Proof.
  intros Hdom.
  apply (Sorted_unique Z.le); [apply Sorted_sortedTimes..|].
  apply NoDup_Permutation; [apply NoDup_sortedTimes..|].
  intros t. by rewrite !elem_of_sortedTimes.
Qed.

Lemma strictly_sorted (l : list Z) :
  Sorted Z.le l -> NoDup l -> StronglySorted Z.lt l.
Proof.
  intros Hs Hn. apply Sorted_StronglySorted in Hs; [|intros ???; lia].
  induction Hs as [|a l Hs IH Ha]; [constructor|].
  apply NoDup_cons in Hn as [Hna Hn]. constructor; [by apply IH|].
  rewrite Forall_forall in *. intros b Hb.
  specialize (Ha b Hb). assert (a <> b) by (intros ->; done). lia.
Qed.

Lemma getKeys_sortedTimes cache : getKeys cache = sortedTimes cache.
Proof.
  unfold getKeys.
  apply (Sorted_unique Z.le);
    [apply Sorted_merge_sort, _|apply Sorted_sortedTimes|].
  apply merge_sort_Permutation.
Qed.

(** X16.  [getKeys] lists the times of the records, each once, in
    strictly ascending order, as many as [getNumKeyFrames] counts; and
    [getSelectedKeys] lists the selected times in the same way. *)
Theorem getKeys_lists_record_times_ascending cache selectedKeyTimes :
  StronglySorted Z.lt (getKeys cache)
  /\ (forall t, t ∈ getKeys cache <-> is_Some (cache !! t))
  /\ length (getKeys cache) = getNumKeyFrames cache
  /\ StronglySorted Z.lt (getSelectedKeys selectedKeyTimes)
  /\ (forall t, t ∈ getSelectedKeys selectedKeyTimes <-> t ∈ selectedKeyTimes).
Proof.
  rewrite getKeys_sortedTimes. split; [|split; [|split; [|split]]].
  - apply strictly_sorted; [apply Sorted_sortedTimes|apply NoDup_sortedTimes].
  - apply elem_of_sortedTimes.
  - unfold sortedTimes, getNumKeyFrames.
    rewrite merge_sort_Permutation, length_fmap.
    apply length_map_to_list.
  - unfold getSelectedKeys. case_bool_decide; [constructor|].
    apply strictly_sorted; [apply Sorted_merge_sort, _|].
    rewrite merge_sort_Permutation. apply NoDup_elements.
  - intros t. unfold getSelectedKeys. case_bool_decide as Hsz.
    + apply size_empty_inv in Hsz. rewrite elem_of_nil. set_solver.
    + rewrite merge_sort_Permutation. apply elem_of_elements.
Qed.

Lemma records_lookup cache j t k :
  sortedTimes cache !! j = Some t -> cache !! t = Some k ->
  records cache !! j = Some k.
Proof.
  intros Hj Hk. unfold records, recordAt.
  by rewrite list_lookup_fmap, Hj; simpl; rewrite Hk.
Qed.

Lemma elem_of_records cache k :
  k ∈ records cache <-> exists t, cache !! t = Some k.
Proof.
  unfold records. rewrite list_elem_of_fmap. split.
  - intros [t [-> Ht]]. apply elem_of_sortedTimes in Ht as [k Hk].
    exists t. unfold recordAt. by rewrite Hk.
  - intros [t Hk]. exists t. split.
    + unfold recordAt. by rewrite Hk.
    + apply elem_of_sortedTimes. by exists k.
Qed.

Lemma getTimeFromKeyId_unknown cache i :
  (forall t k, cache !! t = Some k -> id k <> i) ->
  getTimeFromKeyId cache i = 0.
Proof.
  intros Hno. unfold getTimeFromKeyId.
  destruct (list_find (fun key => id key = i) (records cache))
    as [[j key]|] eqn:E; [|done].
  apply list_find_Some in E as (Hj & Hid & _).
  apply list_elem_of_lookup_2, elem_of_records in Hj as [t Ht].
  by destruct (Hno t key Ht).
Qed.

Section Finish.

Context (track : Track).
Hypothesis counted : cameraSpace track && negb (hasCameraCache track) = false.

Lemma finishKey_id i k : id (finishKey track i k) = i.
Proof.
  unfold finishKey. destruct k. simpl.
  case_bool_decide; destruct (isDrawing track); done.
Qed.

Lemma finishKey_time i k : time (finishKey track i k) = time k.
Proof.
  unfold finishKey. destruct k. simpl.
  case_bool_decide; destruct (isDrawing track); done.
Qed.

Lemma finish_fold (l : list Z) (c : gmap Z Keyframe) (n : Z) :
  NoDup l ->
  let r := foldl (fun (acc : gmap Z Keyframe * Z) (t : Z) =>
                    (alter (finishKey track acc.2) t acc.1,
                     if cameraSpace track && negb (hasCameraCache track)
                     then acc.2 else acc.2 + 1)) (c, n) l in
  (forall j t, l !! j = Some t ->
     r.1 !! t = finishKey track (n + Z.of_nat j) <$> c !! t)
  /\ (forall t, t ∉ l -> r.1 !! t = c !! t).
Proof using counted.
  revert c n. induction l as [|a l IH]; intros c n Hnd r.
  { split; [done|]. by intros. }
  apply NoDup_cons in Hnd as [Ha Hnd]. unfold r. cbn [foldl]. simpl.
  assert (Hc : (if cameraSpace track && negb (hasCameraCache track)
                then n else n + 1) = n + 1) by (by rewrite counted).
  rewrite Hc.
  destruct (IH (alter (finishKey track n) a c) (n + 1) Hnd) as [Hin Hout].
  split.
  - intros [|j] t Hj; simpl in Hj.
    + injection Hj as ->. rewrite (Hout t Ha), lookup_alter_eq.
      by rewrite Z.add_0_r.
    + rewrite (Hin j t Hj).
      rewrite lookup_alter_ne
        by (intros ->; apply Ha; by eapply list_elem_of_lookup_2).
      do 2 f_equal. lia.
  - intros t Ht. apply not_elem_of_cons in Ht as [Hne Ht].
    rewrite (Hout t Ht). by rewrite lookup_alter_ne.
Qed.

Lemma finishKeys_lookup cache j t :
  sortedTimes cache !! j = Some t ->
  finishKeys track cache !! t = finishKey track (Z.of_nat j) <$> cache !! t.
Proof using counted.
  intros Hj. unfold finishKeys.
  destruct (finish_fold (sortedTimes cache) cache 0 (NoDup_sortedTimes cache))
    as [Hin _].
  by rewrite (Hin j t Hj).
Qed.

Lemma finishKeys_dom cache t :
  is_Some (finishKeys track cache !! t) <-> is_Some (cache !! t).
Proof using counted.
  destruct (decide (t ∈ sortedTimes cache)) as [Hin|Hout].
  - apply list_elem_of_lookup_1 in Hin as [j Hj].
    rewrite (finishKeys_lookup _ _ _ Hj). by rewrite fmap_is_Some.
  - unfold finishKeys.
    destruct (finish_fold (sortedTimes cache) cache 0
                (NoDup_sortedTimes cache)) as [_ Hnot].
    by rewrite (Hnot t Hout).
Qed.

(** X17.  Unless the build runs in camera space without a camera cache,
    the last loop of [cacheKeyFrames] numbers the records by ascending
    time: the id of the j-th key of [getKeys] is j, [getTimeFromKeyId]
    leads from that id back to the time of the key, and it answers 0
    for every id that is no position in [getKeys]. *)
Theorem key_id_leads_back_to_key_time cache :
  stamped cache ->
  (forall j t, getKeys cache !! j = Some t ->
     (exists k, finishKeys track cache !! t = Some k /\ id k = Z.of_nat j)
     /\ getTimeFromKeyId (finishKeys track cache) (Z.of_nat j) = t)
  /\ (forall i, i < 0 \/ Z.of_nat (length (getKeys cache)) <= i ->
        getTimeFromKeyId (finishKeys track cache) i = 0).
Proof using counted.
  intros Hst. rewrite getKeys_sortedTimes. split.
  - intros j t Hj.
    assert (Hk : is_Some (cache !! t)).
    { apply elem_of_sortedTimes. by eapply list_elem_of_lookup_2. }
    destruct Hk as [k Hk]. split.
    { exists (finishKey track (Z.of_nat j) k).
      rewrite (finishKeys_lookup _ _ _ Hj), Hk. split; [done|].
      apply finishKey_id. }
    assert (Hsame : sortedTimes (finishKeys track cache) = sortedTimes cache).
    { apply sortedTimes_ext. intros u. apply finishKeys_dom. }
    unfold getTimeFromKeyId.
    assert (Hfind : list_find (fun key => id key = Z.of_nat j)
                      (records (finishKeys track cache))
                    = Some (j, finishKey track (Z.of_nat j) k)).
    { apply list_find_Some. split; [|split].
      - apply (records_lookup _ _ t); [by rewrite Hsame|].
        by rewrite (finishKeys_lookup _ _ _ Hj), Hk.
      - apply finishKey_id.
      - intros i y Hi Hlt. unfold records in Hi.
        rewrite list_lookup_fmap, Hsame in Hi.
        destruct (sortedTimes cache !! i) as [u|] eqn:Hu; [|done].
        simpl in Hi. injection Hi as <-. unfold recordAt.
        rewrite (finishKeys_lookup _ _ _ Hu).
        assert (Hku : is_Some (cache !! u)).
        { apply elem_of_sortedTimes. by eapply list_elem_of_lookup_2. }
        destruct Hku as [ku ->]. simpl. rewrite finishKey_id. lia. }
    rewrite Hfind, finishKey_time. by apply Hst.
  - intros i Hi. apply getTimeFromKeyId_unknown. intros t k Hk.
    assert (Ht : t ∈ sortedTimes cache).
    { apply elem_of_sortedTimes, finishKeys_dom. by rewrite Hk. }
    apply list_elem_of_lookup_1 in Ht as [j Hj].
    pose proof (lookup_lt_Some _ _ _ Hj) as Hlt.
    rewrite (finishKeys_lookup _ _ _ Hj) in Hk.
    destruct (cache !! t) as [k0|]; [|done]. simpl in Hk.
    injection Hk as <-. rewrite finishKey_id. lia.
Qed.

End Finish.


Lemma boundaryStep_inv time_ seen acc key :
  boundsInv time_ seen acc ->
  boundsInv time_ (seen ++ [time key]) (boundaryStep time_ acc key).
Proof.
  intros [Hmin Hmax]. unfold boundaryStep, boundsInv.
  destruct acc as [[mn|] [mx|]]; simpl in *;
    repeat case_bool_decide; simpl; split;
    repeat match goal with
    | H : _ /\ _ |- _ => destruct H
    | |- _ /\ _ => split
    | |- _ ∈ _ ++ _ => apply elem_of_app; first [by left | right; by apply list_elem_of_singleton]
    | |- forall _, _ => intros u Hu; try intros Hlt;
        apply elem_of_app in Hu as [Hu|Hu];
        [|apply list_elem_of_singleton in Hu; subst u]
    end; try lia;
    repeat match goal with
    | H : forall u, u ∈ seen -> _, Hu : _ ∈ seen |- _ =>
        pose proof (H _ Hu); clear H
    end; try lia.
Qed.

Lemma boundaryFold_inv time_ seen acc l :
  boundsInv time_ seen acc ->
  boundsInv time_ (seen ++ (time <$> l)) (foldl (boundaryStep time_) acc l).
Proof.
  revert seen acc. induction l as [|key l IH]; intros seen acc Hinv.
  { by rewrite app_nil_r. }
  simpl. rewrite cons_middle, app_assoc. apply IH.
  by apply boundaryStep_inv.
Qed.

Lemma elem_of_record_times cache u :
  u ∈ time <$> records cache <-> recordTime cache u.
Proof.
  rewrite list_elem_of_fmap. unfold recordTime. split.
  - intros [k [-> Hk]]. apply elem_of_records in Hk as [t Ht]. by exists t, k.
  - intros (t & k & Hk & <-). exists k. split; [done|].
    apply elem_of_records. by exists t.
Qed.

(** X18.  [getBoundariesForTime] gives, on each side of [time], the time
    of the nearest record; a side without a record keeps the value that
    the caller passed in. *)
Theorem getBoundariesForTime_gives_nearest_records cache time_ lo hi :
  let r := getBoundariesForTime cache time_ lo hi in
  ((forall u, recordTime cache u -> ~ u < time_) -> r.1 = lo)
  /\ ((exists u, recordTime cache u /\ u < time_) ->
      recordTime cache r.1 /\ r.1 < time_
      /\ forall u, recordTime cache u -> u < time_ -> u <= r.1)
  /\ ((forall u, recordTime cache u -> ~ time_ < u) -> r.2 = hi)
  /\ ((exists u, recordTime cache u /\ time_ < u) ->
      recordTime cache r.2 /\ time_ < r.2
      /\ forall u, recordTime cache u -> time_ < u -> r.2 <= u).
Proof.
  intros r. unfold r, getBoundariesForTime.
  assert (Hinv : boundsInv time_ (time <$> records cache)
                   (foldl (boundaryStep time_) (None, None) (records cache))).
  { apply (boundaryFold_inv time_ [] (None, None)).
    split; simpl; intros u Hu; inversion Hu. }
  pose proof (elem_of_record_times cache) as Hrt.
  destruct (foldl (boundaryStep time_) (None, None) (records cache))
    as [mn mx].
  destruct Hinv as [Hmin Hmax]. cbn [fst snd] in *.
  assert (Hlo : ((forall u, recordTime cache u -> ~ u < time_) ->
                 default lo mn = lo)
                /\ ((exists u, recordTime cache u /\ u < time_) ->
                    recordTime cache (default lo mn) /\ default lo mn < time_
                    /\ forall u, recordTime cache u -> u < time_ ->
                         u <= default lo mn)).
  { destruct mn as [m|]; simpl.
    - destruct Hmin as (Hm & Hlt & Hbest). apply Hrt in Hm. split.
      + intros Hno. by destruct (Hno m Hm).
      + intros _. split; [done|]. split; [done|].
        intros u Hu Hul. apply Hbest; [by apply Hrt|done].
    - split; [done|]. intros (u & Hu & Hul). apply Hrt in Hu.
      by destruct (Hmin u Hu). }
  assert (Hhi : ((forall u, recordTime cache u -> ~ time_ < u) ->
                 default hi mx = hi)
                /\ ((exists u, recordTime cache u /\ time_ < u) ->
                    recordTime cache (default hi mx) /\ time_ < default hi mx
                    /\ forall u, recordTime cache u -> time_ < u ->
                         default hi mx <= u)).
  { destruct mx as [m|]; simpl.
    - destruct Hmax as (Hm & Hlt & Hbest). apply Hrt in Hm. split.
      + intros Hno. by destruct (Hno m Hm).
      + intros _. split; [done|]. split; [done|].
        intros u Hu Hul. apply Hbest; [by apply Hrt|done].
    - split; [done|]. intros (u & Hu & Hul). apply Hrt in Hu.
      by destruct (Hmax u Hu). }
  tauto.
Qed.


Lemma selection_fold (f : Keyframe -> Keyframe)
    (g : Keyframe -> gset Z -> gset Z) (l : list Z) (c : gmap Z Keyframe)
    (s : gset Z) :
  NoDup l ->
  let r := foldl (fun (acc : Selection) (t : Z) =>
                    (<[t := f (recordAt acc.1 t)]> acc.1,
                     g (f (recordAt acc.1 t)) acc.2)) (c, s) l in
  (forall t, r.1 !! t
             = if decide (t ∈ l) then Some (f (recordAt c t)) else c !! t)
  /\ r.2 = foldl (fun s t => g (f (recordAt c t)) s) s l.
Proof.
  revert c s. induction l as [|a l IH]; intros c s Hnd r.
  { split; [|done]. intros t. by rewrite decide_False by (by inversion 1). }
  apply NoDup_cons in Hnd as [Ha Hnd]. unfold r. cbn [foldl fst snd].
  destruct (IH (<[a := f (recordAt c a)]> c) (g (f (recordAt c a)) s) Hnd)
    as [Hmap Hset].
  assert (Hrec : forall t, t ∈ l ->
            recordAt (<[a := f (recordAt c a)]> c) t = recordAt c t).
  { intros t Ht. unfold recordAt at 1.
    rewrite lookup_insert_ne by (by intros ->). done. }
  split.
  - intros t. rewrite Hmap. destruct (decide (t ∈ l)) as [Hin|Hout].
    + rewrite decide_True by (by right). by rewrite Hrec.
    + destruct (decide (t = a)) as [->|Hne].
      * rewrite decide_True by (by left). by rewrite lookup_insert_eq.
      * rewrite decide_False by (by intros [?|?]%elem_of_cons).
        by rewrite lookup_insert_ne.
  - rewrite Hset. clear -Hrec. revert Hrec.
    generalize (g (f (recordAt c a)) s). 
    induction l as [|b l IH]; intros s0 Hrec; [done|]. simpl.
    rewrite Hrec by (by left). apply IH. intros t Ht. apply Hrec. by right.
Qed.

Lemma recordAt_sorted cache t :
  t ∈ sortedTimes cache -> cache !! t = Some (recordAt cache t).
Proof.
  intros [k Hk]%elem_of_sortedTimes. unfold recordAt. by rewrite Hk.
Qed.

Lemma setSelected_own k : setSelectedFromTool (selectedFromTool k) k = k.
Proof. by destruct k. Qed.

Lemma setSelected_twice a b k :
  setSelectedFromTool a (setSelectedFromTool b k) = setSelectedFromTool a k.
Proof. by destruct k. Qed.

Lemma selected_set b k : selectedFromTool (setSelectedFromTool b k) = b.
Proof. by destruct k. Qed.

Lemma time_setSelected b k : time (setSelectedFromTool b k) = time k.
Proof. by destruct k. Qed.

Lemma invert_lookup st t :
  (invertKeysSelection st).1 !! t
  = (fun k => setSelectedFromTool (negb (selectedFromTool k)) k) <$> st.1 !! t.
Proof.
  unfold invertKeysSelection.
  destruct (selection_fold
              (fun k => setSelectedFromTool (negb (selectedFromTool k)) k)
              (fun key s => if selectedFromTool key
                            then {[time key]} ∪ s else s)
              (sortedTimes st.1) st.1 ∅ (NoDup_sortedTimes _)) as [Hmap _].
  rewrite Hmap. destruct (decide (t ∈ sortedTimes st.1)) as [Hin|Hout].
  - by rewrite (recordAt_sorted _ _ Hin).
  - destruct (st.1 !! t) eqn:E; [|done].
    exfalso. apply Hout, elem_of_sortedTimes. by rewrite E.
Qed.

Lemma select_set_fold (P : Keyframe -> bool) (h : Z -> Keyframe)
    (l : list Z) (s : gset Z) (x : Z) :
  x ∈ foldl (fun s t => if P (h t) then {[time (h t)]} ∪ s else s) s l
  <-> x ∈ s \/ exists t, t ∈ l /\ P (h t) = true /\ time (h t) = x.
Proof.
  revert s. induction l as [|a l IH]; intros s; simpl.
  { split; [by left|]. intros [?|(t & Ht & _)]; [done|inversion Ht]. }
  rewrite IH. split.
  - intros [Hx|(t & Ht & HP & Hx)].
    + destruct (P (h a)) eqn:E; [|by left].
      apply elem_of_union in Hx as [Hx|Hx]; [|by left].
      apply elem_of_singleton in Hx. right. exists a.
      split; [by left|done].
    + right. exists t. split; [by right|done].
  - intros [Hx|(t & Ht & HP & Hx)].
    + left. destruct (P (h a)); [|done]. apply elem_of_union. by right.
    + apply elem_of_cons in Ht as [->|Ht].
      * left. rewrite HP. apply elem_of_union. left.
        by apply elem_of_singleton.
      * right. by exists t.
Qed.

(** X19.  [invertKeysSelection] flips the selection flag of every record
    and leaves the set of selected times equal to the times of the
    records now flagged; inverting twice gives the records back. *)
Theorem invertKeysSelection_flips_and_agrees st :
  let st' := invertKeysSelection st in
  (forall t k, st.1 !! t = Some k ->
     exists k', st'.1 !! t = Some k'
                /\ selectedFromTool k' = negb (selectedFromTool k))
  /\ (forall x, x ∈ st'.2
                <-> exists t k, st'.1 !! t = Some k
                                /\ selectedFromTool k = true /\ time k = x)
  /\ (invertKeysSelection st').1 = st.1.
Proof.
  intros st'. split; [|split].
  - intros t k Hk. unfold st'. rewrite invert_lookup, Hk. simpl.
    eexists. split; [done|]. apply selected_set.
  - intros x. unfold st' at 1. unfold invertKeysSelection.
    destruct (selection_fold
                (fun k => setSelectedFromTool (negb (selectedFromTool k)) k)
                (fun key s => if selectedFromTool key
                              then {[time key]} ∪ s else s)
                (sortedTimes st.1) st.1 ∅ (NoDup_sortedTimes _)) as [_ Hset].
    rewrite Hset.
    rewrite (select_set_fold selectedFromTool
               (fun t => setSelectedFromTool
                           (negb (selectedFromTool (recordAt st.1 t)))
                           (recordAt st.1 t))).
    split.
    + intros [Hx|(t & Ht & Hsel & Hx)]; [by apply not_elem_of_empty in Hx|].
      exists t. eexists. split; [|split; [exact Hsel|exact Hx]].
      unfold st'. by rewrite invert_lookup, (recordAt_sorted _ _ Ht).
    + intros (t & k & Hk & Hsel & Hx). right. exists t.
      unfold st' in Hk. rewrite invert_lookup in Hk.
      destruct (st.1 !! t) as [k0|] eqn:E; [|done].
      simpl in Hk. injection Hk as <-.
      assert (Hr : recordAt st.1 t = k0) by (unfold recordAt; by rewrite E).
      rewrite Hr. split; [|done].
      apply elem_of_sortedTimes. by rewrite E.
  - apply map_eq. intros t. rewrite invert_lookup. unfold st'.
    rewrite invert_lookup. destruct (st.1 !! t) as [k|]; [|done]. simpl.
    f_equal. rewrite selected_set, negb_involutive, setSelected_twice.
    apply setSelected_own.
Qed.

(** X20.  [selectAllKeys] flags every record, changes nothing else in
    it, and adds the time of every record to the set of selected
    times. *)
Theorem selectAllKeys_flags_every_record st :
  let st' := selectAllKeys st in
  (forall t, st'.1 !! t = setSelectedFromTool true <$> st.1 !! t)
  /\ (forall x, x ∈ st'.2 <-> x ∈ st.2 \/ recordTime st.1 x).
Proof.
  intros st'. unfold st', selectAllKeys. destruct st as [c s].
  cbn [fst snd]. cbv zeta.
  destruct (selection_fold (setSelectedFromTool true)
              (fun key s => {[time key]} ∪ s)
              (sortedTimes c) c s (NoDup_sortedTimes _))
    as [Hmap Hset].
  split.
  - intros t. rewrite Hmap.
    destruct (decide (t ∈ sortedTimes c)) as [Hin|Hout].
    + by rewrite (recordAt_sorted _ _ Hin).
    + destruct (c !! t) eqn:E; [|done].
      exfalso. apply Hout, elem_of_sortedTimes. by rewrite E.
  - intros x. rewrite Hset.
    rewrite (select_set_fold (fun _ => true)
               (fun t => setSelectedFromTool true (recordAt c t))).
    unfold recordTime. split.
    + intros [Hx|(t & Ht & _ & Hx)]; [by left|]. right.
      exists t, (recordAt c t). split; [by apply recordAt_sorted|].
      by rewrite time_setSelected in Hx.
    + intros [Hx|(t & k & Hk & Hx)]; [by left|]. right. exists t.
      assert (Hr : recordAt c t = k) by (unfold recordAt; by rewrite Hk).
      rewrite Hr, time_setSelected. split; [|done].
      apply elem_of_sortedTimes. by rewrite Hk.
Qed.


Lemma sampleCache_stamped : stamped sampleCache.
Proof.
  intros t k Hk. unfold sampleCache in Hk.
  repeat (apply lookup_insert_Some in Hk as [[<- <-]|[_ Hk]]; [done|]).
  by rewrite lookup_empty in Hk.
Qed.

Lemma key_id_leads_back_to_key_time_witness :
  getTimeFromKeyId (finishKeys (sampleTrack false) sampleCache) 1 = 10.
Proof.
  refine (proj2 (proj1 (key_id_leads_back_to_key_time (sampleTrack false)
                          _ sampleCache _) 1%nat 10 _)).
  - reflexivity.
  - exact sampleCache_stamped.
  - reflexivity.
Defined.

End KeyQueriesFacts.

(** ** The build of the keyframe cache *)

Module KeyframeBuildFacts.

Import Linear AnimCurves KeyframeCache KeyframeCacheFacts KeyQueries.
Local Open Scope Z_scope.

Section Window.

Context (track : Track).

Lemma expandLoop_window curve ax tr endTime i keys cache t :
  is_Some (expandLoop track curve ax tr endTime i keys cache !! t) ->
  is_Some (cache !! t) \/ displayStartTime track <= t <= endTime.
Proof.
  revert i cache. induction keys as [|key rest IH]; intros i cache; [by left|].
  cbn [expandLoop]. case_bool_decide as Hlo; [|by apply IH].
  case_bool_decide as Hhi; [|by left].
  intros Hs. apply IH in Hs as [Hs|Hs]; [|by right].
  destruct (decide (t = keyTime key)) as [->|Hne]; [right; lia|].
  rewrite lookup_insert_ne in Hs by done. by left.
Qed.

Lemma expandIf_window curve ax tr cache t :
  is_Some ((if curveAnimatable curve
            then expandKeyFramesCache track curve ax tr cache else cache) !! t) ->
  is_Some (cache !! t) \/ displayStartTime track <= t <= boundaryEnd track.
Proof.
  destruct (curveAnimatable curve); [|by left].
  unfold expandKeyFramesCache. case_bool_decide; [by left|].
  apply expandLoop_window.
Qed.

Lemma showTangents_window cTX cTY cTZ cache t :
  is_Some (setShowInOutTangents track cTX cTY cTZ cache !! t) ->
  is_Some (cache !! t) \/ inDisplay track t = true.
Proof.
  assert (Hupd : forall (c : gmap Z Keyframe) u (v : Keyframe),
            (is_Some (c !! t) -> is_Some (cache !! t) \/ inDisplay track t = true) ->
            is_Some ((if inDisplay track u then <[u := v]> c else c) !! t) ->
            is_Some (cache !! t) \/ inDisplay track t = true).
  { intros c u v Hc. destruct (inDisplay track u) eqn:E; [|done].
    destruct (decide (t = u)) as [->|Hne]; [by right|].
    by rewrite lookup_insert_ne. }
  unfold setShowInOutTangents.
  destruct (_ && _ && _); [by left|]. cbv beta zeta.
  do 6 apply Hupd. by left.
Qed.

Lemma finishKeys_keeps_times cache t :
  is_Some (finishKeys track cache !! t) <-> is_Some (cache !! t).
Proof.
  unfold finishKeys. generalize (sortedTimes cache) as l.
  generalize 0 as n. intros n l. revert n cache.
  induction l as [|u l IH]; intros n cache; [done|].
  cbn [foldl]. rewrite IH. simpl.
  destruct (decide (u = t)) as [->|Hne].
  - by rewrite lookup_alter_eq, fmap_is_Some.
  - by rewrite lookup_alter_ne.
Qed.

Lemma expandIf_inside (hi : Z) curve ax tr cache :
  boundaryEnd track <= hi ->
  (forall t, is_Some (cache !! t) -> displayStartTime track <= t <= hi) ->
  forall t,
    is_Some ((if curveAnimatable curve
              then expandKeyFramesCache track curve ax tr cache
              else cache) !! t) ->
    displayStartTime track <= t <= hi.
Proof.
  intros Hhi Hc t Hs. apply expandIf_window in Hs as [Hs|Hs].
  - by apply Hc.
  - lia.
Qed.

(** X21.  The build of the keyframe cache creates no record outside the
    window it shows: every record lies between the display start and
    the later of the display end and the end of the collection window. *)
Theorem build_creates_no_record_outside_window
    cTX cTY cTZ cRX cRY cRZ t :
  is_Some (buildKeyframesCache track cTX cTY cTZ cRX cRY cRZ !! t) ->
  displayStartTime track <= t
  <= Z.max (boundaryEnd track) (displayEndTime track).
Proof.
  revert t. unfold buildKeyframesCache, cacheKeyFrames. cbv beta zeta.
  set (hi := Z.max (boundaryEnd track) (displayEndTime track)).
  assert (Hhi : boundaryEnd track <= hi) by lia.
  intros t Hs. apply (proj1 (finishKeys_keeps_times _ _)) in Hs.
  revert t Hs.
  assert (Hshow : forall c : gmap Z Keyframe,
            (forall t, is_Some (c !! t) -> displayStartTime track <= t <= hi) ->
            forall t, is_Some (setShowInOutTangents track cTX cTY cTZ c !! t) ->
                      displayStartTime track <= t <= hi).
  { intros c Hc t Hs. apply showTangents_window in Hs as [Hs|Hs].
    - by apply Hc.
    - unfold inDisplay in Hs. apply andb_true_iff in Hs as [H1 H2].
      apply bool_decide_eq_true in H1, H2. lia. }
  apply Hshow.
  destruct (showRotationKeyFrames track);
    repeat apply (expandIf_inside hi); try done;
    intros t Hs; rewrite lookup_empty in Hs; by destruct Hs.
Qed.


Lemma expandKey_keeps a ax tr curve i T k :
  tr = false \/ ax <> a ->
  keyId a (expandKey curve ax tr i T k) = keyId a k
  /\ time (expandKey curve ax tr i T k) = T.
Proof.
  intros Hother. unfold expandKey.
  destruct tr.
  - destruct Hother as [?|Hne]; [done|].
    destruct k as [? ? lk ? ? ? ? ? ? ? ? ? ? ?].
    destruct (curveKeys curve !! i); destruct a, ax; simpl;
      try (by destruct Hne); destruct lk; done.
  - destruct k, a, ax; done.
Qed.

Lemma expandKey_records ax curve i T k :
  keyId ax (expandKey curve ax true i T k) = Z.of_nat i
  /\ time (expandKey curve ax true i T k) = T.
Proof.
  unfold expandKey.
  destruct k as [? ? lk ? ? ? ? ? ? ? ? ? ? ?].
  destruct (curveKeys curve !! i); destruct ax; simpl; destruct lk; done.
Qed.

Lemma expandLoop_keeps a v T curve ax tr endTime i keys cache :
  tr = false \/ ax <> a ->
  holdsKey a v T cache ->
  holdsKey a v T (expandLoop track curve ax tr endTime i keys cache).
Proof.
  intros Hother. revert i cache.
  induction keys as [|key rest IH]; intros i cache Hk; [done|].
  cbn [expandLoop]. case_bool_decide; [|by apply IH].
  case_bool_decide; [|done]. apply IH.
  destruct Hk as (k & Hk & Hv & Ht).
  destruct (decide (T = keyTime key)) as [->|HT].
  - eexists. rewrite lookup_insert_eq. split; [done|].
    unfold recordAt. rewrite Hk. simpl.
    destruct (expandKey_keeps a ax tr curve i (keyTime key) k Hother)
      as [-> ->]. done.
  - exists k. by rewrite lookup_insert_ne.
Qed.

Lemma expandLoop_skips T curve ax tr endTime i keys cache :
  (forall key, key ∈ keys -> keyTime key <> T) ->
  expandLoop track curve ax tr endTime i keys cache !! T = cache !! T.
Proof.
  revert i cache. induction keys as [|key rest IH]; intros i cache Hk; [done|].
  cbn [expandLoop]. case_bool_decide.
  - case_bool_decide; [|done].
    rewrite IH by (intros; apply Hk; by right).
    apply lookup_insert_ne. apply Hk. by left.
  - apply IH. intros; apply Hk; by right.
Qed.

Lemma expandLoop_records T curve ax endTime i j keys key cache :
  ascending (keyTime <$> keys) = true ->
  keys !! j = Some key -> keyTime key = T ->
  displayStartTime track <= T <= endTime ->
  holdsKey ax (Z.of_nat (i + j)) T
    (expandLoop track curve ax true endTime i keys cache).
Proof.
  revert i j cache. induction keys as [|key0 rest IH];
    intros i j cache Hasc Hj HT Hwin; [done|].
  rewrite fmap_cons in Hasc. apply ascending_head in Hasc as [Hasc Hlt].
  cbn [expandLoop]. destruct j as [|j]; simpl in Hj.
  - injection Hj as ->. rewrite HT.
    rewrite !bool_decide_eq_true_2 by lia.
    eexists. rewrite expandLoop_skips.
    + rewrite lookup_insert_eq. split; [done|].
      destruct (expandKey_records ax curve i T (recordAt cache T)) as [-> ->].
      split; [f_equal; lia|done].
    + intros k Hk. apply (list_elem_of_fmap_2 keyTime) in Hk.
      apply Hlt in Hk. lia.
  - assert (keyTime key0 < T).
    { rewrite <- HT. apply Hlt. apply list_elem_of_fmap_2.
      by eapply list_elem_of_lookup_2. }
    replace (i + S j)%nat with (S i + j)%nat by lia.
    case_bool_decide.
    + rewrite bool_decide_eq_true_2 by lia. by apply IH.
    + by apply IH.
Qed.

Lemma expandIf_keeps a v T curve ax tr cache :
  tr = false \/ ax <> a ->
  holdsKey a v T cache ->
  holdsKey a v T (if curveAnimatable curve
                  then expandKeyFramesCache track curve ax tr cache
                  else cache).
Proof.
  intros Hother Hk. destruct (curveAnimatable curve); [|done].
  unfold expandKeyFramesCache. case_bool_decide; [done|].
  by apply expandLoop_keeps.
Qed.

Lemma expandIf_records curve ax i key cache :
  curveAnimatable curve = true -> ascendingKeys curve = true ->
  curveKeys curve !! i = Some key ->
  displayStartTime track <= keyTime key <= boundaryEnd track ->
  holdsKey ax (Z.of_nat i) (keyTime key)
    (if curveAnimatable curve
     then expandKeyFramesCache track curve ax true cache else cache).
Proof.
  intros -> Hasc Hi Hwin. unfold expandKeyFramesCache.
  rewrite bool_decide_eq_false_2.
  2:{ unfold numKeys. apply lookup_lt_Some in Hi. lia. }
  by apply (expandLoop_records (keyTime key) curve ax _ 0 i _ key).
Qed.

Lemma show_flags_keep_id a b k :
  keyId a (setShowInTangent b k) = keyId a k
  /\ keyId a (setShowOutTangent b k) = keyId a k.
Proof. by destruct k, a. Qed.

Lemma show_flags_keep_time b k :
  time (setShowInTangent b k) = time k
  /\ time (setShowOutTangent b k) = time k.
Proof. by destruct k. Qed.

Lemma showTangents_keeps a v T cTX cTY cTZ cache :
  holdsKey a v T cache ->
  holdsKey a v T (setShowInOutTangents track cTX cTY cTZ cache).
Proof.
  assert (Hupd : forall (c : gmap Z Keyframe) u (newRecord : Keyframe),
            keyId a newRecord = keyId a (recordAt c u) ->
            time newRecord = time (recordAt c u) ->
            holdsKey a v T c ->
            holdsKey a v T
              (if inDisplay track u then <[u := newRecord]> c else c)).
  { intros c u newRecord Hid Htime Hc. destruct (inDisplay track u); [|done].
    destruct Hc as (k & Hk & Hv & Ht).
    destruct (decide (T = u)) as [->|Hne].
    - eexists. rewrite lookup_insert_eq. split; [done|].
      unfold recordAt in Hid, Htime. rewrite Hk in Hid, Htime. simpl in *.
      by rewrite Hid, Htime.
    - exists k. by rewrite lookup_insert_ne. }
  intros Hk. unfold setShowInOutTangents.
  destruct (_ && _ && _); [done|]. cbv beta zeta.
  do 6 (apply Hupd; [apply show_flags_keep_id|apply show_flags_keep_time|]).
  done.
Qed.

Lemma finishKeys_keeps a v T cache :
  holdsKey a v T cache -> holdsKey a v T (finishKeys track cache).
Proof.
  unfold finishKeys. generalize (sortedTimes cache) as l.
  generalize 0 as n. intros n l. revert n cache.
  induction l as [|t l IH]; intros n cache Hk; [done|].
  cbn [foldl]. apply IH. simpl.
  destruct Hk as (k & Hk & Hv & Ht).
  destruct (decide (t = T)) as [->|Hne].
  - eexists. rewrite lookup_alter_eq, Hk. simpl. split; [done|].
    unfold finishKey. destruct k, a; simpl in *;
      case_bool_decide; destruct (isDrawing track); done.
  - exists k. by rewrite lookup_alter_ne.
Qed.

(** X22.  For every animatable translation curve whose key times ascend,
    each of its keys inside the collection window gets a record at its
    time, stamped with that time and holding the index of the key as
    the key id of the axis. *)
Theorem translation_key_is_recorded cTX cTY cTZ cRX cRY cRZ a i key :
  curveAnimatable (translationCurve a cTX cTY cTZ) = true ->
  ascendingKeys (translationCurve a cTX cTY cTZ) = true ->
  curveKeys (translationCurve a cTX cTY cTZ) !! i = Some key ->
  displayStartTime track <= keyTime key <= boundaryEnd track ->
  exists k,
    buildKeyframesCache track cTX cTY cTZ cRX cRY cRZ !! keyTime key = Some k
    /\ keyId a k = Z.of_nat i /\ time k = keyTime key.
Proof.
  intros Han Hasc Hi Hwin.
  change (holdsKey a (Z.of_nat i) (keyTime key)
            (buildKeyframesCache track cTX cTY cTZ cRX cRY cRZ)).
  unfold buildKeyframesCache, cacheKeyFrames. cbv beta zeta.
  apply finishKeys_keeps, showTangents_keeps.
  assert (Hrot : forall c,
            holdsKey a (Z.of_nat i) (keyTime key) c ->
            holdsKey a (Z.of_nat i) (keyTime key)
              (if showRotationKeyFrames track
               then (if curveAnimatable cRZ
                     then expandKeyFramesCache track cRZ kAxisZ false
                            (if curveAnimatable cRY
                             then expandKeyFramesCache track cRY kAxisY false
                                    (if curveAnimatable cRX
                                     then expandKeyFramesCache track cRX
                                            kAxisX false c
                                     else c)
                             else if curveAnimatable cRX
                                  then expandKeyFramesCache track cRX
                                         kAxisX false c
                                  else c)
                     else if curveAnimatable cRY
                          then expandKeyFramesCache track cRY kAxisY false
                                 (if curveAnimatable cRX
                                  then expandKeyFramesCache track cRX
                                         kAxisX false c
                                  else c)
                          else if curveAnimatable cRX
                               then expandKeyFramesCache track cRX
                                      kAxisX false c
                               else c)
               else c)).
  { intros c Hc. destruct (showRotationKeyFrames track); [|done].
    repeat apply expandIf_keeps; auto. }
  apply Hrot. clear Hrot.
  destruct a; simpl in *.
  - do 2 (apply expandIf_keeps; [by right|]). by apply expandIf_records.
  - apply expandIf_keeps; [by right|]. by apply expandIf_records.
  - by apply expandIf_records.
Qed.

End Window.


Lemma build_creates_no_record_outside_window_witness :
  displayStartTime (sampleTrack true) <= 10
  <= Z.max (boundaryEnd (sampleTrack true))
           (displayEndTime (sampleTrack true)).
Proof.
  apply (build_creates_no_record_outside_window (sampleTrack true)
           noCurve noCurve noCurve sampleRotationCurve noCurve noCurve 10).
  vm_compute. eexists. reflexivity.
Defined.

Lemma translation_key_is_recorded_witness :
  exists k,
    buildKeyframesCache (sampleTrack false) sampleTangentCurve noCurve noCurve
      noCurve noCurve noCurve !! 10 = Some k
    /\ keyId kAxisX k = 1 /\ time k = 10.
Proof.
  apply (translation_key_is_recorded (sampleTrack false) sampleTangentCurve
           noCurve noCurve noCurve noCurve noCurve kAxisX 1
           (mkCurveKey 10 0%R (0%R, 1%R) (0%R, 1%R) true)).
  - reflexivity.
  - reflexivity.
  - reflexivity.
  - vm_compute. split; discriminate.
Defined.

End KeyframeBuildFacts.

(** ** World positions *)

Module WorldPositionsFacts.

Import Linear ParentMatrixCache ParentMatrixCacheFacts AnimCurves.
Import KeyframeCache KeyEditing KeyEditingFacts KeyQueries WorldPositions.
Local Open Scope R_scope.

Section Host.

Context `{scene : Scene}.
Variable inverse : MMatrix -> MMatrix.
Variable getPos : Z -> MVector.


End Host.

End WorldPositionsFacts.

(** ** Strokes and draw gestures *)

Module GestureFacts.

Import Linear Stroke StrokeFacts AnimCurves CurveEditing CurveEditingFacts.
Import Gesture.
Local Open Scope R_scope.

Lemma spaced_snoc l a v :
  spaced (l ++ [a]) -> 64 < sq2 (vsub a v) -> spaced ((l ++ [a]) ++ [v]).
Proof.
  induction l as [|x l IH]; intros Hs Hv.
  - simpl. done.
  - destruct l as [|y l].
    + simpl in *. tauto.
    + simpl in *. destruct Hs as [Hxy Hs]. split; [done|]. by apply IH.
Qed.

Lemma pointAt_last l a : pointAt (l ++ [a]) (length (l ++ [a]) - 1) = a.
Proof.
  unfold pointAt. rewrite length_app. simpl.
  replace (length l + 1 - 1)%nat with (length l) by lia.
  rewrite app_nth2 by lia. by rewrite Nat.sub_diag.
Qed.

Lemma far_apart_on_screen (a v : MVector) :
  vz a = 0 -> vz v = 0 -> vlength (vsub v a) > 8 -> 64 < sq2 (vsub a v).
Proof.
  intros Ha Hv Hd. unfold vlength in Hd.
  assert (Heq : vdot (vsub v a) (vsub v a) = sq2 (vsub a v)).
  { unfold vdot, sq2, vsub. simpl. rewrite Ha, Hv. ring. }
  rewrite Heq in Hd.
  destruct (Rle_lt_dec (sq2 (vsub a v)) 64) as [Hle|Hlt]; [|done].
  apply sqrt_le_1_alt in Hle.
  replace (sqrt 64) with 8 in Hle; [lra|].
  symmetry. apply sqrt_lem_1; lra.
Qed.

Lemma appendSample_inv l a v :
  vz v = 0 ->
  spaced (l ++ [a]) -> Forall (fun p => vz p = 0) (l ++ [a]) ->
  exists l' a',
    appendSample (l ++ [a]) v = l' ++ [a']
    /\ spaced (l' ++ [a']) /\ Forall (fun p => vz p = 0) (l' ++ [a']).
Proof.
  intros Hv Hs Hz. unfold appendSample.
  rewrite bool_decide_eq_true_2 by (rewrite length_app; simpl; lia).
  rewrite pointAt_last. case_bool_decide as Hd.
  - exists (l ++ [a]), v. split; [done|]. split.
    + apply spaced_snoc; [done|]. apply far_apart_on_screen; [|done..].
      rewrite Forall_app, Forall_singleton in Hz. tauto.
    + apply Forall_app. split; [done|]. by apply Forall_singleton.
  - by exists l, a.
Qed.

Lemma strokeOfGesture_inv press drags :
  exists l a,
    strokeOfGesture press drags = l ++ [a]
    /\ spaced (l ++ [a]) /\ Forall (fun p => vz p = 0) (l ++ [a]).
Proof.
  unfold strokeOfGesture.
  assert (Hinit : exists l a,
            [pixel press] = l ++ [a]
            /\ spaced (l ++ [a]) /\ Forall (fun p => vz p = 0) (l ++ [a])).
  { exists [], (pixel press). split; [done|]. split; [done|].
    by apply Forall_singleton. }
  revert Hinit. generalize [pixel press] as pts.
  induction drags as [|xy drags IH]; intros pts Hinit; [done|].
  simpl. apply IH. destruct Hinit as (l & a & -> & Hs & Hz).
  by apply appendSample_inv.
Qed.

Lemma spaced_segments l d :
  spaced l -> d ∈ segmentSqrLengths l -> 64 < d.
Proof.
  induction l as [|a rest IH]; intros Hs Hin; [inversion Hin|].
  destruct rest as [|b rest]; [inversion Hin|].
  cbn [segmentSqrLengths] in Hin. destruct Hs as [Hab Hs].
  apply elem_of_cons in Hin as [->|Hin]; [done|]. by apply IH.
Qed.


(** X24.  A stroke that the press and drag events of a gesture collect
    has no two consecutive points within 8 pixels of each other, so
    every divisor of [getClosestPointOnPolyLine] on it exceeds 64: no
    division by zero on such a stroke. *)
Theorem sampled_stroke_has_no_short_segment press drags q :
  spaced (strokeOfGesture press drags)
  /\ Forall (fun d => 64 < d)
            (closestDivisors (strokeOfGesture press drags) q).
Proof.
  rewrite closestDivisors_segments.
  destruct (strokeOfGesture_inv press drags) as (l & a & -> & Hs & _).
  split; [done|]. apply Forall_forall. intros d. by apply spaced_segments.
Qed.

(** X25.  For a stroke of at least two points, the stroke point that the
    draw mode takes for a key is never the first point; its index is
    inside the stroke, and below the last index when the stroke has
    three points or more. *)
Theorem samplePointIndex_skips_first_and_last i totalPoints keyframeCount :
  (0 <= i < keyframeCount)%Z -> (2 <= totalPoints)%Z ->
  (1 <= samplePointIndex i totalPoints keyframeCount <= totalPoints - 1)%Z
  /\ ((3 <= totalPoints)%Z ->
      (samplePointIndex i totalPoints keyframeCount <= totalPoints - 2)%Z).
Proof.
  intros Hi Ht. unfold samplePointIndex.
  assert (Hq : (0 <= (i + 1) * (totalPoints - 1) ÷ (keyframeCount + 1)
                < totalPoints - 1)%Z).
  { split.
    - apply Z.quot_pos; nia.
    - apply Z.quot_lt_upper_bound; nia. }
  repeat case_bool_decide; lia.
Qed.


Section View.

Context `{view : View}.

Lemma intMul_exact a b :
  (- 2 ^ 31 <= a * b < 2 ^ 31)%Z -> intMul a b = (a * b)%Z.
Proof.
  intros Hr. unfold intMul. rewrite Z.mod_small by lia. lia.
Qed.

Lemma drawKey_times strokePoints selectedTime keyframeCount frameInterval
    keyWorldPosition initialX initialY i e t :
  e ∈ drawKey strokePoints selectedTime keyframeCount frameInterval
        keyWorldPosition initialX initialY i ->
  addedTime e = Some t ->
  t = (selectedTime + intMul (i + 1) frameInterval)%Z.
Proof.
  unfold drawKey. destruct cameraSpace.
  - destruct (worldCameraSpaceToWorldSpace _ _); intros He; [|inversion He].
    apply list_elem_of_singleton in He as ->. simpl. congruence.
  - intros He. apply list_elem_of_singleton in He as ->. simpl. congruence.
Qed.

Lemma cleared_range_has_no_key startTime endTime curve t :
  (startTime < t <= endTime)%Z ->
  find (deleteKeyFramesBetweenTimes startTime endTime curve) t = None.
Proof.
  intros Ht. unfold find.
  rewrite betweenTimes_keys.
  destruct (list_find _ _) as [[j k]|] eqn:E; [|done].
  apply list_find_Some in E as (Hj & Hk & _).
  apply list_elem_of_lookup_2, list_elem_of_filter in Hj as [Hout _].
  exfalso. apply Hout. lia.
Qed.

(** X26.  When the product of [keyframeCount] and the frame interval
    lies inside the range of [int], the release of a draw gesture first
    clears the range (selectedTime, rangeEnd] and moves the end marker
    to rangeEnd last; every key it adds lies in the range it has
    cleared, where no curve has a key left.  With a stroke of less than
    two points it issues no call. *)
Theorem draw_release_adds_keys_in_cleared_range strokePoints selectedTime
    keyframeCount frameInterval keyWorldPosition initialX initialY :
  let interval :=
    if bool_decide (frameInterval <= 0)%Z then 1%Z else frameInterval in
  (- 2 ^ 31 <= keyframeCount * interval < 2 ^ 31)%Z ->
  let rangeEnd := (selectedTime + keyframeCount * interval)%Z in
  let edits := releaseDraw strokePoints selectedTime keyframeCount
                 frameInterval keyWorldPosition initialX initialY in
  (if bool_decide (1 < length strokePoints)%nat
   then head edits = Some (DeleteAllKeyFramesInRange selectedTime rangeEnd)
        /\ last edits = Some (SetEndrawingTime rangeEnd)
   else edits = [])
  /\ Forall (fun e => forall t, addedTime e = Some t ->
               (selectedTime < t <= rangeEnd)%Z
               /\ forall curve,
                    find (deleteKeyFramesBetweenTimes selectedTime rangeEnd
                            curve) t = None) edits.
Proof.
  intros interval Hrange rangeEnd edits.
  assert (Hint : (1 <= interval)%Z).
  { unfold interval. case_bool_decide; lia. }
  unfold edits, releaseDraw. fold interval.
  rewrite (intMul_exact keyframeCount interval Hrange). fold rangeEnd.
  case_bool_decide as Hlen; [|split; [done|constructor]].
  rewrite bool_decide_eq_false_2 by lia.
  split.
  - split; [done|]. by rewrite app_assoc, last_snoc.
  - apply Forall_forall. intros e He t Ht.
    assert (Hin : (selectedTime < t <= rangeEnd)%Z).
    { apply elem_of_app in He as [He|He].
      { apply list_elem_of_singleton in He as ->. done. }
      apply elem_of_app in He as [He|He].
      2:{ apply list_elem_of_singleton in He as ->. done. }
      apply list_elem_of_join in He as (l & He & Hl).
      apply list_elem_of_fmap in Hl as (i & -> & Hi).
      apply elem_of_seqZ in Hi.
      rewrite (drawKey_times _ _ _ _ _ _ _ _ _ _ He Ht).
      rewrite intMul_exact by nia.
      unfold rangeEnd. nia. }
    split; [done|]. intros curve. by apply cleared_range_has_no_key.
Qed.

End View.

Lemma calculatePathLength_from pre a rest acc :
  foldl (fun length i =>
           length + vlength (vsub (pointAt (pre ++ a :: rest) i)
                                  (pointAt (pre ++ a :: rest) (i - 1))))
        acc (seq (S (length pre)) (length rest))
  = acc + polylineLength (a :: rest).
Proof.
  revert pre a acc. induction rest as [|b rest IH]; intros pre a acc.
  { simpl. lra. }
  cbn [length seq foldl].
  replace (pre ++ a :: b :: rest) with ((pre ++ [a]) ++ b :: rest)
    by (by rewrite <- app_assoc).
  replace (S (S (length pre))) with (S (length (pre ++ [a])))
    by (rewrite length_app; simpl; lia).
  rewrite IH. cbn [polylineLength].
  assert (H1 : pointAt ((pre ++ [a]) ++ b :: rest) (S (length pre)) = b).
  { unfold pointAt. rewrite app_nth2 by (rewrite length_app; simpl; lia).
    rewrite length_app. simpl.
    by replace (S (length pre) - (length pre + 1))%nat with 0%nat by lia. }
  assert (H2 : pointAt ((pre ++ [a]) ++ b :: rest) (S (length pre) - 1) = a).
  { unfold pointAt. rewrite <- app_assoc. simpl.
    rewrite Nat.sub_0_r. rewrite app_nth2 by lia.
    by rewrite Nat.sub_diag. }
  rewrite H1, H2. destruct rest; simpl; lra.
Qed.

Lemma calculatePathLength_polyline points :
  calculatePathLength points = polylineLength points.
Proof.
  unfold calculatePathLength. destruct points as [|a rest]; [done|].
  rewrite <- (Rplus_0_l (polylineLength (a :: rest))).
  rewrite <- (calculatePathLength_from [] a rest 0).
  simpl. by rewrite Nat.sub_0_r.
Qed.

Lemma blend_commutes (p0 p1 : MVector) (t : R) :
  vadd (vscale p0 (1 - t)) (vscale p1 t)
  = vadd (vscale p1 t) (vscale p0 (1 - t)).
Proof. unfold vadd, vscale. simpl. f_equal; ring. Qed.

Lemma last_point_onPolyline points :
  onPolyline points (pointAt points (length points - 1)).
Proof.
  destruct (decide (length points <= 1)%nat) as [Hle|Hgt].
  - left. f_equal. lia.
  - right. exists (length points - 1)%nat, 1. split; [lia|]. split; [lra|].
    destruct (pointAt points (length points - 1)) as [x y z].
    destruct (pointAt points (length points - 1 - 1)) as [x' y' z'].
    unfold vadd, vscale. simpl. f_equal; ring.
Qed.

Lemma sampleLoop_onPolyline points target i n cur :
  (1 <= i)%nat -> (i + n = length points)%nat -> cur < target ->
  exists p, sampleLoop points target i n cur = Some p /\ onPolyline points p.
Proof.
  revert i cur. induction n as [|n IH]; intros i cur Hi Hlen Hcur.
  { simpl. eexists. split; [done|]. apply last_point_onPolyline. }
  cbn [sampleLoop].
  set (seg := vlength (vsub (pointAt points i) (pointAt points (i - 1)))).
  assert (Hseg : 0 <= seg) by apply sqrt_pos.
  case_bool_decide as Hreach.
  - assert (Hpos : 0 < seg) by lra.
    unfold fdiv. rewrite bool_decide_eq_false_2 by lra.
    eexists. split; [done|]. right.
    exists i, ((target - cur) / seg). split; [lia|]. split.
    + assert (Hinv : 0 < / seg) by (by apply Rinv_0_lt_compat).
      assert (Hone : seg * / seg = 1) by (apply Rinv_r; lra).
      unfold Rdiv. split; [nra|].
      assert ((target - cur) * / seg <= seg * / seg); [|lra].
      apply Rmult_le_compat_r; lra.
    + apply blend_commutes.
  - apply IH; [lia|lia|lra].
Qed.

(** X27.  [calculatePathLength] is the length of the polyline, the sum
    of the lengths of all its segments; and given a positive total
    length, [samplePointOnPath] never divides by zero and returns a
    point of the polyline. *)
Theorem sampled_path_point_is_on_polyline t points :
  calculatePathLength points = polylineLength points
  /\ forall totalLength, 0 < totalLength ->
       exists p, samplePointOnPath t points totalLength = Some p
                 /\ onPolyline points p.
Proof.
  split; [apply calculatePathLength_polyline|].
  intros totalLength Htot. unfold samplePointOnPath.
  case_bool_decide as Hempty.
  { eexists. split; [done|]. left.
    destruct points; [done|discriminate]. }
  destruct (bool_decide (t <= 0) || bool_decide (length points = 1%nat))
    eqn:Efirst.
  { eexists. split; [done|]. by left. }
  apply orb_false_iff in Efirst as [Ht Hone].
  apply bool_decide_eq_false in Ht, Hone.
  case_bool_decide as Hend.
  { eexists. split; [done|]. apply last_point_onPolyline. }
  apply sampleLoop_onPolyline; [lia|lia|]. nra.
Qed.

Lemma samplePointIndex_skips_first_and_last_witness :
  (1 <= samplePointIndex 1 10 3 <= 10 - 1)%Z.
Proof.
  refine (proj1 (samplePointIndex_skips_first_and_last 1 10 3 _ _)); lia.
Defined.

Lemma draw_release_adds_keys_in_cleared_range_witness :
  head (releaseDraw (view := sampleView) straightStroke 0 2 5 vzero 0 0)
  = Some (DeleteAllKeyFramesInRange 0 10).
Proof.
  refine (proj1 (proj1 (draw_release_adds_keys_in_cleared_range
            (view := sampleView) straightStroke 0%Z 2%Z 5%Z vzero 0 0 _))).
  simpl. lia.
Defined.

End GestureFacts.

(** ** The stroke fitter of the edit context *)

Module EditStrokeFacts.

Import Linear Stroke StrokeFacts Gesture GestureFacts.
Local Open Scope R_scope.

Lemma minSqrLength_pos : 0 < EditStroke.minSqrLength.
Proof. unfold EditStroke.minSqrLength. apply Rinv_0_lt_compat. lra. Qed.

Lemma minSqrLength_small : EditStroke.minSqrLength < 1.
Proof.
  unfold EditStroke.minSqrLength.
  rewrite <- Rinv_1. apply Rinv_lt_contravar; lra.
Qed.

Lemma edit_step_b q i p st : cs_b (EditStroke.closestStep q i p st) = p.
Proof.
  unfold EditStroke.closestStep. case_bool_decide; [done|].
  repeat (destruct (flt _ _)); reflexivity.
Qed.

Lemma edit_step_divisors q i p st :
  Forall (fun d => EditStroke.minSqrLength <= d) (cs_divisors st) ->
  Forall (fun d => EditStroke.minSqrLength <= d)
         (cs_divisors (EditStroke.closestStep q i p st)).
Proof.
  intros Hst. unfold EditStroke.closestStep. case_bool_decide as Hg; [done|].
  assert (Hall : Forall (fun d => EditStroke.minSqrLength <= d)
                   (cs_divisors st
                    ++ [vx (vsub (cs_b st) p) * vx (vsub (cs_b st) p)
                        + vy (vsub (cs_b st) p) * vy (vsub (cs_b st) p)])).
  { apply Forall_app. split; [done|]. apply Forall_singleton. lra. }
  repeat (destruct (flt _ _)); exact Hall.
Qed.

Lemma edit_loop_divisors q i rest st :
  Forall (fun d => EditStroke.minSqrLength <= d) (cs_divisors st) ->
  Forall (fun d => EditStroke.minSqrLength <= d)
         (cs_divisors (EditStroke.closestLoop q i rest st)).
Proof.
  revert i st. induction rest as [|p rest IH]; intros i st Hst; [done|].
  simpl. apply IH. by apply edit_step_divisors.
Qed.

Lemma edit_step_inv q i p st :
  (1 <= i)%nat -> EditStroke.closestInv i st ->
  EditStroke.closestInv (S i) (EditStroke.closestStep q i p st).
Proof.
  intros Hi ((d & Hd) & Hidx).
  assert (Hidx' : (cs_index st = 0%nat /\ cs_finalT st = Finite 0)
      \/ ((1 <= cs_index st < S i)%nat
          /\ exists r, cs_finalT st = Finite r /\ 0 <= r <= 1)).
  { destruct Hidx as [?|[? ?]]; [by left|right]. split; [lia|done]. }
  clear Hidx. unfold EditStroke.closestStep.
  pose proof minSqrLength_pos as Hpos.
  case_bool_decide as Hg.
  { split; simpl; eauto. }
  unfold finv. rewrite bool_decide_eq_false_2 by lra. simpl.
  case_bool_decide as Ht0.
  { split; simpl; eauto. }
  case_bool_decide as Ht1; simpl; rewrite Hd; simpl;
    case_bool_decide as Hc; simpl; (split; simpl; [eauto|]); try done.
  - right. split; [lia|]. rewrite bool_decide_eq_false_2 by lra.
    eexists. split; [done|]. lra.
  - right. split; [lia|]. rewrite bool_decide_eq_true_2 by lra.
    eexists. split; [done|]. lra.
Qed.

Lemma edit_loop_inv q i rest st :
  (1 <= i)%nat -> EditStroke.closestInv i st ->
  EditStroke.closestInv (i + length rest) (EditStroke.closestLoop q i rest st).
Proof.
  revert i st. induction rest as [|p rest IH]; intros i st Hi Hinv.
  - simpl. by rewrite Nat.add_0_r.
  - cbn [EditStroke.closestLoop length].
    replace (i + S (length rest))%nat with (S i + length rest)%nat by lia.
    apply IH; [lia|]. by apply edit_step_inv.
Qed.

(** X28.  The copy of [getClosestPointOnPolyLine] in the edit context
    skips every segment whose squared length is below 1e-10: it never
    divides by less than that, and for every stroke with at least one
    point it returns a point of the polyline. *)
Theorem edit_closest_point_skips_short_segments drawStrokePoints q :
  Forall (fun d => EditStroke.minSqrLength <= d)
         (EditStroke.closestDivisors drawStrokePoints q)
  /\ (drawStrokePoints <> [] ->
      exists p,
        EditStroke.getClosestPointOnPolyLine drawStrokePoints q = Some p
        /\ onPolyline drawStrokePoints p).
Proof.
  split.
  { unfold EditStroke.closestDivisors, EditStroke.closestRun.
    apply edit_loop_divisors. constructor. }
  intros _. unfold EditStroke.getClosestPointOnPolyLine.
  assert (Hinv : EditStroke.closestInv (1 + length (tail drawStrokePoints))
                   (EditStroke.closestRun q drawStrokePoints)).
  { unfold EditStroke.closestRun. apply edit_loop_inv; [lia|].
    split; simpl; eauto. }
  destruct Hinv as (_ & [[Hi Ht]|[Hi (r & Ht & Hr)]]).
  - rewrite Hi, Ht. simpl. rewrite !bool_decide_eq_true_2 by done. simpl.
    eexists. split; [done|]. by left.
  - rewrite Ht. simpl.
    rewrite (bool_decide_eq_false_2 (cs_index _ = 0%nat)) by lia.
    rewrite andb_false_r. eexists. split; [done|].
    right. exists (cs_index (EditStroke.closestRun q drawStrokePoints)), r.
    split; [|done].
    destruct drawStrokePoints; simpl in *; lia.
Qed.

Lemma edit_step_agrees q i p st :
  EditStroke.minSqrLength <= sq2 (vsub (cs_b st) p) ->
  EditStroke.closestStep q i p st = Stroke.closestStep q i p st.
Proof.
  intros Hlong. unfold EditStroke.closestStep, Stroke.closestStep.
  unfold sq2 in Hlong. by rewrite bool_decide_eq_false_2 by lra.
Qed.

Lemma edit_loop_agrees q i rest st :
  Forall (fun d => EditStroke.minSqrLength <= d)
         (segmentSqrLengths (cs_b st :: rest)) ->
  EditStroke.closestLoop q i rest st = Stroke.closestLoop q i rest st.
Proof.
  revert i st. induction rest as [|p rest IH]; intros i st Hall; [done|].
  cbn [segmentSqrLengths] in Hall. apply Forall_cons in Hall as [Hp Hall].
  simpl. rewrite edit_step_agrees by done. apply IH.
  by rewrite closestStep_b.
Qed.

(** X29.  On a stroke without a segment of squared length below 1e-10,
    as the press and drag events of a gesture collect it, the two
    copies of [getClosestPointOnPolyLine] give the same point. *)
Theorem closest_point_copies_agree_on_sampled_strokes press drags q :
  EditStroke.getClosestPointOnPolyLine (strokeOfGesture press drags) q
  = Stroke.getClosestPointOnPolyLine (strokeOfGesture press drags) q.
Proof.
  assert (Hrun : EditStroke.closestRun q (strokeOfGesture press drags)
                 = Stroke.closestRun q (strokeOfGesture press drags)).
  { unfold EditStroke.closestRun, Stroke.closestRun.
    apply edit_loop_agrees. cbn [cs_b].
    destruct (strokeOfGesture_inv press drags) as (l & a & Hstroke & Hs & _).
    assert (Hsame : pointAt (strokeOfGesture press drags) 0
                    :: tail (strokeOfGesture press drags)
                    = strokeOfGesture press drags).
    { rewrite Hstroke. by destruct l. }
    rewrite Hsame, Hstroke. apply Forall_forall. intros d Hd.
    pose proof (spaced_segments _ _ Hs Hd).
    pose proof minSqrLength_small. lra. }
  unfold EditStroke.getClosestPointOnPolyLine,
    Stroke.getClosestPointOnPolyLine.
  by rewrite Hrun.
Qed.

(** X30.  Called with a positive [pointSize], as its caller does, the
    copy of [getSpreadPointOnPolyLine] in the edit context divides only
    by [pointSize] and by a segment length of 1e-6 or more: whatever
    the stroke and the lengths it is given, the coordinates of its
    result are numbers. *)
Theorem edit_spread_point_is_a_number drawStrokePoints i pointSize
    strokeLenght segmentLenghts :
  (0 < pointSize)%Z ->
  is_Some (EditStroke.getSpreadPointOnPolyLine drawStrokePoints i pointSize
             strokeLenght segmentLenghts).
Proof.
  intros Hsize. apply IZR_lt in Hsize.
  unfold EditStroke.getSpreadPointOnPolyLine.
  case_bool_decide; [by case_bool_decide|].
  assert (Htl : fmul strokeLenght (fdiv (IZR i + 1) (IZR pointSize))
                = Finite (strokeLenght * ((IZR i + 1) / IZR pointSize))).
  { unfold fdiv. by rewrite bool_decide_eq_false_2 by lra. }
  rewrite Htl.
  destruct (EditStroke.spreadSearch _ _ _ _ _) as [found cur].
  case_bool_decide as Hg; [done|].
  assert (0 < EditStroke.minLength).
  { unfold EditStroke.minLength. apply Rinv_0_lt_compat. lra. }
  cbn [EditStroke.fsub EditStroke.fquot].
  unfold fdiv. set (seg := nth _ segmentLenghts 0) in *.
  by rewrite (bool_decide_eq_false_2 (seg = 0)) by lra.
Qed.

Lemma edit_spread_point_is_a_number_witness :
  is_Some (EditStroke.getSpreadPointOnPolyLine straightStroke 0 2 30
             [10; 10; 10]).
Proof.
  apply (edit_spread_point_is_a_number straightStroke 0 2 30 [10; 10; 10]).
  lia.
Defined.

End EditStrokeFacts.
